(** * Sophie ATS: the state-synchronisation and view-derivation core

    A shallow embedding of [src/App.tsx].  The React component keeps one
    [ATSState] value, changes it through six CRUD helpers (each with a
    local and a Supabase branch), derives the filtered and grouped board
    from it, and exports / imports it as JSON.

    Conventions of the embedding:
    - a JavaScript string is a [string]; each [ascii] is one UTF-16 code
      unit below 256, so the development speaks about strings in the
      Latin-1 range (for which [toLowerCase], [\s], [\d] and [trim] are
      context free and are written out below);
    - a JavaScript number is a [Z] (the scores of the application are
      whole numbers); [Wide] adds the two infinities, which an import
      can bring into the state;
    - an optional property [p?: T] is an [option T]; a property typed
      [p?: T | null] is a [nullable T];
    - [uid()], [new Date().toISOString()] and the answers of the Supabase
      client are inputs of the helper that uses them;
    - [show] appends to the list of notices; the toast on screen is the
      last one. *)

From Stdlib Require Import ZArith NArith String Ascii List Lia.
From Stdlib Require Import Decimal DecimalString DecimalPos DecimalN DecimalFacts.
From stdpp Require Import base option list strings gmap fin_maps.

#[local] Set Warnings "-clear-no-such-hyp".

(** ** JavaScript strings *)

Module JS.

(** [String.prototype.toLowerCase] on one code unit below 256: the
    letters A-Z and the Latin-1 capitals U+00C0..U+00DE (U+00D7, the
    multiplication sign, apart) move up by 32. *)
Definition lowerCodeUnit (c : ascii) : ascii :=
  let n := N_of_ascii c in
  if ((65 <=? n) && (n <=? 90))%N
     || ((192 <=? n) && (n <=? 222) && negb (n =? 215))%N
  then ascii_of_N (n + 32) else c.

Fixpoint toLowerCase (s : string) : string :=
  match s with
  | EmptyString => EmptyString
  | String c r => String (lowerCodeUnit c) (toLowerCase r)
  end.

(** The class [\s] (and the characters removed by [trim]) below 256:
    TAB, LF, VT, FF, CR, SPACE and NBSP. *)
Definition isSpace (c : ascii) : bool :=
  let n := N_of_ascii c in
  ((9 <=? n) && (n <=? 13) || (n =? 32) || (n =? 160))%N.

(** The class [\d]. *)
Definition isDigit (c : ascii) : bool :=
  let n := N_of_ascii c in ((48 <=? n) && (n <=? 57))%N.

(** [a || b] on strings: the empty string is falsy. *)
Definition or_else (a b : string) : string :=
  match a with EmptyString => b | _ => a end.

(** [o || d] where [o] may be [undefined]. *)
Definition or_default (o : option string) (d : string) : string :=
  match o with Some s => or_else s d | None => d end.

(** A property typed [T | null | undefined]. *)
Inductive nullable (A : Type) : Type :=
| Undefined : nullable A
| Null : nullable A
| Value : A → nullable A.
Global Arguments Undefined {A}.
Global Arguments Null {A}.
Global Arguments Value {A} _.

End JS.

(** ** Record model *)

Definition STAGES : list string :=
  [ "Sourced";
    "Interview: First Round";
    "Interview: Second Round";
    "Interview: Final round";
    "Hired";
    "Rejected" ].

Module FileRef.
Record t := mk { name : string; url : string }.
End FileRef.

Module Candidate.
Record t := mk {
  id : string;
  name : string;
  email : option string;
  phone : option string;
  tags : list string;
  score : option Z;
  resume : JS.nullable FileRef.t;
  notes : option string;
  stage : string;
  appliedAt : string
}.

(** [{ ...c, stage: k }] *)
Definition with_stage (k : string) (c : t) : t :=
  mk (id c) (name c) (email c) (phone c) (tags c) (score c) (resume c)
     (notes c) k (appliedAt c).

(** [Partial<Candidate>]: [None] is a property that is not there; for an
    optional property [Some None] is the property set to [undefined]. *)
Record partial := mkPartial {
  p_id : option string;
  p_name : option string;
  p_email : option (option string);
  p_phone : option (option string);
  p_tags : option (list string);
  p_score : option (option Z);
  p_resume : option (JS.nullable FileRef.t);
  p_notes : option (option string);
  p_stage : option string;
  p_appliedAt : option string
}.

(** [{ ...c, ...patch }]: every own property of the patch wins. *)
Definition assign (c : t) (patch : partial) : t :=
  mk (default (id c) (p_id patch))
     (default (name c) (p_name patch))
     (default (email c) (p_email patch))
     (default (phone c) (p_phone patch))
     (default (tags c) (p_tags patch))
     (default (score c) (p_score patch))
     (default (resume c) (p_resume patch))
     (default (notes c) (p_notes patch))
     (default (stage c) (p_stage patch))
     (default (appliedAt c) (p_appliedAt patch)).
End Candidate.

Module Job.
Record t := mk {
  id : string;
  title : string;
  department : option string;
  location : option string;
  createdAt : string;
  jd : JS.nullable FileRef.t;
  candidates : list Candidate.t
}.

Definition with_candidates (cs : list Candidate.t) (j : t) : t :=
  mk (id j) (title j) (department j) (location j) (createdAt j) (jd j) cs.

Record partial := mkPartial {
  p_id : option string;
  p_title : option string;
  p_department : option (option string);
  p_location : option (option string);
  p_createdAt : option string;
  p_jd : option (JS.nullable FileRef.t);
  p_candidates : option (list Candidate.t)
}.

Definition assign (j : t) (patch : partial) : t :=
  mk (default (id j) (p_id patch))
     (default (title j) (p_title patch))
     (default (department j) (p_department patch))
     (default (location j) (p_location patch))
     (default (createdAt j) (p_createdAt patch))
     (default (jd j) (p_jd patch))
     (default (candidates j) (p_candidates patch)).
End Job.

Record ATSState := mkState {
  jobs : list Job.t;
  selectedJobId : JS.nullable string
}.

Inductive PersistMode := local | supabase.

(** ** Stage utilities *)

(** [(STAGES as readonly string[]).includes(s)] *)
Definition isStage (s : string) : bool :=
  existsb (String.eqb s) STAGES.

Definition normalizeStage (s : string) : string :=
  let v := JS.toLowerCase s in
  if (v =? "applied")%string || (v =? "interview stage 1")%string
  then "Interview: First Round"
  else if (v =? "screening")%string || (v =? "interview stage 2")%string
  then "Interview: Second Round"
  else if (v =? "offer")%string || (v =? "interview")%string
  then "Interview: Final round"
  else if isStage s then s
  else "Sourced".

(** The lower-cased names that [normalizeStage] sends to an interview
    round before it looks at [STAGES]. *)
Definition legacyAlias (v : string) : bool :=
  (v =? "applied")%string || (v =? "interview stage 1")%string
  || (v =? "screening")%string || (v =? "interview stage 2")%string
  || (v =? "offer")%string || (v =? "interview")%string.

(** ** Grouping by stage *)

(** The object literal [byStage] starts from: the six keys, each with an
    empty array. *)
Definition emptyBuckets : gmap string (list Candidate.t) :=
  <["Sourced" := []]>
  (<["Interview: First Round" := []]>
  (<["Interview: Second Round" := []]>
  (<["Interview: Final round" := []]>
  (<["Hired" := []]>
  (<["Rejected" := []]> ∅))))).

(** One turn of the loop:
    [res[normalizeStage(c.stage)].push({ ...c, stage: normalizeStage(c.stage) })].
    [res[k]] of a key that is not there is [undefined], and [push] on it
    throws: that is the [None]. *)
Definition pushCard (res : gmap string (list Candidate.t)) (c : Candidate.t)
  : option (gmap string (list Candidate.t)) :=
  let k := normalizeStage (Candidate.stage c) in
  bucket ← res !! k;
  Some (<[k := bucket ++ [Candidate.with_stage k c]]> res).

Fixpoint byStage_from (res : gmap string (list Candidate.t))
    (filtered : list Candidate.t) : option (gmap string (list Candidate.t)) :=
  match filtered with
  | [] => Some res
  | c :: rest => res' ← pushCard res c; byStage_from res' rest
  end.

Definition byStage (filtered : list Candidate.t)
  : option (gmap string (list Candidate.t)) :=
  byStage_from emptyBuckets filtered.

(** [STAGES.map((s) => byStage[s].length)] *)
Definition stageCounts (res : gmap string (list Candidate.t)) : list nat :=
  (λ s, length (default [] (res !! s))) <$> STAGES.

(** *** The same loop with object identity

    [filtered] holds references to the candidate objects of the state
    ([slice] and [filter] copy the array, not its elements), and the loop
    pushes fresh objects.  Here the objects live in a store, [filtered] is
    a list of addresses, and a bucket is a list of addresses. *)

Module Store.

(** [h[l]] read, normalized, and the copy [{ ...c, stage }] written at a
    fresh address, which is pushed on the bucket. *)
Definition pushCard (h : gmap positive Candidate.t)
    (res : gmap string (list positive)) (l : positive)
  : option (gmap positive Candidate.t * gmap string (list positive)) :=
  c ← h !! l;
  let k := normalizeStage (Candidate.stage c) in
  bucket ← res !! k;
  let l' := fresh (dom h) in
  Some (<[l' := Candidate.with_stage k c]> h, <[k := bucket ++ [l']]> res).

Fixpoint byStage_from (h : gmap positive Candidate.t)
    (res : gmap string (list positive)) (filtered : list positive)
  : option (gmap positive Candidate.t * gmap string (list positive)) :=
  match filtered with
  | [] => Some (h, res)
  | l :: rest => '(h', res') ← pushCard h res l; byStage_from h' res' rest
  end.

Definition emptyBuckets : gmap string (list positive) :=
  <["Sourced" := []]>
  (<["Interview: First Round" := []]>
  (<["Interview: Second Round" := []]>
  (<["Interview: Final round" := []]>
  (<["Hired" := []]>
  (<["Rejected" := []]> ∅))))).

Definition byStage (h : gmap positive Candidate.t) (filtered : list positive)
  : option (gmap positive Candidate.t * gmap string (list positive)) :=
  byStage_from h emptyBuckets filtered.

(** The objects a list of addresses stands for. *)
Definition deref (h : gmap positive Candidate.t) (ls : list positive)
  : option (list Candidate.t) :=
  mapM (λ l, h !! l) ls.

End Store.

(** ** Tag filter *)

(** The tag step of [filtered]:
    [if (filters.tags && filters.tags.length) { need = ...; list = list.filter(...) }] *)
Definition tagFilter (filterTags : list string) (cands : list Candidate.t)
  : list Candidate.t :=
  match filterTags with
  | [] => cands
  | _ =>
    let need := JS.toLowerCase <$> filterTags in
    List.filter
      (λ c, let have := JS.toLowerCase <$> Candidate.tags c in
            forallb (λ t, existsb (String.eqb t) have) need)
      cands
  end.

(** The reading of the sentence: the candidate's tags, lower-cased, are a
    superset of the requested tags, lower-cased. *)
Definition tagsSuperset (filterTags : list string) (c : Candidate.t) : Prop :=
  ∀ t, t ∈ filterTags →
    ∃ t', t' ∈ Candidate.tags c ∧ JS.toLowerCase t' = JS.toLowerCase t.

(** What a disjunctive filter would keep: some requested tag is there. *)
Definition tagsMeet (filterTags : list string) (c : Candidate.t) : Prop :=
  ∃ t t', t ∈ filterTags ∧ t' ∈ Candidate.tags c
          ∧ JS.toLowerCase t' = JS.toLowerCase t.

(** ** The application state and its notices *)

Record App := mkApp {
  state : ATSState;
  persistMode : PersistMode;
  sb : bool;               (* the Supabase client exists *)
  notices : list string    (* every [show], oldest first *)
}.

Definition show (m : string) (app : App) : App :=
  mkApp (state app) (persistMode app) (sb app) (notices app ++ [m]).

Definition setState (f : ATSState → ATSState) (app : App) : App :=
  mkApp (f (state app)) (persistMode app) (sb app) (notices app).

(** [persistMode === 'supabase' && sb] *)
Definition remote (app : App) : bool :=
  match persistMode app with supabase => sb app | local => false end.

(** [{ data, error }] of a Supabase call. *)
Inductive SbResult (A : Type) : Type :=
| SbOk : A → SbResult A
| SbError : string → SbResult A.
Arguments SbOk {A} _.
Arguments SbError {A} _.

(** An [async] helper either returns or rejects. *)
Inductive Outcome : Type :=
| Returned : App → Outcome
| Threw : string → App → Outcome.

Definition appOf (o : Outcome) : App :=
  match o with Returned a => a | Threw _ a => a end.

(** [state.jobs.find((j) => j.id === state.selectedJobId) || state.jobs[0] || null] *)
Definition job (s : ATSState) : option Job.t :=
  match
    List.find (λ j, match selectedJobId s with
                    | JS.Value i => String.eqb (Job.id j) i
                    | _ => false
                    end) (jobs s)
  with
  | Some j => Some j
  | None => head (jobs s)
  end.

(** [jobs[0]?.id || null] *)
Definition firstJobId (js : list Job.t) : JS.nullable string :=
  match js with
  | [] => JS.Null
  | j :: _ => match Job.id j with
              | EmptyString => JS.Null
              | i => JS.Value i
              end
  end.

(** ** Supabase rows and storage *)

Module JobRow.
Record t := mk {
  id : string;
  title : string;
  department : option string;
  location : option string;
  created_at : string;
  jd_name : option string;
  jd_url : option string
}.
End JobRow.

Module CandRow.
Record t := mk {
  id : string;
  name : string;
  email : option string;
  phone : option string;
  tags : option (list string);
  score : option Z;
  notes : option string;
  stage : string;
  applied_at : string;
  resume_name : option string;
  resume_url : option string
}.
End CandRow.

(** A file handed to a helper: its name and what the storage bucket will
    answer to its upload (the public URL, or an error). *)
Module File.
Record t := mk { name : string; stored : SbResult string }.
End File.

(** [uploadToStorage]: [SbError] is the [throw error]. *)
Definition uploadToStorage (file : File.t) : SbResult FileRef.t :=
  match File.stored file with
  | SbOk url => SbOk (FileRef.mk (File.name file) url)
  | SbError e => SbError e
  end.

(** [url ? { name: nm || d, url } : null] *)
Definition fileRefOfRow (nm url : option string) (d : string)
  : JS.nullable FileRef.t :=
  match url with
  | Some (String a u) =>
      JS.Value (FileRef.mk (JS.or_default nm d) (String a u))
  | _ => JS.Null
  end.

Definition jobOfRow (row : JobRow.t) : Job.t :=
  Job.mk (JobRow.id row) (JobRow.title row) (JobRow.department row)
         (JobRow.location row)
         (JobRow.created_at row)
         (fileRefOfRow (JobRow.jd_name row) (JobRow.jd_url row) "JD") [].

Definition candOfRow (row : CandRow.t) : Candidate.t :=
  Candidate.mk (CandRow.id row) (CandRow.name row) (CandRow.email row)
               (CandRow.phone row)
               (default [] (CandRow.tags row)) (CandRow.score row)
               (fileRefOfRow (CandRow.resume_name row)
                             (CandRow.resume_url row) "resume")
               (CandRow.notes row) (CandRow.stage row) (CandRow.applied_at row).

(** ** CRUD helpers (dual-mode)

    Each helper takes, next to its own arguments, what the outside world
    answers while it runs: the row or error of its Supabase call, and for
    the local branch the fresh [uid()] and the clock. *)

(** The optional attachment of the remote branch of a create helper:
    [if (file) ref = await uploadToStorage(sb, kind, file)]. *)
Definition uploadOptional (file : option File.t)
  : SbResult (option FileRef.t) :=
  match file with
  | None => SbOk None
  | Some f => match uploadToStorage f with
              | SbOk r => SbOk (Some r)
              | SbError e => SbError e
              end
  end.

Definition createJob (data : Job.partial) (jdFile : option File.t)
    (inserted : SbResult JobRow.t) (uid now : string) (app : App) : Outcome :=
  if remote app then
    match uploadOptional jdFile with
    | SbError e => Threw e app
    | SbOk _ =>
      match inserted with
      | SbError m => Returned (show ("Create job failed: " +:+ m) app)
      | SbOk row =>
          Returned (show "Job created"
            (setState (λ s, mkState (jobOfRow row :: jobs s)
                                    (JS.Value (JobRow.id row))) app))
      end
    end
  else
    let newJob :=
      Job.mk uid (JS.or_default (Job.p_title data) "Untitled Role")
             (Some (JS.or_default (mjoin (Job.p_department data)) EmptyString))
             (Some (JS.or_default (mjoin (Job.p_location data)) EmptyString))
             now JS.Null [] in
    Returned (show "Job created"
      (setState (λ s, mkState (newJob :: jobs s) (JS.Value uid)) app)).

Definition updateJob (id : string) (patch : Job.partial)
    (updated : SbResult unit) (app : App) : App :=
  let apply :=
    show "Job updated"
      (setState (λ s,
         mkState ((λ j, if String.eqb (Job.id j) id
                        then Job.assign j patch else j) <$> jobs s)
                 (selectedJobId s)) app) in
  if remote app then
    match updated with
    | SbError m => show ("Update failed: " +:+ m) app
    | SbOk _ => apply
    end
  else apply.

Definition deleteJob (id : string) (deleted : SbResult unit) (app : App)
  : App :=
  let apply :=
    show "Job deleted"
      (setState (λ s,
         let jobs' :=
           List.filter (λ j, negb (String.eqb (Job.id j) id)) (jobs s) in
         mkState jobs' (firstJobId jobs')) app) in
  if remote app then
    match deleted with
    | SbError m => show ("Delete failed: " +:+ m) app
    | SbOk _ => apply
    end
  else apply.

(** [jobs.map((j) => j.id === jobId ? { ...j, candidates: f(j.candidates) } : j)] *)
Definition inJob (jobId : string) (f : list Candidate.t → list Candidate.t)
    (s : ATSState) : ATSState :=
  mkState ((λ j, if String.eqb (Job.id j) jobId
                 then Job.with_candidates (f (Job.candidates j)) j
                 else j) <$> jobs s)
          (selectedJobId s).

Definition createCandidate (jobId : string) (data : Candidate.partial)
    (resumeFile : option File.t) (inserted : SbResult CandRow.t)
    (uid now : string) (app : App) : Outcome :=
  if remote app then
    match uploadOptional resumeFile with
    | SbError e => Threw e app
    | SbOk _ =>
      match inserted with
      | SbError m => Returned (show ("Add candidate failed: " +:+ m) app)
      | SbOk row =>
          Returned (show "Candidate added"
            (setState (inJob jobId (λ cs, cs ++ [candOfRow row])) app))
      end
    end
  else
    let cand :=
      Candidate.mk uid
        (JS.or_default (Candidate.p_name data) "New Candidate")
        (Some (JS.or_default (mjoin (Candidate.p_email data)) EmptyString))
        (Some (JS.or_default (mjoin (Candidate.p_phone data)) EmptyString))
        (default [] (Candidate.p_tags data))
        (mjoin (Candidate.p_score data))
        JS.Null
        (Some (JS.or_default (mjoin (Candidate.p_notes data)) EmptyString))
        (JS.or_default (Candidate.p_stage data) "Sourced")
        (JS.or_default (Candidate.p_appliedAt data) now) in
    Returned (show "Candidate added"
      (setState (inJob jobId (λ cs, cs ++ [cand])) app)).

Definition updateCandidate (jobId candId : string)
    (patch : Candidate.partial) (updated : SbResult unit) (app : App) : App :=
  let apply :=
    setState (inJob jobId (λ cs,
      (λ c, if String.eqb (Candidate.id c) candId
            then Candidate.assign c patch else c) <$> cs)) app in
  if remote app then
    match updated with
    | SbError m => show ("Update candidate failed: " +:+ m) app
    | SbOk _ => apply
    end
  else apply.

Definition deleteCandidate (jobId candId : string) (deleted : SbResult unit)
    (app : App) : App :=
  let apply :=
    show "Candidate deleted"
      (setState (inJob jobId
         (List.filter (λ c, negb (String.eqb (Candidate.id c) candId)))) app) in
  if remote app then
    match deleted with
    | SbError m => show ("Delete candidate failed: " +:+ m) app
    | SbOk _ => apply
    end
  else apply.

(** ** Drag and drop *)

(** [{ stage: target }] *)
Definition stagePatch (target : string) : Candidate.partial :=
  Candidate.mkPartial None None None None None None None None
                      (Some target) None.

(** The ids of the dragged card and of what it was dropped on; [None]
    where dnd-kit gives no [active] or no [over]. *)
Record DragEndEvent := mkDrag { active : option string; over : option string }.

(** The target stage of a drop: the column, or the stage of the card
    dropped on when that stage is one of [STAGES]. *)
Definition targetStage (j : Job.t) (overId : string) : option string :=
  if isStage overId then Some overId
  else
    match List.find (λ x, String.eqb (Candidate.id x) overId)
                    (Job.candidates j) with
    | Some overCand =>
        if isStage (Candidate.stage overCand)
        then Some (Candidate.stage overCand) else None
    | None => None
    end.

(** [onDragEnd] does not await [updateCandidate]: in remote mode the helper
    is suspended at its Supabase call when [show] runs, and the answer
    [updated] is handled afterwards; in local mode the helper has run to
    its end before [show]. *)
Definition onDragEnd (e : DragEndEvent) (updated : SbResult unit) (app : App)
  : App :=
  match active e, over e, job (state app) with
  | Some candId, Some overId, Some j =>
    match targetStage j overId with
    | None => app
    | Some target =>
      match List.find (λ x, String.eqb (Candidate.id x) candId)
                      (Job.candidates j) with
      | None => app
      | Some c =>
        if negb (String.eqb (Candidate.stage c) target) && isStage target
        then
          let patch := stagePatch target in
          let moved := "Moved to " +:+ target in
          if remote app
          then updateCandidate (Job.id j) candId patch updated (show moved app)
          else show moved (updateCandidate (Job.id j) candId patch updated app)
        else app
      end
    end
  | _, _, _ => app
  end.

(** ** Bulk resume upload: the name guessed from a file name *)

Module Name.

(** The class [[._-]]. *)
Definition isSeparator (c : ascii) : bool :=
  (Ascii.eqb c "." || Ascii.eqb c "_" || Ascii.eqb c "-")%char.

Definition isDot (c : ascii) : bool := Ascii.eqb c ".".

Fixpoint hasDot (s : string) : bool :=
  match s with
  | EmptyString => false
  | String c r => isDot c || hasDot r
  end.

Definition isEmpty (s : string) : bool :=
  match s with EmptyString => true | _ => false end.

(** [s.replace(/\.[^.]+$/, '')]: the first place where the pattern matches
    is the last dot of [s], provided a character follows it; the match
    runs to the end of [s] and is removed. *)
Fixpoint stripExtension (s : string) : string :=
  match s with
  | EmptyString => EmptyString
  | String c r =>
      if isDot c && negb (isEmpty r) && negb (hasDot r)
      then EmptyString
      else String c (stripExtension r)
  end.

(** [s.replace(/C+/g, rep)] for a character class [C]: every maximal run
    of characters of the class becomes [rep].  [inRun] says that the
    character before [s] was of the class. *)
Fixpoint replaceRuns_from (cls : ascii → bool) (rep : string)
    (inRun : bool) (s : string) : string :=
  match s with
  | EmptyString => EmptyString
  | String c r =>
      if cls c
      then if inRun then replaceRuns_from cls rep true r
           else rep +:+ replaceRuns_from cls rep true r
      else String c (replaceRuns_from cls rep false r)
  end.

Definition replaceRuns (cls : ascii → bool) (rep : string) (s : string)
  : string :=
  replaceRuns_from cls rep false s.

Fixpoint trimStart (s : string) : string :=
  match s with
  | EmptyString => EmptyString
  | String c r => if JS.isSpace c then trimStart r else s
  end.

Fixpoint trimEnd (s : string) : string :=
  match s with
  | EmptyString => EmptyString
  | String c r =>
      let r' := trimEnd r in
      if JS.isSpace c && isEmpty r' then EmptyString else String c r'
  end.

Definition trim (s : string) : string := trimEnd (trimStart s).

(** [f.name.replace(/\.[^.]+$/, '').replace(/[._-]+/g, ' ').replace(/\s+/g, ' ').trim()] *)
Definition base (fileName : string) : string :=
  trim (replaceRuns JS.isSpace " "
         (replaceRuns isSeparator " " (stripExtension fileName))).

(** [base.replace(/\d+/g, '').trim() || base || 'New Candidate'] *)
Definition guessName (fileName : string) : string :=
  JS.or_else
    (JS.or_else (trim (replaceRuns JS.isDigit EmptyString (base fileName)))
                (base fileName))
    "New Candidate".

Fixpoint allChars (p : ascii → bool) (s : string) : bool :=
  match s with
  | EmptyString => true
  | String c r => p c && allChars p r
  end.

(** An ASCII letter. *)
Definition isLetter (c : ascii) : bool :=
  let n := N_of_ascii c in
  ((65 <=? n) && (n <=? 90) || (97 <=? n) && (n <=? 122))%N.

End Name.

(** ** JSON

    [JSON.stringify(v, null, 2)] and [JSON.parse] of the runtime, for the
    documents of this embedding: code units below 256 and whole numbers
    up to [Number.MAX_SAFE_INTEGER].  The parser has three answers: the
    value, [Invalid] where the text is not JSON ([JSON.parse] throws a
    [SyntaxError]), and [Unsupported] where the text leaves the fragment
    (a fraction or exponent, a number beyond the safe range, [-0], an
    escape [\uXXXX] at or above 256), about which nothing is said. *)

Module JSON.

#[local] Unset Elimination Schemes.
Inductive value : Type :=
| Null : value
| Bool : bool → value
| Num : Z → value
| Str : string → value
| Arr : list value → value
| Obj : list (string * value) → value.
#[local] Set Elimination Schemes.

Inductive result (A : Type) : Type :=
| Parsed : A → result A
| Invalid : result A
| Unsupported : result A.
Global Arguments Parsed {A} _.
Global Arguments Invalid {A}.
Global Arguments Unsupported {A}.

Definition MAX_SAFE_INTEGER : Z := 9007199254740991.

Definition dquote : ascii := Eval cbv in ascii_of_N 34.
Definition bslash : ascii := Eval cbv in ascii_of_N 92.
Definition LF : ascii := Eval cbv in ascii_of_N 10.
Definition CR : ascii := Eval cbv in ascii_of_N 13.
Definition TAB : ascii := Eval cbv in ascii_of_N 9.
Definition BS : ascii := Eval cbv in ascii_of_N 8.
Definition FF : ascii := Eval cbv in ascii_of_N 12.

Definition lit (s : string) : list ascii := list_ascii_of_string s.

(** *** Printing *)

Definition hexDigit (n : N) : ascii :=
  if (n <? 10)%N then ascii_of_N (48 + n) else ascii_of_N (87 + n).

(** One code unit inside [QuoteJSONString]. *)
Definition escapeChar (c : ascii) : list ascii :=
  let n := N_of_ascii c in
  if (n =? 8)%N then [bslash; "b"%char]
  else if (n =? 9)%N then [bslash; "t"%char]
  else if (n =? 10)%N then [bslash; "n"%char]
  else if (n =? 12)%N then [bslash; "f"%char]
  else if (n =? 13)%N then [bslash; "r"%char]
  else if (n =? 34)%N then [bslash; dquote]
  else if (n =? 92)%N then [bslash; bslash]
  else if (n <? 32)%N
  then [bslash; "u"%char; "0"%char; "0"%char;
        hexDigit (n / 16); hexDigit (n mod 16)]
  else [c].

Fixpoint escape (s : string) : list ascii :=
  match s with
  | EmptyString => []
  | String c r => escapeChar c ++ escape r
  end.

Definition quote (s : string) : list ascii :=
  dquote :: escape s ++ [dquote].

(** [Number::toString] of a whole number. *)
Definition digits (n : N) : list ascii :=
  list_ascii_of_string (NilEmpty.string_of_uint (N.to_uint n)).

Definition printNum (z : Z) : list ascii :=
  if (z <? 0)%Z then "-"%char :: digits (Z.abs_N z) else digits (Z.abs_N z).

(** A line feed and the indentation of [level] steps of two spaces. *)
Definition newline (level : nat) : list ascii :=
  LF :: repeat " "%char (2 * level).

Fixpoint print (level : nat) (v : value) {struct v} : list ascii :=
  match v with
  | Null => lit "null"
  | Bool true => lit "true"
  | Bool false => lit "false"
  | Num z => printNum z
  | Str s => quote s
  | Arr [] => lit "[]"
  | Arr (x :: xs) =>
      "["%char :: newline (S level) ++ print (S level) x ++
      (fix elements (l : list value) : list ascii :=
         match l with
         | [] => newline level ++ ["]"%char]
         | y :: ys =>
             ","%char :: newline (S level) ++ print (S level) y ++ elements ys
         end) xs
  | Obj [] => lit "{}"
  | Obj ((k, x) :: ms) =>
      "{"%char :: newline (S level) ++
      quote k ++ lit ": " ++ print (S level) x ++
      (fix members (l : list (string * value)) : list ascii :=
         match l with
         | [] => newline level ++ ["}"%char]
         | (k', y) :: ys =>
             ","%char :: newline (S level) ++
             quote k' ++ lit ": " ++ print (S level) y ++ members ys
         end) ms
  end.

Definition stringify (v : value) : string :=
  string_of_list_ascii (print 0 v).

(** *** Parsing *)

(** JSON white space: space, tab, line feed, carriage return. *)
Definition isWs (c : ascii) : bool :=
  let n := N_of_ascii c in
  ((n =? 32) || (n =? 9) || (n =? 10) || (n =? 13))%N.

Fixpoint skipWs (s : list ascii) : list ascii :=
  match s with
  | c :: r => if isWs c then skipWs r else s
  | [] => []
  end.

Definition hexValue (c : ascii) : option N :=
  let n := N_of_ascii c in
  if ((48 <=? n) && (n <=? 57))%N then Some (n - 48)%N
  else if ((97 <=? n) && (n <=? 102))%N then Some (n - 87)%N
  else if ((65 <=? n) && (n <=? 70))%N then Some (n - 55)%N
  else None.

(** The character after a backslash, [u] apart. *)
Definition unescape (e : ascii) : option ascii :=
  let n := N_of_ascii e in
  if (n =? 34)%N then Some dquote
  else if (n =? 92)%N then Some bslash
  else if (n =? 47)%N then Some "/"%char
  else if (n =? 98)%N then Some BS
  else if (n =? 102)%N then Some FF
  else if (n =? 110)%N then Some LF
  else if (n =? 114)%N then Some CR
  else if (n =? 116)%N then Some TAB
  else None.

Definition consChar (c : ascii) (r : result (string * list ascii))
  : result (string * list ascii) :=
  match r with
  | Parsed (s, rest) => Parsed (String c s, rest)
  | Invalid => Invalid
  | Unsupported => Unsupported
  end.

(** The characters of a string, after its opening quote. *)
Fixpoint parseChars (s : list ascii) : result (string * list ascii) :=
  match s with
  | [] => Invalid
  | c :: r =>
    if (N_of_ascii c =? 34)%N then Parsed (EmptyString, r)
    else if (N_of_ascii c =? 92)%N then
      match r with
      | [] => Invalid
      | e :: r1 =>
        if (N_of_ascii e =? 117)%N then
          match r1 with
          | h1 :: h2 :: h3 :: h4 :: r2 =>
            match hexValue h1, hexValue h2, hexValue h3, hexValue h4 with
            | Some a, Some b, Some c', Some d =>
              if ((a =? 0) && (b =? 0))%N
              then consChar (ascii_of_N (16 * c' + d)) (parseChars r2)
              else Unsupported
            | _, _, _, _ => Invalid
            end
          | _ => Invalid
          end
        else
          match unescape e with
          | Some ch => consChar ch (parseChars r1)
          | None => Invalid
          end
      end
    else if (N_of_ascii c <? 32)%N then Invalid
    else consChar c (parseChars r)
  end.

(** The longest prefix of digits, and what follows. *)
Fixpoint spanDigits (s : list ascii) : list ascii * list ascii :=
  match s with
  | c :: r =>
    if JS.isDigit c
    then let '(ds, rest) := spanDigits r in (c :: ds, rest)
    else ([], s)
  | [] => ([], [])
  end.

(** The start of a fraction or of an exponent. *)
Definition startsFraction (s : list ascii) : bool :=
  match s with
  | c :: _ => (Ascii.eqb c "." || Ascii.eqb c "e" || Ascii.eqb c "E")%char
  | [] => false
  end.

Definition parseNat (s : list ascii) : result (N * list ascii) :=
  let '(ds, rest) := spanDigits s in
  match ds with
  | [] => Invalid
  | d :: more =>
    if Ascii.eqb d "0" && negb (match more with [] => true | _ => false end)
    then Invalid
    else if startsFraction rest then Unsupported
    else
      match NilEmpty.uint_of_string (string_of_list_ascii ds) with
      | Some u =>
        let n := N.of_uint u in
        if (Z.of_N n <=? MAX_SAFE_INTEGER)%Z then Parsed (n, rest)
        else Unsupported
      | None => Invalid
      end
  end.

Definition parseNum (s : list ascii) : result (value * list ascii) :=
  match s with
  | c :: r =>
    if Ascii.eqb c "-" then
      match parseNat r with
      | Parsed (n, rest) =>
          if (n =? 0)%N then Unsupported
          else Parsed (Num (- Z.of_N n), rest)
      | Invalid => Invalid
      | Unsupported => Unsupported
      end
    else
      match parseNat s with
      | Parsed (n, rest) => Parsed (Num (Z.of_N n), rest)
      | Invalid => Invalid
      | Unsupported => Unsupported
      end
  | [] => Invalid
  end.

(** [stripPrefix p s]: [s] without its prefix [p]. *)
Fixpoint stripPrefix (p s : list ascii) : option (list ascii) :=
  match p, s with
  | [], _ => Some s
  | a :: p', b :: s' => if Ascii.eqb a b then stripPrefix p' s' else None
  | _ :: _, [] => None
  end.

Definition keyword (w : string) (v : value) (s : list ascii)
  : result (value * list ascii) :=
  match stripPrefix (lit w) s with
  | Some rest => Parsed (v, rest)
  | None => Invalid
  end.

(** Recursive descent; [fuel] bounds the nesting and the number of
    elements, and is never what stops a parse started with the length of
    the text (a parse that runs out answers [Unsupported]). *)
Fixpoint parseValue (fuel : nat) (s : list ascii) {struct fuel}
  : result (value * list ascii) :=
  match fuel with
  | 0 => Unsupported
  | S fuel' =>
    match skipWs s with
    | [] => Invalid
    | c :: r =>
      if Ascii.eqb c "n" then keyword "null" Null (c :: r)
      else if Ascii.eqb c "t" then keyword "true" (Bool true) (c :: r)
      else if Ascii.eqb c "f" then keyword "false" (Bool false) (c :: r)
      else if (N_of_ascii c =? 34)%N then
        match parseChars r with
        | Parsed (str, rest) => Parsed (Str str, rest)
        | Invalid => Invalid
        | Unsupported => Unsupported
        end
      else if Ascii.eqb c "[" then
        match skipWs r with
        | c1 :: r1 =>
          if Ascii.eqb c1 "]" then Parsed (Arr [], r1)
          else
            match parseElements fuel' (c1 :: r1) with
            | Parsed (vs, rest) => Parsed (Arr vs, rest)
            | Invalid => Invalid
            | Unsupported => Unsupported
            end
        | [] => Invalid
        end
      else if Ascii.eqb c "{" then
        match skipWs r with
        | c1 :: r1 =>
          if Ascii.eqb c1 "}" then Parsed (Obj [], r1)
          else
            match parseMembers fuel' (c1 :: r1) with
            | Parsed (ms, rest) => Parsed (Obj ms, rest)
            | Invalid => Invalid
            | Unsupported => Unsupported
            end
        | [] => Invalid
        end
      else if Ascii.eqb c "-" || JS.isDigit c then parseNum (c :: r)
      else Invalid
    end
  end
with parseElements (fuel : nat) (s : list ascii) {struct fuel}
  : result (list value * list ascii) :=
  match fuel with
  | 0 => Unsupported
  | S fuel' =>
    match parseValue fuel' s with
    | Parsed (v, r) =>
      match skipWs r with
      | c :: r1 =>
        if Ascii.eqb c "," then
          match parseElements fuel' r1 with
          | Parsed (vs, rest) => Parsed (v :: vs, rest)
          | Invalid => Invalid
          | Unsupported => Unsupported
          end
        else if Ascii.eqb c "]" then Parsed ([v], r1)
        else Invalid
      | [] => Invalid
      end
    | Invalid => Invalid
    | Unsupported => Unsupported
    end
  end
with parseMembers (fuel : nat) (s : list ascii) {struct fuel}
  : result (list (string * value) * list ascii) :=
  match fuel with
  | 0 => Unsupported
  | S fuel' =>
    match skipWs s with
    | q :: r0 =>
      if (N_of_ascii q =? 34)%N then
        match parseChars r0 with
        | Parsed (k, r) =>
          match skipWs r with
          | colon :: r1 =>
            if Ascii.eqb colon ":" then
              match parseValue fuel' r1 with
              | Parsed (v, r2) =>
                match skipWs r2 with
                | c :: r3 =>
                  if Ascii.eqb c "," then
                    match parseMembers fuel' r3 with
                    | Parsed (ms, rest) => Parsed ((k, v) :: ms, rest)
                    | Invalid => Invalid
                    | Unsupported => Unsupported
                    end
                  else if Ascii.eqb c "}" then Parsed ([(k, v)], r3)
                  else Invalid
                | [] => Invalid
                end
              | Invalid => Invalid
              | Unsupported => Unsupported
              end
            else Invalid
          | [] => Invalid
          end
        | Invalid => Invalid
        | Unsupported => Unsupported
        end
      else Invalid
    | [] => Invalid
    end
  end.

(** [JSON.parse(text)]: one value, then only white space. *)
Definition parse (text : string) : result value :=
  let s := list_ascii_of_string text in
  match parseValue (S (length s)) s with
  | Parsed (v, rest) =>
      match skipWs rest with [] => Parsed v | _ => Invalid end
  | Invalid => Invalid
  | Unsupported => Unsupported
  end.

End JSON.

(** ** The state as a JSON value

    [JSON.stringify] walks the state object: a property whose value is
    [undefined] is left out, [null] is written as [null].  The other way,
    [JSON.parse] yields a plain object that the component uses as its
    [ATSState] without looking at it; [Codec.state] reads such an object
    at the declared types, and has no answer when the object is not of
    that shape (the component would hold a value that is not an
    [ATSState]). *)

Module Codec.

(** A property, left out when [undefined]. *)
Definition prop (k : string) (v : option JSON.value)
  : list (string * JSON.value) :=
  match v with Some x => [(k, x)] | None => [] end.

Definition ofNullable {A : Type} (enc : A → JSON.value) (x : JS.nullable A)
  : option JSON.value :=
  match x with
  | JS.Undefined => None
  | JS.Null => Some JSON.Null
  | JS.Value a => Some (enc a)
  end.

Definition ofFileRef (r : FileRef.t) : JSON.value :=
  JSON.Obj [("name", JSON.Str (FileRef.name r));
            ("url", JSON.Str (FileRef.url r))].

Definition ofCandidate (c : Candidate.t) : JSON.value :=
  JSON.Obj
    (prop "id" (Some (JSON.Str (Candidate.id c))) ++
     prop "name" (Some (JSON.Str (Candidate.name c))) ++
     prop "email" (JSON.Str <$> Candidate.email c) ++
     prop "phone" (JSON.Str <$> Candidate.phone c) ++
     prop "tags" (Some (JSON.Arr (JSON.Str <$> Candidate.tags c))) ++
     prop "score" (JSON.Num <$> Candidate.score c) ++
     prop "resume" (ofNullable ofFileRef (Candidate.resume c)) ++
     prop "notes" (JSON.Str <$> Candidate.notes c) ++
     prop "stage" (Some (JSON.Str (Candidate.stage c))) ++
     prop "appliedAt" (Some (JSON.Str (Candidate.appliedAt c)))).

Definition ofJob (j : Job.t) : JSON.value :=
  JSON.Obj
    (prop "id" (Some (JSON.Str (Job.id j))) ++
     prop "title" (Some (JSON.Str (Job.title j))) ++
     prop "department" (JSON.Str <$> Job.department j) ++
     prop "location" (JSON.Str <$> Job.location j) ++
     prop "createdAt" (Some (JSON.Str (Job.createdAt j))) ++
     prop "jd" (ofNullable ofFileRef (Job.jd j)) ++
     prop "candidates" (Some (JSON.Arr (ofCandidate <$> Job.candidates j)))).

Definition ofState (s : ATSState) : JSON.value :=
  JSON.Obj
    (prop "jobs" (Some (JSON.Arr (ofJob <$> jobs s))) ++
     prop "selectedJobId" (ofNullable JSON.Str (selectedJobId s))).

(** [o[k]]; of two members with one key the later one counts. *)
Fixpoint get (k : string) (ms : list (string * JSON.value))
  : option JSON.value :=
  match ms with
  | [] => None
  | (k', v) :: rest =>
      match get k rest with
      | Some v' => Some v'
      | None => if String.eqb k' k then Some v else None
      end
  end.

Definition members (v : JSON.value) : option (list (string * JSON.value)) :=
  match v with JSON.Obj ms => Some ms | _ => None end.

Definition str (v : JSON.value) : option string :=
  match v with JSON.Str s => Some s | _ => None end.

Definition num (v : JSON.value) : option Z :=
  match v with JSON.Num z => Some z | _ => None end.

Definition arr {A : Type} (dec : JSON.value → option A) (v : JSON.value)
  : option (list A) :=
  match v with JSON.Arr l => mapM dec l | _ => None end.

(** A required property [p: T]. *)
Definition required {A : Type} (dec : JSON.value → option A) (k : string)
    (ms : list (string * JSON.value)) : option A :=
  v ← get k ms; dec v.

(** An optional property [p?: T]. *)
Definition optional {A : Type} (dec : JSON.value → option A) (k : string)
    (ms : list (string * JSON.value)) : option (option A) :=
  match get k ms with
  | None => Some None
  | Some v => Some <$> dec v
  end.

(** A property [p?: T | null]. *)
Definition nullable {A : Type} (dec : JSON.value → option A) (k : string)
    (ms : list (string * JSON.value)) : option (JS.nullable A) :=
  match get k ms with
  | None => Some JS.Undefined
  | Some JSON.Null => Some JS.Null
  | Some v => JS.Value <$> dec v
  end.

Definition fileRef (v : JSON.value) : option FileRef.t :=
  ms ← members v;
  nm ← required str "name" ms;
  url ← required str "url" ms;
  Some (FileRef.mk nm url).

Definition candidate (v : JSON.value) : option Candidate.t :=
  ms ← members v;
  id ← required str "id" ms;
  name ← required str "name" ms;
  email ← optional str "email" ms;
  phone ← optional str "phone" ms;
  tags ← required (arr str) "tags" ms;
  score ← optional num "score" ms;
  resume ← nullable fileRef "resume" ms;
  notes ← optional str "notes" ms;
  stage ← required str "stage" ms;
  appliedAt ← required str "appliedAt" ms;
  Some (Candidate.mk id name email phone tags score resume notes stage
                     appliedAt).

Definition job (v : JSON.value) : option Job.t :=
  ms ← members v;
  id ← required str "id" ms;
  title ← required str "title" ms;
  department ← optional str "department" ms;
  location ← optional str "location" ms;
  createdAt ← required str "createdAt" ms;
  jd ← nullable fileRef "jd" ms;
  candidates ← required (arr candidate) "candidates" ms;
  Some (Job.mk id title department location createdAt jd candidates).

Definition state (v : JSON.value) : option ATSState :=
  ms ← members v;
  js ← required (arr job) "jobs" ms;
  sel ← nullable str "selectedJobId" ms;
  Some (mkState js sel).

End Codec.

(** ** Export / import JSON *)

(** The text of the blob that [downloadJSON] offers:
    [JSON.stringify(state, null, 2)]. *)
Definition downloadJSON (app : App) : string :=
  JSON.stringify (Codec.ofState (state app)).

(** [reader.onload] of [uploadJSON], given the text of the file.  [None]:
    the text is outside the JSON fragment of this development, or it
    parses to a value that is not an [ATSState]. *)
Definition uploadJSON (text : string) (app : App) : option App :=
  match JSON.parse text with
  | JSON.Parsed v =>
      next ← Codec.state v;
      Some (show "State imported" (setState (λ _, next) app))
  | JSON.Invalid => Some (show "Import failed: invalid JSON" app)
  | JSON.Unsupported => None
  end.

(** A state whose numbers are safe integers. *)
Definition safeNumber (z : Z) : Prop :=
  (- JSON.MAX_SAFE_INTEGER ≤ z ≤ JSON.MAX_SAFE_INTEGER)%Z.

Definition safeCandidate (c : Candidate.t) : Prop :=
  ∀ z, Candidate.score c = Some z → safeNumber z.

Definition safeState (s : ATSState) : Prop :=
  ∀ j c, j ∈ jobs s → c ∈ Job.candidates j → safeCandidate c.

(** ** Bulk resume upload *)

(** One file of the picker, with what the outside world answers while it
    is handled: the object URL of the local branch, the inserted row of
    the remote branch, and the [uid()] and clock of the local branch. *)
Record ResumeUpload := mkResume {
  ru_file : File.t;
  ru_objectUrl : string;
  ru_inserted : SbResult CandRow.t;
  ru_uid : string;
  ru_now : string
}.

(** The body of the loop, with its [try] / [catch]. *)
Definition resumeStep (jobId : string) (f : ResumeUpload) (app : App) : App :=
  let ref :=
    if remote app then uploadToStorage (ru_file f)
    else SbOk (FileRef.mk (File.name (ru_file f)) (ru_objectUrl f)) in
  match ref with
  | SbError e => show ("Upload failed: " +:+ e) app
  | SbOk r =>
    let data :=
      Candidate.mkPartial None
        (Some (Name.guessName (File.name (ru_file f))))
        None None None None (Some (JS.Value r)) None (Some "Sourced") None in
    match createCandidate jobId data None (ru_inserted f)
                          (ru_uid f) (ru_now f) app with
    | Returned a => a
    | Threw e a => show ("Upload failed: " +:+ e) a
    end
  end.

(** [`${n} resume${n > 1 ? 's' : ''} uploaded`] *)
Definition uploadedMessage (n : nat) : string :=
  NilEmpty.string_of_uint (Nat.to_uint n) +:+ " resume" +:+
  (if 1 <? n then "s" else EmptyString) +:+ " uploaded".

Definition onResumeFiles (files : option (list ResumeUpload)) (app : App)
  : App :=
  match files, job (state app) with
  | Some farr, Some j =>
      show (uploadedMessage (length farr))
           (foldl (λ a f, resumeStep (Job.id j) f a) app farr)
  | _, _ => app
  end.

(** ** Notions used to state the properties *)

(** The card that the board shows for a candidate:
    [{ ...c, stage: normalizeStage(c.stage) }]. *)
Definition normalized (c : Candidate.t) : Candidate.t :=
  Candidate.with_stage (normalizeStage (Candidate.stage c)) c.

(** The cards of the candidates of [cands] whose stage normalizes to [k],
    in the order of [cands]. *)
Definition bucketOf (k : string) (cands : list Candidate.t)
  : list Candidate.t :=
  normalized <$> filter (λ c, normalizeStage (Candidate.stage c) = k) cands.

(** ** Sample data

    The seed state of the component (one demo job with three candidates),
    with fixed ids and dates in place of [uid()] and of the clock, and two
    candidates with a stage outside [STAGES], as an imported or remote
    record may carry. *)

Module Sample.

Definition day : string := "2024-01-15T09:00:00.000Z".

Definition aarav : Candidate.t :=
  Candidate.mk "c-aarav" "Aarav Sharma" (Some "aarav@example.com") None
               ["React"; "TypeScript"] (Some 82%Z) JS.Null
               (Some "Good projects.") "Interview: Second Round" day.

Definition sara : Candidate.t :=
  Candidate.mk "c-sara" "Sara Khan" (Some "sara@example.com") None
               ["UI/UX"; "Next.js"] (Some 76%Z) JS.Null None
               "Interview: First Round" day.

Definition rohit : Candidate.t :=
  Candidate.mk "c-rohit" "Rohit Verma" (Some "rohit@example.com") None
               ["Tailwind"; "Vite"] (Some 68%Z) JS.Null None "Sourced" day.

(** A stage that is no stage and no alias. *)
Definition meera : Candidate.t :=
  Candidate.mk "c-meera" "Meera Nair" None None ["Go"] None JS.Null None
               "Phone screen" day.

(** A legacy alias: [normalizeStage] maps it to the first round. *)
Definition kabir : Candidate.t :=
  Candidate.mk "c-kabir" "Kabir Rao" None None ["React"] None JS.Null None
               "applied" day.

Definition frontend : Job.t :=
  Job.mk "j-frontend" "Frontend Engineer" (Some "Product")
         (Some "Bengaluru, IN") day JS.Null [aarav; sara; rohit].

Definition backend : Job.t :=
  Job.mk "j-backend" "Backend Engineer" (Some "Platform") None day JS.Null
         [meera; kabir].

Definition seed : ATSState := mkState [frontend] (JS.Value "j-frontend").

Definition two : ATSState := mkState [frontend; backend] (JS.Value "j-backend").

Definition localApp (s : ATSState) : App := mkApp s local false [].

Definition remoteApp (s : ATSState) : App := mkApp s supabase true [].

End Sample.

(** *** The frame of a candidate update *)

(** The fields of a job other than its candidates. *)
Definition sameJobFields (j j' : Job.t) : Prop :=
  Job.id j' = Job.id j
  ∧ Job.title j' = Job.title j
  ∧ Job.department j' = Job.department j
  ∧ Job.location j' = Job.location j
  ∧ Job.createdAt j' = Job.createdAt j
  ∧ Job.jd j' = Job.jd j.

(** [c'] differs from [c] at most in the properties that [patch] has,
    and there it has the value of the patch. *)
Definition patchedOnly (patch : Candidate.partial) (c c' : Candidate.t)
  : Prop :=
  Candidate.id c' = default (Candidate.id c) (Candidate.p_id patch)
  ∧ Candidate.name c' = default (Candidate.name c) (Candidate.p_name patch)
  ∧ Candidate.email c' = default (Candidate.email c) (Candidate.p_email patch)
  ∧ Candidate.phone c' = default (Candidate.phone c) (Candidate.p_phone patch)
  ∧ Candidate.tags c' = default (Candidate.tags c) (Candidate.p_tags patch)
  ∧ Candidate.score c' = default (Candidate.score c) (Candidate.p_score patch)
  ∧ Candidate.resume c'
    = default (Candidate.resume c) (Candidate.p_resume patch)
  ∧ Candidate.notes c' = default (Candidate.notes c) (Candidate.p_notes patch)
  ∧ Candidate.stage c' = default (Candidate.stage c) (Candidate.p_stage patch)
  ∧ Candidate.appliedAt c'
    = default (Candidate.appliedAt c) (Candidate.p_appliedAt patch).

(** Position by position: a job with another id is the same job; a job
    with the id [jobId] keeps its other fields and the length of its
    candidate list; in it a candidate with another id is the same
    candidate, and a candidate with the id [candId] is patched. *)
Definition candidateFrame (jobId candId : string)
    (patch : Candidate.partial) (s s' : ATSState) : Prop :=
  selectedJobId s' = selectedJobId s
  ∧ length (jobs s') = length (jobs s)
  ∧ ∀ i j, jobs s !! i = Some j →
      ∃ j', jobs s' !! i = Some j'
        ∧ sameJobFields j j'
        ∧ (Job.id j ≠ jobId → j' = j)
        ∧ length (Job.candidates j') = length (Job.candidates j)
        ∧ ∀ n c, Job.candidates j !! n = Some c →
            ∃ c', Job.candidates j' !! n = Some c'
              ∧ (Job.id j ≠ jobId ∨ Candidate.id c ≠ candId → c' = c)
              ∧ (Job.id j = jobId → Candidate.id c = candId →
                 patchedOnly patch c c').

(** No candidate with the id [candId] in a job with the id [jobId]. *)
Definition noMatch (jobId candId : string) (s : ATSState) : Prop :=
  ∀ j c, j ∈ jobs s → c ∈ Job.candidates j →
         ¬ (Job.id j = jobId ∧ Candidate.id c = candId).

(** *** An aborted operation *)

(** [app'] is [app] with one more notice, [msg], which is then the toast
    on screen; the state and the mode are those of [app]. *)
Definition abortedWith (msg : string) (app app' : App) : Prop :=
  state app' = state app
  ∧ persistMode app' = persistMode app
  ∧ sb app' = sb app
  ∧ notices app' = notices app ++ [msg]
  ∧ last (notices app') = Some msg.

(** The attachment, if any, was stored. *)
Definition uploaded (file : option File.t) : Prop :=
  ∃ r, uploadOptional file = SbOk r.

(** Every CRUD helper, answered with the error [m], stops with its
    failure notice. *)
Definition failureAborts (app : App) (m : string) : Prop :=
  (∀ data jdFile uid now, uploaded jdFile →
     ∃ app', createJob data jdFile (SbError m) uid now app = Returned app'
             ∧ abortedWith ("Create job failed: " +:+ m) app app')
  ∧ (∀ id patch,
       abortedWith ("Update failed: " +:+ m) app
                   (updateJob id patch (SbError m) app))
  ∧ (∀ id,
       abortedWith ("Delete failed: " +:+ m) app
                   (deleteJob id (SbError m) app))
  ∧ (∀ jobId data resumeFile uid now, uploaded resumeFile →
       ∃ app', createCandidate jobId data resumeFile (SbError m) uid now app
               = Returned app'
               ∧ abortedWith ("Add candidate failed: " +:+ m) app app')
  ∧ (∀ jobId candId patch,
       abortedWith ("Update candidate failed: " +:+ m) app
                   (updateCandidate jobId candId patch (SbError m) app))
  ∧ (∀ jobId candId,
       abortedWith ("Delete candidate failed: " +:+ m) app
                   (deleteCandidate jobId candId (SbError m) app)).

(** A CRUD helper that changed the state had an answer without error. *)
Definition changeIsConfirmed (app : App) : Prop :=
  (∀ id patch r, state (updateJob id patch r app) ≠ state app →
                 ∃ u, r = SbOk u)
  ∧ (∀ id r, state (deleteJob id r app) ≠ state app → ∃ u, r = SbOk u)
  ∧ (∀ jobId candId patch r,
       state (updateCandidate jobId candId patch r app) ≠ state app →
       ∃ u, r = SbOk u)
  ∧ (∀ jobId candId r,
       state (deleteCandidate jobId candId r app) ≠ state app →
       ∃ u, r = SbOk u)
  ∧ (∀ data f r uid now,
       state (appOf (createJob data f r uid now app)) ≠ state app →
       ∃ row, r = SbOk row)
  ∧ (∀ jobId data f r uid now,
       state (appOf (createCandidate jobId data f r uid now app)) ≠ state app →
       ∃ row, r = SbOk row).

(** *** The selected job *)

(** [selectedJobId] is the id of a job of the state. *)
Definition selects (s : ATSState) (i : string) : Prop :=
  selectedJobId s = JS.Value i ∧ i ∈ (Job.id <$> jobs s).

(** The job that the board shows: the selected one if there is one,
    otherwise the first job, and none without jobs. *)
Definition jobFallback (s : ATSState) : Prop :=
  (jobs s = [] → job s = None)
  ∧ (∀ j0 rest, jobs s = j0 :: rest → (∀ i, ¬ selects s i) →
       job s = Some j0)
  ∧ (∀ i, selects s i → ∃ j, job s = Some j ∧ j ∈ jobs s ∧ Job.id j = i).

(** The selection after a deletion: the id of the first remaining job,
    [null] without jobs. *)
Definition reselected (s' : ATSState) : Prop :=
  (jobs s' = [] → selectedJobId s' = JS.Null)
  ∧ (∀ j0 rest, jobs s' = j0 :: rest → Job.id j0 ≠ EmptyString →
       selectedJobId s' = JS.Value (Job.id j0)).

(** *** File names *)

Definition isSeparatorOrSpace (c : ascii) : bool :=
  Name.isSeparator c || JS.isSpace c.

Definition placeholder : string := "New Candidate".

(** *** JSON documents *)

(** The rest of a printed array after its first element, and of a
    printed object after its first member (the inner loops of
    [JSON.print]). *)
Definition printElements (level : nat) : list JSON.value → list ascii :=
  fix elements (l : list JSON.value) : list ascii :=
    match l with
    | [] => JSON.newline level ++ ["]"%char]
    | y :: ys =>
        ","%char :: JSON.newline (S level) ++ JSON.print (S level) y
        ++ elements ys
    end.

Definition printMembers (level : nat)
  : list (string * JSON.value) → list ascii :=
  fix members (l : list (string * JSON.value)) : list ascii :=
    match l with
    | [] => JSON.newline level ++ ["}"%char]
    | (k', y) :: ys =>
        ","%char :: JSON.newline (S level) ++
        JSON.quote k' ++ JSON.lit ": " ++ JSON.print (S level) y ++ members ys
    end.

(** Fuel that is enough to parse the print of a value. *)
Fixpoint size (v : JSON.value) : nat :=
  match v with
  | JSON.Arr l =>
      S ((fix sizes (l : list JSON.value) : nat :=
            match l with
            | [] => 0
            | x :: xs => S (size x + sizes xs)
            end) l)
  | JSON.Obj ms =>
      S ((fix sizes (l : list (string * JSON.value)) : nat :=
            match l with
            | [] => 0
            | (_, x) :: xs => S (size x + sizes xs)
            end) ms)
  | _ => 1
  end.

Definition sizes (l : list JSON.value) : nat :=
  (fix sizes (l : list JSON.value) : nat :=
     match l with
     | [] => 0
     | x :: xs => S (size x + sizes xs)
     end) l.

Definition memberSizes (l : list (string * JSON.value)) : nat :=
  (fix sizes (l : list (string * JSON.value)) : nat :=
     match l with
     | [] => 0
     | (_, x) :: xs => S (size x + sizes xs)
     end) l.

(** Every number of the value is a safe integer. *)
Fixpoint safeValue (v : JSON.value) : Prop :=
  match v with
  | JSON.Num z => safeNumber z
  | JSON.Arr l =>
      (fix all (l : list JSON.value) : Prop :=
         match l with
         | [] => True
         | x :: xs => safeValue x ∧ all xs
         end) l
  | JSON.Obj ms =>
      (fix all (l : list (string * JSON.value)) : Prop :=
         match l with
         | [] => True
         | (_, x) :: xs => safeValue x ∧ all xs
         end) ms
  | _ => True
  end.

(** What follows a printed value: nothing, a comma, or a line feed. *)
Definition delimited (rest : list ascii) : Prop :=
  match rest with
  | [] => True
  | c :: _ => c = ","%char ∨ c = JSON.LF
  end.

(** The characters of a decimal numeral. *)
Definition uintChars (d : uint) : list ascii :=
  list_ascii_of_string (NilEmpty.string_of_uint d).

(** The first character of a printed value: no white space and no
    closing bracket. *)
Definition opens (c : ascii) : Prop :=
  JSON.isWs c = false ∧ Ascii.eqb c "]" = false ∧ Ascii.eqb c "}" = false.

(** A value is read back from its print, at any indentation, before any
    delimited rest, with any fuel from its size on. *)
Definition readsBack (v : JSON.value) : Prop :=
  safeValue v →
  ∀ (level fuel : nat) (rest : list ascii),
    size v ≤ fuel → delimited rest →
    JSON.parseValue fuel (JSON.print level v ++ rest) = JSON.Parsed (v, rest).

(** The length of a print is fuel enough. *)
Definition fitsPrint (v : JSON.value) : Prop :=
  ∀ level, size v ≤ S (length (JSON.print level v)).

(** ** Further notions *)

(** Every stored stage of the state is one of the six [STAGES]. *)
Definition canonicalStages (s : ATSState) : Prop :=
  ∀ j c, j ∈ jobs s → c ∈ Job.candidates j →
         isStage (Candidate.stage c) = true.

(** The candidates of all the jobs, in order. *)
Definition allCandidates (s : ATSState) : list Candidate.t :=
  jobs s ≫= Job.candidates.

(** The helper gets as far as its [setState]: local mode, or an answer
    without error. *)
Definition applied {A : Type} (app : App) (answer : SbResult A) : Prop :=
  remote app = false ∨ ∃ u, answer = SbOk u.

(** What [deleteJob] leaves of the jobs: those with another id, in their
    order, with all their candidates. *)
Definition jobDeleted (id : string) (s s' : ATSState) : Prop :=
  (∀ j, j ∈ jobs s' ↔ j ∈ jobs s ∧ Job.id j ≠ id)
  ∧ jobs s' `sublist_of` jobs s
  ∧ allCandidates s' `sublist_of` allCandidates s
  ∧ (∀ c, c ∈ allCandidates s' ↔
          ∃ j, j ∈ jobs s ∧ Job.id j ≠ id ∧ c ∈ Job.candidates j).

(** The job that [createJob] puts in front: it has the given id, a title
    that is not empty in local mode, and no candidate. *)
Definition jobCreated (newJob : Job.t) (s s' : ATSState) : Prop :=
  jobs s' = newJob :: jobs s
  ∧ selectedJobId s' = JS.Value (Job.id newJob)
  ∧ job s' = Some newJob
  ∧ Job.candidates newJob = [].

(** The job that the local branch of [createJob] makes. *)
Definition localJob (data : Job.partial) (uid now : string) : Job.t :=
  Job.mk uid (JS.or_default (Job.p_title data) "Untitled Role")
         (Some (JS.or_default (mjoin (Job.p_department data)) EmptyString))
         (Some (JS.or_default (mjoin (Job.p_location data)) EmptyString))
         now JS.Null [].

(** Position by position, the jobs of [s'] are those of [s], where the
    candidates of the jobs with the id [jobId] went through [f]. *)
Definition candidatesMapped (jobId : string)
    (f : list Candidate.t → list Candidate.t) (s s' : ATSState) : Prop :=
  selectedJobId s' = selectedJobId s
  ∧ length (jobs s') = length (jobs s)
  ∧ ∀ i j, jobs s !! i = Some j →
      ∃ j', jobs s' !! i = Some j'
        ∧ sameJobFields j j'
        ∧ (Job.id j ≠ jobId → j' = j)
        ∧ (Job.id j = jobId → Job.candidates j' = f (Job.candidates j)).


(** No candidate of a job with the id [jobId] has the id [candId]. *)
Definition freshIn (jobId candId : string) (s : ATSState) : Prop :=
  ∀ j c, j ∈ jobs s → Job.id j = jobId → c ∈ Job.candidates j →
         Candidate.id c ≠ candId.


(** The jobs keep their ids and their candidates; only the other fields
    of the jobs with the id [id] may differ. *)
Definition jobsUpdated (id : string) (patch : Job.partial) (s s' : ATSState)
  : Prop :=
  selectedJobId s' = selectedJobId s
  ∧ length (jobs s') = length (jobs s)
  ∧ ∀ i j, jobs s !! i = Some j →
      ∃ j', jobs s' !! i = Some j'
        ∧ (Job.id j ≠ id → j' = j)
        ∧ (Job.id j = id → j' = Job.assign j patch)
        ∧ (Job.p_id patch = None → Job.id j' = Job.id j)
        ∧ (Job.p_candidates patch = None →
           Job.candidates j' = Job.candidates j).

(** [cs.map((c) => c.id === candId ? { ...c, stage: target } : c)] *)
Definition moveTo (candId target : string) (cs : list Candidate.t)
  : list Candidate.t :=
  (λ c, if String.eqb (Candidate.id c) candId
        then Candidate.assign c (stagePatch target) else c) <$> cs.

(** What a drag that is not dropped does: the notice of the move is
    shown at once; the stage is written in local mode and after an answer
    without error; after an error the state is the old one and the notice
    of the failure follows the notice of the move. *)
Definition dragMoved (jobId candId target : string) (updated : SbResult unit)
    (app app' : App) : Prop :=
  persistMode app' = persistMode app ∧ sb app' = sb app
  ∧ match remote app, updated with
    | true, SbError m =>
        state app' = state app
        ∧ notices app'
          = notices app ++ ["Moved to " +:+ target;
                            "Update candidate failed: " +:+ m]
    | _, _ =>
        state app' = inJob jobId (moveTo candId target) (state app)
        ∧ notices app' = notices app ++ ["Moved to " +:+ target]
    end.

(** The cards of a grouping that belong to the candidate [candId]. *)
Definition cardsOf (candId : string) (res : gmap string (list Candidate.t))
    (k : string) : list Candidate.t :=
  List.filter (λ c, String.eqb (Candidate.id c) candId) (default [] (res !! k)).

(** The candidate that one file of a bulk upload adds in local mode: what
    the local branch of [createCandidate] makes of
    [{ name: guessName, resume: ref, stage: 'Sourced' }]. *)
Definition bulkAdded (f : ResumeUpload) (c : Candidate.t) : Prop :=
  Candidate.id c = ru_uid f
  ∧ Candidate.name c = Name.guessName (File.name (ru_file f))
  ∧ Candidate.stage c = "Sourced"
  ∧ Candidate.appliedAt c = ru_now f
  ∧ Candidate.tags c = []
  ∧ Candidate.score c = None
  ∧ Candidate.resume c = JS.Null.

(** In remote mode, the file could not be stored or its row could not be
    inserted. *)
Definition resumeFailed (f : ResumeUpload) : Prop :=
  (∃ e, File.stored (ru_file f) = SbError e)
  ∨ (∃ m, ru_inserted f = SbError m).

(** A code unit of a guessed name: no separator of [[._-]], and no white
    space except the space. *)
Definition nameChar (c : ascii) : bool :=
  negb (Name.isSeparator c) && (negb (JS.isSpace c) || Ascii.eqb c " ").

(** ** The tag box of the filter panel

    [<input value={filters.tags.join(', ')}
            onChange={(e) => setFilters(f => ({...f, tags:
              e.target.value.split(',').map(t => t.trim()).filter(Boolean)}))} />] *)

Module Str.

(** [s.split(sep)] for a separator of one code unit. *)
Fixpoint split (sep : ascii) (s : string) : list string :=
  match s with
  | EmptyString => [EmptyString]
  | String c r =>
      if Ascii.eqb c sep then EmptyString :: split sep r
      else match split sep r with
           | h :: t => String c h :: t
           | [] => [String c EmptyString]
           end
  end.

(** [l.join(sep)] *)
Fixpoint join (sep : string) (l : list string) : string :=
  match l with
  | [] => EmptyString
  | [x] => x
  | x :: rest => x +:+ sep +:+ join sep rest
  end.

End Str.

(** [text.split(',').map(t => t.trim()).filter(Boolean)] *)
Definition parseTags (text : string) : list string :=
  List.filter (λ t, negb (Name.isEmpty t)) (Name.trim <$> Str.split "," text).

(** The text that the tag box shows for the tags of the filter. *)
Definition tagBox (tags : list string) : string := Str.join ", " tags.

(** A tag as [parseTags] makes it: not empty, trimmed, without a comma. *)
Definition tagOK (t : string) : Prop :=
  t ≠ EmptyString
  ∧ Name.trim t = t
  ∧ Name.allChars (λ c, negb (Ascii.eqb c ",")) t = true.

(** ** The filtered list

    [Fuse] and [dayjs] are libraries: the search and the two date tests
    are parameters of the model. *)

Module Filters.
Record t := mk {
  tags : list string;
  scoreMin : option Z;
  scoreMax : option Z;
  appliedFrom : option string;
  appliedTo : option string
}.
End Filters.

(** [typeof c.score === 'number' ? c.score >= min : false] *)
Definition scoreAtLeast (min : Z) (c : Candidate.t) : bool :=
  match Candidate.score c with Some z => (min <=? z)%Z | None => false end.

Definition scoreAtMost (max : Z) (c : Candidate.t) : bool :=
  match Candidate.score c with Some z => (z <=? max)%Z | None => false end.

Section Filtered.

(** [new Fuse(list, ...).search(query).map(r => r.item)] *)
Variable fuseSearch : string → list Candidate.t → list Candidate.t.
(** [dayjs(appliedAt).isAfter(dayjs(from).subtract(1, 'day'))] *)
Variable isAfterDayBefore : string → string → bool.
(** [dayjs(appliedAt).isBefore(dayjs(to).add(1, 'day'))] *)
Variable isBeforeDayAfter : string → string → bool.

(** The list that the filters are applied to. *)
Definition searched (query : string) (cands : list Candidate.t)
  : list Candidate.t :=
  if negb (Name.isEmpty (Name.trim query)) then fuseSearch query cands
  else cands.

Definition filtered (job : option Job.t) (query : string)
    (filters : Filters.t) : list Candidate.t :=
  match job with
  | None => []
  | Some j =>
    let list0 := searched query (Job.candidates j) in
    let list1 := tagFilter (Filters.tags filters) list0 in
    let list2 :=
      match Filters.scoreMin filters with
      | Some min => List.filter (scoreAtLeast min) list1
      | None => list1
      end in
    let list3 :=
      match Filters.scoreMax filters with
      | Some max => List.filter (scoreAtMost max) list2
      | None => list2
      end in
    let list4 :=
      match Filters.appliedFrom filters with
      | Some (String a r) =>
          List.filter (λ c, isAfterDayBefore (Candidate.appliedAt c)
                                             (String a r)) list3
      | _ => list3
      end in
    match Filters.appliedTo filters with
    | Some (String a r) =>
        List.filter (λ c, isBeforeDayAfter (Candidate.appliedAt c)
                                           (String a r)) list4
    | _ => list4
    end
  end.

End Filtered.

(** A candidate passes the score bounds of the filters: a bound that is
    set asks for a score. *)
Definition scoreWithin (filters : Filters.t) (c : Candidate.t) : Prop :=
  (∀ min, Filters.scoreMin filters = Some min →
          ∃ z, Candidate.score c = Some z ∧ (min ≤ z)%Z)
  ∧ (∀ max, Filters.scoreMax filters = Some max →
            ∃ z, Candidate.score c = Some z ∧ (z ≤ max)%Z).

(** A candidate passes the date bounds of the filters. *)
Definition appliedWithin (isAfterDayBefore isBeforeDayAfter
                            : string → string → bool)
    (filters : Filters.t) (c : Candidate.t) : Prop :=
  (∀ d, Filters.appliedFrom filters = Some d → d ≠ EmptyString →
        isAfterDayBefore (Candidate.appliedAt c) d = true)
  ∧ (∀ d, Filters.appliedTo filters = Some d → d ≠ EmptyString →
          isBeforeDayAfter (Candidate.appliedAt c) d = true).

(** ** The forms and their submit handlers *)

Module JobForm.

(** The fields of the form. *)
Record t := mk { title : string; department : string; location : string }.

(** The [useState] initial values: [initial?.title || ''] and so on. *)
Definition init (initial : option Job.t) : t :=
  mk (default EmptyString (Job.title <$> initial))
     (default EmptyString (initial ≫= Job.department))
     (default EmptyString (initial ≫= Job.location)).

(** [{ title, department, location }] *)
Definition vals (f : t) : Job.partial :=
  Job.mkPartial None (Some (title f)) (Some (Some (department f)))
                (Some (Some (location f))) None None None.

End JobForm.

(** [onSubmit] of the job modal:
    [if (editingJob) await updateJob(editingJob.id, vals);
     else await createJob(vals, file || undefined)]. *)
Definition submitJob (editingJob : option Job.t) (vals : Job.partial)
    (file : option File.t) (updated : SbResult unit)
    (inserted : SbResult JobRow.t) (uid now : string) (app : App)
  : Outcome :=
  match editingJob with
  | Some ej => Returned (updateJob (Job.id ej) vals updated app)
  | None => createJob vals file inserted uid now app
  end.

Module CandidateForm.

(** The fields of the form; [tags] is the text of the tag box. *)
Record t := mk {
  name : string;
  email : string;
  phone : string;
  stage : string;
  tags : string;
  score : option Z;
  notes : string
}.

(** The [useState] initial values. *)
Definition init (initial : option Candidate.t) : t :=
  mk (default EmptyString (Candidate.name <$> initial))
     (default EmptyString (initial ≫= Candidate.email))
     (default EmptyString (initial ≫= Candidate.phone))
     (JS.or_default (Candidate.stage <$> initial) "Sourced")
     (default EmptyString (tagBox <$> (Candidate.tags <$> initial)))
     (initial ≫= Candidate.score)
     (default EmptyString (initial ≫= Candidate.notes)).

(** [{ name, email, phone, stage, tags: tags.split(',')..., score, notes }] *)
Definition vals (f : t) : Candidate.partial :=
  Candidate.mkPartial None (Some (name f)) (Some (Some (email f)))
                      (Some (Some (phone f))) (Some (parseTags (tags f)))
                      (Some (score f)) None (Some (Some (notes f)))
                      (Some (stage f)) None.

End CandidateForm.

(** [{ ...vals, resume: ref }] *)
Definition withResume (vals : Candidate.partial) (ref : FileRef.t)
  : Candidate.partial :=
  Candidate.mkPartial (Candidate.p_id vals) (Candidate.p_name vals)
    (Candidate.p_email vals) (Candidate.p_phone vals)
    (Candidate.p_tags vals) (Candidate.p_score vals)
    (Some (JS.Value ref)) (Candidate.p_notes vals)
    (Candidate.p_stage vals) (Candidate.p_appliedAt vals).

(** The first step of [onSubmit] of the candidate modal:
    [if (file && persistMode === 'supabase' && sb) { try { ... vals =
    { ...vals, resume: ref } } catch (e) { show(...) } }].  A failed
    upload is caught: the handler goes on without the resume. *)
Definition attachResume (vals : Candidate.partial) (file : option File.t)
    (app : App) : Candidate.partial * App :=
  match file with
  | Some f =>
      if remote app then
        match uploadToStorage f with
        | SbOk ref => (withResume vals ref, app)
        | SbError e => (vals, show ("Resume upload failed: " +:+ e) app)
        end
      else (vals, app)
  | None => (vals, app)
  end.

(** [onSubmit] of the candidate modal, which is rendered when there is a
    current job. *)
Definition submitCandidate (editingCandidate : option Candidate.t)
    (vals : Candidate.partial) (file : option File.t)
    (updated : SbResult unit) (inserted : SbResult CandRow.t)
    (uid now : string) (app : App) : App :=
  match job (state app) with
  | None => app
  | Some j =>
    let '(vals', app1) := attachResume vals file app in
    match editingCandidate with
    | Some ec =>
        if negb (String.eqb (Candidate.id ec) "temp")
        then show "Candidate updated"
               (updateCandidate (Job.id j) (Candidate.id ec) vals' updated
                                app1)
        else appOf (createCandidate (Job.id j) vals' None inserted uid now
                                    app1)
    | None =>
        appOf (createCandidate (Job.id j) vals' None inserted uid now app1)
    end
  end.

(** [{ jd: ref }] *)
Definition jdPatch (ref : FileRef.t) : Job.partial :=
  Job.mkPartial None None None None None (Some (JS.Value ref)) None.

(** [onChange] of the Upload JD input.  [updateJob] is not awaited: in
    remote mode its notice comes after the notice of the attachment. *)
Definition onJDFile (file : option File.t) (objectUrl : string)
    (updated : SbResult unit) (app : App) : App :=
  match file, job (state app) with
  | Some f, Some j =>
    let ref :=
      if remote app then uploadToStorage f
      else SbOk (FileRef.mk (File.name f) objectUrl) in
    match ref with
    | SbError e => show ("JD upload failed: " +:+ e) app
    | SbOk r =>
      if remote app
      then updateJob (Job.id j) (jdPatch r) updated (show "JD attached" app)
      else show "JD attached" (updateJob (Job.id j) (jdPatch r) updated app)
    end
  | _, _ => app
  end.

(** The optional strings of a candidate are there. *)
Definition filledIn (c : Candidate.t) : Prop :=
  is_Some (Candidate.email c) ∧ is_Some (Candidate.phone c)
  ∧ is_Some (Candidate.notes c).


(** ** Reading stored text and rows *)

(** [safeJSONParse<T>(raw, fallback)]: [raw ? JSON.parse(raw) as T :
    fallback], and [fallback] when [JSON.parse] throws.  [cast] is the
    unchecked [as T]: [None] where the parsed value is no [T], and where
    the text is outside the JSON fragment of this development. *)
Definition safeJSONParse {T : Type} (cast : JSON.value → option T)
    (raw : option string) (fallback : T) : option T :=
  match raw with
  | Some (String a r) =>
      match JSON.parse (String a r) with
      | JSON.Parsed v => cast v
      | JSON.Invalid => Some fallback
      | JSON.Unsupported => None
      end
  | _ => Some fallback
  end.

(** The [tags] column of a candidate row: an array, a text, or null. *)
Inductive TagsColumn : Type :=
| TagsArray : list string → TagsColumn
| TagsText : string → TagsColumn
| TagsNull : TagsColumn.

(** A row of [sb.from('candidates').select('*')], with the clock reading
    that [new Date()] gives while the row is mapped. *)
Module LoadedCand.
Record t := mk {
  id : string;
  job_id : string;
  name : option string;
  email : option string;
  phone : option string;
  tags : TagsColumn;
  score : option Z;
  resume_name : option string;
  resume_url : option string;
  notes : option string;
  stage : option string;
  applied_at : option string;
  now : string
}.
End LoadedCand.

(** A row of [sb.from('jobs').select('*')], with its clock reading. *)
Module LoadedJob.
Record t := mk { row : JobRow.t; now : string }.
End LoadedJob.

(** The property names of [Object.prototype]: [byJob] is an object
    literal, so [byJob[k]] is not a list of candidates for these keys. *)
Definition objectPrototypeKeys : list string :=
  ["constructor"; "__defineGetter__"; "__defineSetter__"; "hasOwnProperty";
   "__lookupGetter__"; "__lookupSetter__"; "isPrototypeOf";
   "propertyIsEnumerable"; "toString"; "valueOf"; "__proto__";
   "toLocaleString"].

Definition isPrototypeKey (k : string) : bool :=
  existsb (String.eqb k) objectPrototypeKeys.

(** [Array.isArray(r.tags) ? r.tags : safeJSONParse(r.tags, [])] *)
Definition tagsOfColumn (col : TagsColumn) : option (list string) :=
  match col with
  | TagsArray l => Some l
  | TagsText s => safeJSONParse (Codec.arr Codec.str) (Some s) []
  | TagsNull => safeJSONParse (Codec.arr Codec.str) None []
  end.

Definition candOfLoaded (r : LoadedCand.t) : option Candidate.t :=
  tags ← tagsOfColumn (LoadedCand.tags r);
  Some (Candidate.mk (LoadedCand.id r)
          (JS.or_default (LoadedCand.name r) EmptyString)
          (Some (JS.or_default (LoadedCand.email r) EmptyString))
          (Some (JS.or_default (LoadedCand.phone r) EmptyString))
          tags
          (LoadedCand.score r)
          (fileRefOfRow (LoadedCand.resume_name r) (LoadedCand.resume_url r)
                        "resume")
          (Some (JS.or_default (LoadedCand.notes r) EmptyString))
          (JS.or_default (LoadedCand.stage r) "Sourced")
          (JS.or_default (LoadedCand.applied_at r) (LoadedCand.now r))).

(** [byJob[jobId] = byJob[jobId] || []; byJob[jobId].push(cand)] *)
Definition pushByJob (byJob : gmap string (list Candidate.t))
    (entry : string * Candidate.t) : gmap string (list Candidate.t) :=
  <[entry.1 := default [] (byJob !! entry.1) ++ [entry.2]]> byJob.

Definition jobOfLoaded (byJob : gmap string (list Candidate.t))
    (j : LoadedJob.t) : Job.t :=
  let row := LoadedJob.row j in
  Job.mk (JobRow.id row) (JobRow.title row)
         (Some (JS.or_default (JobRow.department row) EmptyString))
         (Some (JS.or_default (JobRow.location row) EmptyString))
         (JS.or_else (JobRow.created_at row) (LoadedJob.now j))
         (fileRefOfRow (JobRow.jd_name row) (JobRow.jd_url row) "JD")
         (default [] (byJob !! JobRow.id row)).

(** [mapRowsToState(jobsRows, candsRows)].  [None]: a tags text is
    outside the typed JSON of this development, or a job id names a
    property of [Object.prototype]. *)
Definition mapRowsToState (jobsRows : list LoadedJob.t)
    (candsRows : list LoadedCand.t) : option ATSState :=
  entries ← mapM (λ r, c ← candOfLoaded r; Some (LoadedCand.job_id r, c))
                 candsRows;
  if existsb isPrototypeKey (LoadedCand.job_id <$> candsRows)
     || existsb isPrototypeKey ((λ j, JobRow.id (LoadedJob.row j)) <$> jobsRows)
  then None
  else
    let byJob := foldl pushByJob ∅ entries in
    let jobs := jobOfLoaded byJob <$> jobsRows in
    Some (mkState jobs (firstJobId jobs)).

(** The rows are within the model: every tags column is an array or
    null, and no job id names a property of [Object.prototype]. *)
Definition plainRows (jobsRows : list LoadedJob.t)
    (candsRows : list LoadedCand.t) : Prop :=
  Forall (λ r, ∀ s, LoadedCand.tags r ≠ TagsText s) candsRows
  ∧ Forall (λ r, isPrototypeKey (LoadedCand.job_id r) = false) candsRows
  ∧ Forall (λ j, isPrototypeKey (JobRow.id (LoadedJob.row j)) = false)
           jobsRows.

(** The candidates that the rows of the job [jobId] give, in the order
    of the rows. *)
Definition candsOfJob (jobId : string) (candsRows : list LoadedCand.t)
  : list Candidate.t :=
  omap candOfLoaded
       (List.filter (λ r, String.eqb (LoadedCand.job_id r) jobId) candsRows).

(** ** CSV export *)

(** [String(v).replace(/Q/g, 'QQ')], where Q is the double quote: every
    double quote of the value is doubled. *)
Fixpoint doubleQuotes (s : string) : string :=
  match s with
  | EmptyString => EmptyString
  | String c r =>
      if Ascii.eqb c JSON.dquote
      then String JSON.dquote (String JSON.dquote (doubleQuotes r))
      else String c (doubleQuotes r)
  end.

(** One cell: the value between quotes, its quotes doubled. *)
Definition csvField (v : string) : string :=
  String JSON.dquote (doubleQuotes v +:+ String JSON.dquote EmptyString).

(** [r.map(v => ...).join(',')] *)
Definition csvRow (r : list string) : string :=
  Str.join "," (csvField <$> r).

Definition csvHeader : list string :=
  ["id"; "name"; "email"; "phone"; "tags"; "score"; "stage"; "appliedAt"].

(** [[c.id, c.name, c.email||'', c.phone||'', (c.tags||[]).join('|'),
      typeof c.score==='number' ? String(c.score) : '', c.stage,
      c.appliedAt]] *)
Definition csvCells (c : Candidate.t) : list string :=
  [Candidate.id c; Candidate.name c;
   JS.or_default (Candidate.email c) EmptyString;
   JS.or_default (Candidate.phone c) EmptyString;
   Str.join "|" (Candidate.tags c);
   match Candidate.score c with
   | Some z => string_of_list_ascii (JSON.printNum z)
   | None => EmptyString
   end;
   Candidate.stage c; Candidate.appliedAt c].

(** [[header, ...rows].map(...).join('\n')] *)
Definition csvLines (rows : list (list string)) : string :=
  Str.join (String JSON.LF EmptyString) (csvRow <$> rows).

(** The text of the blob that [downloadCSV] offers for the filtered list;
    nothing without a current job. *)
Definition downloadCSV (job : option Job.t) (filtered : list Candidate.t)
  : option string :=
  match job with
  | None => None
  | Some _ => Some (csvLines (csvHeader :: (csvCells <$> filtered)))
  end.

(** *** A reader of CSV, to state that the export can be read back

    Every cell is quoted; inside a cell two quotes stand for one; a comma
    ends a cell and a line feed ends a record. *)

(** A cell after its opening quote: the value, and what follows the
    closing quote. *)
Fixpoint readField (s : string) : option (string * string) :=
  match s with
  | EmptyString => None
  | String c r =>
      if Ascii.eqb c JSON.dquote then
        match r with
        | String d r' =>
            if Ascii.eqb d JSON.dquote
            then (λ p, (String JSON.dquote p.1, p.2)) <$> readField r'
            else Some (EmptyString, r)
        | EmptyString => Some (EmptyString, EmptyString)
        end
      else (λ p, (String c p.1, p.2)) <$> readField r
  end.

Fixpoint readRecords (fuel : nat) (s : string) : option (list (list string)) :=
  match fuel with
  | 0 => None
  | S fuel' =>
    match s with
    | String q r =>
      if Ascii.eqb q JSON.dquote then
        match readField r with
        | Some (v, EmptyString) => Some [[v]]
        | Some (v, String t rest) =>
            if Ascii.eqb t ","
            then match readRecords fuel' rest with
                 | Some (row :: more) => Some ((v :: row) :: more)
                 | _ => None
                 end
            else if Ascii.eqb t JSON.LF
            then (λ rows, [v] :: rows) <$> readRecords fuel' rest
            else None
        | None => None
        end
      else None
    | EmptyString => None
    end
  end.

Definition readCSV (text : string) : option (list (list string)) :=
  readRecords (String.length text) text.

(** What follows the first cell of a row, and the first row of a text. *)
Definition rowTail (cells : list string) : string :=
  match cells with
  | [] => EmptyString
  | _ => String "," (csvRow cells)
  end.

Definition linesTail (rows : list (list string)) : string :=
  match rows with
  | [] => EmptyString
  | _ => String JSON.LF (csvLines rows)
  end.

(** The number of cells of the rows. *)
Definition cellCount (rows : list (list string)) : nat :=
  sum_list (length <$> rows).

(** ** The state kept in local storage *)

Module Compact.

(** [JSON.stringify(value)]: the document without any white space. *)
Fixpoint print (v : JSON.value) {struct v} : list ascii :=
  match v with
  | JSON.Null => JSON.lit "null"
  | JSON.Bool true => JSON.lit "true"
  | JSON.Bool false => JSON.lit "false"
  | JSON.Num z => JSON.printNum z
  | JSON.Str s => JSON.quote s
  | JSON.Arr [] => JSON.lit "[]"
  | JSON.Arr (x :: xs) =>
      "["%char :: print x ++
      (fix elements (l : list JSON.value) : list ascii :=
         match l with
         | [] => ["]"%char]
         | y :: ys => ","%char :: print y ++ elements ys
         end) xs
  | JSON.Obj [] => JSON.lit "{}"
  | JSON.Obj ((k, x) :: ms) =>
      "{"%char :: JSON.quote k ++ ":"%char :: print x ++
      (fix members (l : list (string * JSON.value)) : list ascii :=
         match l with
         | [] => ["}"%char]
         | (k', y) :: ys =>
             ","%char :: JSON.quote k' ++ ":"%char :: print y ++ members ys
         end) ms
  end.

Definition stringify (v : JSON.value) : string :=
  string_of_list_ascii (print v).

End Compact.

(** The item of [localStorage] under [STORAGE_KEY] after the persist
    effect ran: [if (persistMode === 'local')
    localStorage.setItem(STORAGE_KEY, JSON.stringify(state))]. *)
Definition persist (stored : option string) (app : App) : option string :=
  match persistMode app with
  | local => Some (Compact.stringify (Codec.ofState (state app)))
  | supabase => stored
  end.

(** [if (!initial.selectedJobId && initial.jobs[0])
      initial.selectedJobId = initial.jobs[0].id] *)
Definition selectFirst (initial : ATSState) : ATSState :=
  match selectedJobId initial, jobs initial with
  | JS.Value (String _ _), _ => initial
  | _, j :: _ => mkState (jobs initial) (JS.Value (Job.id j))
  | _, [] => initial
  end.

(** The initial state of the component: what is stored, or the demo
    state [seed] (made with fresh ids and the clock), with a job
    selected. *)
Definition initialState (stored : option string) (seed : ATSState)
  : option ATSState :=
  selectFirst <$> safeJSONParse Codec.state stored seed.

(** *** Notions for the compact document *)

Definition compactElements : list JSON.value → list ascii :=
  fix elements (l : list JSON.value) : list ascii :=
    match l with
    | [] => ["]"%char]
    | y :: ys => ","%char :: Compact.print y ++ elements ys
    end.

Definition compactMembers : list (string * JSON.value) → list ascii :=
  fix members (l : list (string * JSON.value)) : list ascii :=
    match l with
    | [] => ["}"%char]
    | (k', y) :: ys =>
        ","%char :: JSON.quote k' ++ ":"%char :: Compact.print y ++ members ys
    end.

(** What follows a value of a compact document: nothing, a comma, or a
    closing bracket. *)
Definition closes (rest : list ascii) : Prop :=
  match rest with
  | [] => True
  | c :: _ => c = ","%char ∨ c = "]"%char ∨ c = "}"%char
  end.

(** A value is read back from its compact print, before any closing
    rest, with any fuel from its size on. *)
Definition readsCompact (v : JSON.value) : Prop :=
  safeValue v →
  ∀ (fuel : nat) (rest : list ascii),
    size v ≤ fuel → closes rest →
    JSON.parseValue fuel (Compact.print v ++ rest) = JSON.Parsed (v, rest).

(** A job is selected, by a non-empty id. *)
Definition hasSelection (s : ATSState) : Prop :=
  ∃ a r, selectedJobId s = JS.Value (String a r).

(** ** More sample data: a job with one well-formed candidate *)

Module Demo.

Definition asha : Candidate.t :=
  Candidate.mk "c-asha" "Asha Rao" (Some "asha@example.com")
               (Some EmptyString) ["Go"; "Type Script"] (Some 71%Z) JS.Null
               (Some "Referred.") "Hired" Sample.day.

Definition ops : Job.t :=
  Job.mk "j-ops" "Ops Engineer" (Some "Platform") (Some EmptyString)
         Sample.day JS.Null [asha].

Definition one : ATSState := mkState [ops] (JS.Value "j-ops").

(** Rows of a load: two jobs, and three candidate rows of which the last
    belongs to no job. *)
Definition jobRows : list LoadedJob.t :=
  [LoadedJob.mk (JobRow.mk "j-ops" "Ops Engineer" None None Sample.day
                           None None) Sample.day;
   LoadedJob.mk (JobRow.mk "j-web" "Web Engineer" (Some "Product") None
                           EmptyString None None) Sample.day].

Definition candRows : list LoadedCand.t :=
  [LoadedCand.mk "c-1" "j-web" (Some "Asha Rao") None None
                 (TagsArray ["Go"]) (Some 71%Z) None None None
                 (Some "applied") (Some Sample.day) Sample.day;
   LoadedCand.mk "c-2" "j-ops" (Some "Vik Roy") None None TagsNull None
                 None None None None None Sample.day;
   LoadedCand.mk "c-3" "j-gone" (Some "Lea Sen") None None TagsNull None
                 None None None (Some "Hired") None Sample.day].

End Demo.

(** ** The operations of the board and the selection invariant *)

(** [onChange] of the job selector:
    [setState((s) => ({ ...s, selectedJobId: e.target.value }))]. *)
Definition selectJob (id : string) (app : App) : App :=
  setState (λ s, mkState (jobs s) (JS.Value id)) app.

(** The effect that loads from Supabase when it is enabled:
    [setState(mapRowsToState(jobsRows || [], candsRows || []))], or the
    notice of the query that failed.  [None] where [mapRowsToState] has
    no answer. *)
Definition loadRemote (jobsAnswer : SbResult (option (list LoadedJob.t)))
    (candsAnswer : SbResult (option (list LoadedCand.t))) (app : App)
  : option App :=
  if remote app then
    match jobsAnswer with
    | SbError m => Some (show ("Load jobs failed: " +:+ m) app)
    | SbOk jobsRows =>
      match candsAnswer with
      | SbError m => Some (show ("Load candidates failed: " +:+ m) app)
      | SbOk candsRows =>
          next ← mapRowsToState (default [] jobsRows) (default [] candsRows);
          Some (setState (λ _, next) app)
      end
    end
  else Some app.

(** The switch of the navigation bar:
    [setPersistMode((m) => (m === 'local' ? 'supabase' : 'local'))]. *)
Definition togglePersistMode (app : App) : App :=
  mkApp (state app)
        (match persistMode app with local => supabase | supabase => local end)
        (sb app) (notices app).

(** One operation on the state, with what the outside world answers
    while it runs. *)
Inductive Op : Type :=
| OpCreateJob (data : Job.partial) (jdFile : option File.t)
    (inserted : SbResult JobRow.t) (uid now : string)
| OpUpdateJob (id : string) (patch : Job.partial) (updated : SbResult unit)
| OpDeleteJob (id : string) (deleted : SbResult unit)
| OpCreateCandidate (jobId : string) (data : Candidate.partial)
    (resumeFile : option File.t) (inserted : SbResult CandRow.t)
    (uid now : string)
| OpUpdateCandidate (jobId candId : string) (patch : Candidate.partial)
    (updated : SbResult unit)
| OpDeleteCandidate (jobId candId : string) (deleted : SbResult unit)
| OpDragEnd (e : DragEndEvent) (updated : SbResult unit)
| OpResumeFiles (files : option (list ResumeUpload))
| OpSelectJob (id : string)
| OpSubmitJob (editingJob : option Job.t) (vals : Job.partial)
    (file : option File.t) (updated : SbResult unit)
    (inserted : SbResult JobRow.t) (uid now : string)
| OpSubmitCandidate (editingCandidate : option Candidate.t)
    (vals : Candidate.partial) (file : option File.t)
    (updated : SbResult unit) (inserted : SbResult CandRow.t)
    (uid now : string)
| OpJDFile (file : option File.t) (objectUrl : string)
    (updated : SbResult unit)
| OpLoadRemote (jobsAnswer : SbResult (option (list LoadedJob.t)))
    (candsAnswer : SbResult (option (list LoadedCand.t)))
| OpTogglePersistMode
| OpUploadJSON (text : string).

(** The application after the operation; a helper that rejects leaves
    the application as it is at the rejection. *)
Definition run (op : Op) (app : App) : option App :=
  match op with
  | OpCreateJob data jdFile inserted uid now =>
      Some (appOf (createJob data jdFile inserted uid now app))
  | OpUpdateJob id patch updated => Some (updateJob id patch updated app)
  | OpDeleteJob id deleted => Some (deleteJob id deleted app)
  | OpCreateCandidate jobId data resumeFile inserted uid now =>
      Some (appOf (createCandidate jobId data resumeFile inserted uid now app))
  | OpUpdateCandidate jobId candId patch updated =>
      Some (updateCandidate jobId candId patch updated app)
  | OpDeleteCandidate jobId candId deleted =>
      Some (deleteCandidate jobId candId deleted app)
  | OpDragEnd e updated => Some (onDragEnd e updated app)
  | OpResumeFiles files => Some (onResumeFiles files app)
  | OpSelectJob id => Some (selectJob id app)
  | OpSubmitJob editingJob vals file updated inserted uid now =>
      Some (appOf (submitJob editingJob vals file updated inserted uid now
                             app))
  | OpSubmitCandidate editingCandidate vals file updated inserted uid now =>
      Some (submitCandidate editingCandidate vals file updated inserted uid
                            now app)
  | OpJDFile file objectUrl updated => Some (onJDFile file objectUrl updated app)
  | OpLoadRemote jobsAnswer candsAnswer =>
      loadRemote jobsAnswer candsAnswer app
  | OpTogglePersistMode => Some (togglePersistMode app)
  | OpUploadJSON text => uploadJSON text app
  end.

(** The id that a new job gets is not the empty string. *)
Definition freshJobId (inserted : SbResult JobRow.t) (uid : string) : Prop :=
  uid ≠ EmptyString ∧ ∀ row, inserted = SbOk row → JobRow.id row ≠ EmptyString.

(** The operations that the invariant is about: every one but the
    import, as the board issues them.  A new job gets an id that is not
    empty, a job patch has no [id] (the forms and the attachment send
    none), the selector offers the ids of the jobs, and the rows of a
    load are within the model, with ids that are not empty. *)
Definition admissible (op : Op) (app : App) : Prop :=
  match op with
  | OpCreateJob _ _ inserted uid _ => freshJobId inserted uid
  | OpUpdateJob _ patch _ => Job.p_id patch = None
  | OpSelectJob id => id ∈ (Job.id <$> jobs (state app))
  | OpSubmitJob _ vals _ _ inserted uid _ =>
      Job.p_id vals = None ∧ freshJobId inserted uid
  | OpLoadRemote jobsAnswer candsAnswer =>
      ∀ jobsRows candsRows,
        jobsAnswer = SbOk jobsRows → candsAnswer = SbOk candsRows →
        plainRows (default [] jobsRows) (default [] candsRows)
        ∧ Forall (λ j, JobRow.id (LoadedJob.row j) ≠ EmptyString)
                 (default [] jobsRows)
  | OpUploadJSON _ => False
  | _ => True
  end.

(** The applications that admissible operations lead to from [app0]. *)
Inductive reachable (app0 : App) : App → Prop :=
| reachable_start : reachable app0 app0
| reachable_step (app app' : App) (op : Op) :
    reachable app0 app → admissible op app → run op app = Some app' →
    reachable app0 app'.

(** The invariant of the stored selection: without jobs it is [null],
    with jobs it is the id of one of them; and no job has the empty id,
    which [jobs[0]?.id || null] would take for no id. *)
Definition wellSelected (s : ATSState) : Prop :=
  Forall (λ i, i ≠ EmptyString) (Job.id <$> jobs s)
  ∧ (Job.id <$> jobs s = [] → selectedJobId s = JS.Null)
  ∧ (Job.id <$> jobs s ≠ [] →
     ∃ i, i ∈ (Job.id <$> jobs s) ∧ selectedJobId s = JS.Value i).

(** The job of the board is the selected job. *)
Definition showsSelected (s : ATSState) : Prop :=
  (jobs s = [] ∧ job s = None)
  ∨ ∃ j, job s = Some j ∧ j ∈ jobs s
         ∧ selectedJobId s = JS.Value (Job.id j).

(** A document whose selection names no job. *)
Definition dangling : ATSState :=
  mkState [Sample.frontend] (JS.Value "j-gone").


(** What the candidate form is opened on:
    [initial={editingCandidate?.id ? editingCandidate : undefined}]. *)
Definition formInitial (editingCandidate : option Candidate.t)
  : option Candidate.t :=
  match editingCandidate with
  | Some c =>
      match Candidate.id c with
      | EmptyString => None
      | String _ _ => Some c
      end
  | None => None
  end.

(** A candidate stored with a stage of an older version of the board. *)
Definition legacy : Candidate.t :=
  Candidate.mk "c-lee" "Lee Wong" (Some "lee@example.com")
               (Some EmptyString) ["Go"] (Some 64%Z) JS.Null
               (Some EmptyString) "applied" Sample.day.

Definition legacyBoard : ATSState :=
  mkState [Job.mk "j-ops" "Ops Engineer" (Some "Platform")
                  (Some EmptyString) Sample.day JS.Null [legacy]]
          (JS.Value "j-ops").


(** *** The name heuristic in the words of the specification

    The steps of the heuristic, each stated as a relation between the
    text before and after it, beside the functions of [Name] that embed
    the source. *)

Module Heuristic.

Definition noDot (s : string) : Prop :=
  Name.allChars (λ c, negb (Name.isDot c)) s = true.

(** Strip the file extension: the last dot and the characters after it,
    when at least one character follows that dot. *)
Definition extensionStripped (s stem : string) : Prop :=
  (∃ ext, s = stem +:+ "." +:+ ext ∧ ext ≠ EmptyString ∧ noDot ext)
  ∨ (stem = s
     ∧ ∀ a ext, s = a +:+ "." +:+ ext → ext ≠ EmptyString → ¬ noDot ext).

(** The text does not begin with a character of the class. *)
Definition startsOutside (cls : ascii → bool) (s : string) : Prop :=
  match s with
  | EmptyString => True
  | String c _ => cls c = false
  end.

(** The text does not end with a character of the class. *)
Fixpoint endsOutside (cls : ascii → bool) (s : string) : Prop :=
  match s with
  | EmptyString => True
  | String c EmptyString => cls c = false
  | String _ r => endsOutside cls r
  end.

(** Every maximal run of characters of the class is replaced by [rep];
    the other characters stay. *)
Inductive replaced (cls : ascii → bool) (rep : string)
  : string → string → Prop :=
| replaced_end : replaced cls rep EmptyString EmptyString
| replaced_keep (c : ascii) (s r : string) :
    cls c = false → replaced cls rep s r →
    replaced cls rep (String c s) (String c r)
| replaced_run (run s r : string) :
    run ≠ EmptyString → Name.allChars cls run = true →
    startsOutside cls s → replaced cls rep s r →
    replaced cls rep (run +:+ s) (rep +:+ r).

(** Every separator becomes a space; the other characters stay. *)
Inductive spacedOut : string → string → Prop :=
| spacedOut_end : spacedOut EmptyString EmptyString
| spacedOut_separator (c : ascii) (s r : string) :
    Name.isSeparator c = true → spacedOut s r →
    spacedOut (String c s) (String " " r)
| spacedOut_keep (c : ascii) (s r : string) :
    Name.isSeparator c = false → spacedOut s r →
    spacedOut (String c s) (String c r).

(** Trimmed: the white space at both ends is dropped. *)
Definition trimmed (s r : string) : Prop :=
  ∃ l t, s = l +:+ r +:+ t
         ∧ Name.allChars JS.isSpace l = true
         ∧ Name.allChars JS.isSpace t = true
         ∧ startsOutside JS.isSpace r ∧ endsOutside JS.isSpace r.

(** The base name: extension stripped, separators replaced with spaces,
    runs of white space collapsed into one space, trimmed. *)
Definition baseName (fileName base : string) : Prop :=
  ∃ stem spaced collapsed,
    extensionStripped fileName stem
    ∧ spacedOut stem spaced
    ∧ replaced JS.isSpace " " spaced collapsed
    ∧ trimmed collapsed base.

(** The guessed name: the base name with its runs of digits removed and
    trimmed; the base name when that is empty; the placeholder when the
    base name is empty too. *)
Definition guessed (fileName name : string) : Prop :=
  ∃ base digitless stripped,
    baseName fileName base
    ∧ replaced JS.isDigit EmptyString base digitless
    ∧ trimmed digitless stripped
    ∧ (stripped ≠ EmptyString → name = stripped)
    ∧ (stripped = EmptyString → base ≠ EmptyString → name = base)
    ∧ (stripped = EmptyString → base = EmptyString → name = placeholder).

End Heuristic.

(** The longest prefix of [s] in the class, and what follows it. *)
Fixpoint takeRun (cls : ascii → bool) (s : string) : string :=
  match s with
  | EmptyString => EmptyString
  | String c r => if cls c then String c (takeRun cls r) else EmptyString
  end.

Fixpoint dropRun (cls : ascii → bool) (s : string) : string :=
  match s with
  | EmptyString => EmptyString
  | String c r => if cls c then dropRun cls r else s
  end.

(** Each separator of [s] as a space. *)
Fixpoint separatorsToSpaces (s : string) : string :=
  match s with
  | EmptyString => EmptyString
  | String c r =>
      String (if Name.isSeparator c then " "%char else c)
             (separatorsToSpaces r)
  end.

Fixpoint someChar (p : ascii → bool) (s : string) : bool :=
  match s with
  | EmptyString => false
  | String c r => p c || someChar p r
  end.


(** ** Numbers beyond the safe integers

    [JSON.parse] reads a numeral as the nearest double: a numeral at or
    above [2^1024] becomes [Infinity].  [JSON.stringify] writes a number
    that is not finite as [null].  [uploadJSON] sets the state to the
    value parsed, whatever it is, so such a number can reach the state.
    [Wide] has the values of [JSON] with these two numbers added, the
    parser of [JSON] with numerals in scientific notation, and the
    printer; a numeral that is neither a safe integer nor beyond the
    doubles stays [Unsupported]. *)

Module Wide.

Inductive number : Type :=
| Finite : Z → number
| Infinity : number
| NegInfinity : number.

#[local] Unset Elimination Schemes.
Inductive value : Type :=
| Null : value
| Bool : bool → value
| Num : number → value
| Str : string → value
| Arr : list value → value
| Obj : list (string * value) → value.
#[local] Set Elimination Schemes.

(** What [JSON.stringify] writes for a value is what it writes for the
    value with [null] in the place of every number that is not finite
    (SerializeJSONProperty, step for numbers). *)
Fixpoint written (v : value) : JSON.value :=
  match v with
  | Null => JSON.Null
  | Bool b => JSON.Bool b
  | Num (Finite z) => JSON.Num z
  | Num _ => JSON.Null
  | Str s => JSON.Str s
  | Arr l => JSON.Arr (map written l)
  | Obj ms => JSON.Obj (map (λ '(k, x), (k, written x)) ms)
  end.

(** [JSON.stringify(v, null, 2)] *)
Definition stringify (v : value) : string := JSON.stringify (written v).

(** A value of the typed fragment, as a value of this one. *)
Fixpoint embed (v : JSON.value) : value :=
  match v with
  | JSON.Null => Null
  | JSON.Bool b => Bool b
  | JSON.Num z => Num (Finite z)
  | JSON.Str s => Str s
  | JSON.Arr l => Arr (map embed l)
  | JSON.Obj ms => Obj (map (λ '(k, x), (k, embed x)) ms)
  end.

(** The doubles end below [2^1024]. *)
Definition OVERFLOW : Z := 2 ^ 1024.

Definition natOf (ds : list ascii) : option N :=
  N.of_uint <$> NilEmpty.uint_of_string (string_of_list_ascii ds).

Definition isExponentMark (c : ascii) : bool :=
  (Ascii.eqb c "e" || Ascii.eqb c "E")%char.

(** A numeral [-? digits ((e|E) +? digits)?] with the value
    [digits * 10 ^ exponent]: a safe integer, or a magnitude that no
    double holds; other numerals (a fraction, a negative exponent, a
    magnitude between the two) are left out. *)
Definition scientific (s : list ascii) : JSON.result (number * list ascii) :=
  let '(negative, s1) :=
    match s with
    | c :: r => if Ascii.eqb c "-" then (true, r) else (false, s)
    | [] => (false, s)
    end in
  let '(ds, rest) := JSON.spanDigits s1 in
  match ds with
  | [] => JSON.Invalid
  | d :: more =>
    if Ascii.eqb d "0" && negb (match more with [] => true | _ => false end)
    then JSON.Invalid
    else
      let answer (k : N) (rest' : list ascii) :=
        match natOf ds with
        | Some m =>
          let magnitude := (Z.of_N m * 10 ^ Z.of_N k)%Z in
          if (magnitude =? 0)%Z && negative then JSON.Unsupported
          else if (magnitude <=? JSON.MAX_SAFE_INTEGER)%Z
          then JSON.Parsed
                 (Finite (if negative then - magnitude else magnitude)%Z,
                  rest')
          else if (OVERFLOW <=? magnitude)%Z
          then JSON.Parsed
                 (if negative then NegInfinity else Infinity, rest')
          else JSON.Unsupported
        | None => JSON.Invalid
        end in
      match rest with
      | e :: r1 =>
        if isExponentMark e then
          match r1 with
          | sign :: r2 =>
            if Ascii.eqb sign "-" then JSON.Unsupported
            else
              let '(es, rest') :=
                JSON.spanDigits (if Ascii.eqb sign "+" then r2 else r1) in
              match natOf es with
              | Some k =>
                  match es with
                  | [] => JSON.Invalid
                  | _ => answer k rest'
                  end
              | None => JSON.Invalid
              end
          | [] => JSON.Invalid
          end
        else if Ascii.eqb e "." then JSON.Unsupported
        else answer 0%N rest
      | [] => answer 0%N rest
      end
  end.

(** A numeral of the typed fragment is read as there; the others go
    through [scientific]. *)
Definition parseNum (s : list ascii) : JSON.result (value * list ascii) :=
  match JSON.parseNum s with
  | JSON.Parsed (v, rest) => JSON.Parsed (embed v, rest)
  | JSON.Invalid => JSON.Invalid
  | JSON.Unsupported =>
      match scientific s with
      | JSON.Parsed (n, rest) => JSON.Parsed (Num n, rest)
      | JSON.Invalid => JSON.Invalid
      | JSON.Unsupported => JSON.Unsupported
      end
  end.

Definition keyword (w : string) (v : value) (s : list ascii)
  : JSON.result (value * list ascii) :=
  match JSON.stripPrefix (JSON.lit w) s with
  | Some rest => JSON.Parsed (v, rest)
  | None => JSON.Invalid
  end.

(** The recursive descent of [JSON.parseValue], with [parseNum] above. *)
Fixpoint parseValue (fuel : nat) (s : list ascii) {struct fuel}
  : JSON.result (value * list ascii) :=
  match fuel with
  | 0 => JSON.Unsupported
  | S fuel' =>
    match JSON.skipWs s with
    | [] => JSON.Invalid
    | c :: r =>
      if Ascii.eqb c "n" then keyword "null" Null (c :: r)
      else if Ascii.eqb c "t" then keyword "true" (Bool true) (c :: r)
      else if Ascii.eqb c "f" then keyword "false" (Bool false) (c :: r)
      else if (N_of_ascii c =? 34)%N then
        match JSON.parseChars r with
        | JSON.Parsed (str, rest) => JSON.Parsed (Str str, rest)
        | JSON.Invalid => JSON.Invalid
        | JSON.Unsupported => JSON.Unsupported
        end
      else if Ascii.eqb c "[" then
        match JSON.skipWs r with
        | c1 :: r1 =>
          if Ascii.eqb c1 "]" then JSON.Parsed (Arr [], r1)
          else
            match parseElements fuel' (c1 :: r1) with
            | JSON.Parsed (vs, rest) => JSON.Parsed (Arr vs, rest)
            | JSON.Invalid => JSON.Invalid
            | JSON.Unsupported => JSON.Unsupported
            end
        | [] => JSON.Invalid
        end
      else if Ascii.eqb c "{" then
        match JSON.skipWs r with
        | c1 :: r1 =>
          if Ascii.eqb c1 "}" then JSON.Parsed (Obj [], r1)
          else
            match parseMembers fuel' (c1 :: r1) with
            | JSON.Parsed (ms, rest) => JSON.Parsed (Obj ms, rest)
            | JSON.Invalid => JSON.Invalid
            | JSON.Unsupported => JSON.Unsupported
            end
        | [] => JSON.Invalid
        end
      else if Ascii.eqb c "-" || JS.isDigit c then parseNum (c :: r)
      else JSON.Invalid
    end
  end
with parseElements (fuel : nat) (s : list ascii) {struct fuel}
  : JSON.result (list value * list ascii) :=
  match fuel with
  | 0 => JSON.Unsupported
  | S fuel' =>
    match parseValue fuel' s with
    | JSON.Parsed (v, r) =>
      match JSON.skipWs r with
      | c :: r1 =>
        if Ascii.eqb c "," then
          match parseElements fuel' r1 with
          | JSON.Parsed (vs, rest) => JSON.Parsed (v :: vs, rest)
          | JSON.Invalid => JSON.Invalid
          | JSON.Unsupported => JSON.Unsupported
          end
        else if Ascii.eqb c "]" then JSON.Parsed ([v], r1)
        else JSON.Invalid
      | [] => JSON.Invalid
      end
    | JSON.Invalid => JSON.Invalid
    | JSON.Unsupported => JSON.Unsupported
    end
  end
with parseMembers (fuel : nat) (s : list ascii) {struct fuel}
  : JSON.result (list (string * value) * list ascii) :=
  match fuel with
  | 0 => JSON.Unsupported
  | S fuel' =>
    match JSON.skipWs s with
    | q :: r0 =>
      if (N_of_ascii q =? 34)%N then
        match JSON.parseChars r0 with
        | JSON.Parsed (k, r) =>
          match JSON.skipWs r with
          | colon :: r1 =>
            if Ascii.eqb colon ":" then
              match parseValue fuel' r1 with
              | JSON.Parsed (v, r2) =>
                match JSON.skipWs r2 with
                | c :: r3 =>
                  if Ascii.eqb c "," then
                    match parseMembers fuel' r3 with
                    | JSON.Parsed (ms, rest) =>
                        JSON.Parsed ((k, v) :: ms, rest)
                    | JSON.Invalid => JSON.Invalid
                    | JSON.Unsupported => JSON.Unsupported
                    end
                  else if Ascii.eqb c "}" then JSON.Parsed ([(k, v)], r3)
                  else JSON.Invalid
                | [] => JSON.Invalid
                end
              | JSON.Invalid => JSON.Invalid
              | JSON.Unsupported => JSON.Unsupported
              end
            else JSON.Invalid
          | [] => JSON.Invalid
          end
        | JSON.Invalid => JSON.Invalid
        | JSON.Unsupported => JSON.Unsupported
        end
      else JSON.Invalid
    | [] => JSON.Invalid
    end
  end.

(** [JSON.parse(text)] *)
Definition parse (text : string) : JSON.result value :=
  let s := list_ascii_of_string text in
  match parseValue (S (length s)) s with
  | JSON.Parsed (v, rest) =>
      match JSON.skipWs rest with [] => JSON.Parsed v | _ => JSON.Invalid end
  | JSON.Invalid => JSON.Invalid
  | JSON.Unsupported => JSON.Unsupported
  end.

(** [uploadJSON]: the state after the import of [text], the state being
    the parsed value itself ([setState(parsed)], no shape is checked).
    [None]: the text is outside the fragment. *)
Definition uploadJSON (text : string) (state : value) : option value :=
  match parse text with
  | JSON.Parsed v => Some v
  | JSON.Invalid => Some state
  | JSON.Unsupported => None
  end.

(** [downloadJSON]: the text of the blob. *)
Definition downloadJSON (state : value) : string := stringify state.




End Wide.

(* ===================================================================== *)
(** * Properties *)
(* ===================================================================== *)

(** ** Stage normalization *)

Lemma isStage_elem (s : string) : isStage s = true ↔ s ∈ STAGES.
Proof.
  unfold isStage. rewrite existsb_exists. split.
  - intros (x & Hin & Heq). apply String.eqb_eq in Heq. subst x.
    by apply list_elem_of_In.
  - intros Hin. exists s. split; [by apply list_elem_of_In|].
    apply String.eqb_refl.
Qed.

Lemma normalizeStage_in_STAGES (s : string) : normalizeStage s ∈ STAGES.
Proof.
  unfold normalizeStage.
  repeat match goal with
         | |- context [if ?b then _ else _] => destruct b eqn:?
         end;
    try (apply isStage_elem; reflexivity).
  by apply isStage_elem.
Qed.

Lemma isStage_normalizeStage (s : string) : isStage (normalizeStage s) = true.
Proof. apply isStage_elem, normalizeStage_in_STAGES. Qed.

(** A canonical name is not touched. *)
Lemma normalizeStage_canonical (s : string) :
  isStage s = true → normalizeStage s = s.
Proof.
  intros H. apply isStage_elem in H. unfold STAGES in H.
  repeat (apply elem_of_cons in H as [-> | H]; [reflexivity|]).
  by apply elem_of_nil in H.
Qed.

(** Neither canonical nor a legacy alias: [Sourced]. *)
Lemma normalizeStage_unknown (s : string) :
  isStage s = false → legacyAlias (JS.toLowerCase s) = false →
  normalizeStage s = "Sourced".
Proof.
  unfold legacyAlias, normalizeStage. intros Hs Ha.
  repeat (apply orb_false_iff in Ha as [Ha ?]).
  by repeat match goal with H : _ = false |- _ => rewrite H; clear H end.
Qed.

(** ** Grouping by stage *)

Lemma emptyBuckets_lookup (k : string) :
  k ∈ STAGES → emptyBuckets !! k = Some [].
Proof.
  unfold STAGES. intros H.
  repeat (apply elem_of_cons in H as [-> | H]; [reflexivity|]).
  by apply elem_of_nil in H.
Qed.

Lemma emptyBuckets_dom : dom emptyBuckets = list_to_set STAGES.
Proof.
  unfold emptyBuckets, STAGES. rewrite !dom_insert_L, dom_empty_L.
  simpl. set_solver.
Qed.

Lemma bucketOf_cons (k : string) (c : Candidate.t) (cs : list Candidate.t) :
  bucketOf k (c :: cs) =
  if decide (normalizeStage (Candidate.stage c) = k)
  then normalized c :: bucketOf k cs else bucketOf k cs.
Proof. unfold bucketOf. rewrite filter_cons. by case_decide. Qed.

(** The loop started from any buckets with the six keys: it ends, keeps
    the keys, and appends to each bucket the cards of its stage. *)
Lemma byStage_from_spec (filtered : list Candidate.t) :
  ∀ res : gmap string (list Candidate.t),
    (∀ k, k ∈ STAGES → is_Some (res !! k)) →
    ∃ res', byStage_from res filtered = Some res'
            ∧ dom res' = dom res
            ∧ ∀ k, res' !! k = (λ b, b ++ bucketOf k filtered) <$> res !! k.
Proof.
  induction filtered as [|c rest IH]; intros res Hkeys.
  - exists res. split; [done|]. split; [done|]. intros k.
    destruct (res !! k); simpl; [|done]. by rewrite app_nil_r.
  - pose proof (Hkeys _ (normalizeStage_in_STAGES (Candidate.stage c)))
      as [b0 Hb0].
    set (k0 := normalizeStage (Candidate.stage c)) in *.
    destruct (IH (<[k0 := b0 ++ [Candidate.with_stage k0 c]]> res))
      as (res' & Hrun & Hdom & Hres').
    { intros k Hk. destruct (decide (k0 = k)) as [->|Hne].
      - rewrite lookup_insert_eq. eauto.
      - rewrite lookup_insert_ne by done. auto. }
    exists res'. split; [|split].
    + simpl. unfold pushCard. fold k0. rewrite Hb0. simpl. exact Hrun.
    + rewrite Hdom, dom_insert_L.
      assert (k0 ∈ dom res) by (apply elem_of_dom; eauto). set_solver.
    + intros k. rewrite Hres', bucketOf_cons. fold k0.
      destruct (decide (k0 = k)) as [<-|Hne].
      * rewrite lookup_insert_eq, Hb0. simpl.
        by rewrite <- app_assoc.
      * by rewrite lookup_insert_ne.
Qed.

Lemma byStage_spec (filtered : list Candidate.t) :
  ∃ res, byStage filtered = Some res
         ∧ dom res = list_to_set STAGES
         ∧ ∀ k, k ∈ STAGES → res !! k = Some (bucketOf k filtered).
Proof.
  destruct (byStage_from_spec filtered emptyBuckets) as (res & Hrun & Hdom & Hres).
  { intros k Hk. rewrite emptyBuckets_lookup; eauto. }
  exists res. split; [exact Hrun|]. split.
  - by rewrite Hdom, emptyBuckets_dom.
  - intros k Hk. by rewrite Hres, emptyBuckets_lookup.
Qed.

(** Counting: the classes of a function into a duplicate-free list of
    keys share out the list. *)
Lemma sum_classes_cons {A : Type} (f : A → string) (ks : list string)
    (x : A) (l : list A) :
  NoDup ks →
  sum_list ((λ k, length (filter (λ y, f y = k) (x :: l))) <$> ks) =
  (if decide (f x ∈ ks) then 1 else 0)
  + sum_list ((λ k, length (filter (λ y, f y = k) l)) <$> ks).
Proof.
  induction 1 as [|k ks Hk Hnd IH]; [done|].
  rewrite !fmap_cons. cbn [sum_list sum_list_with]. rewrite IH, filter_cons.
  repeat case_decide; subst; simpl; try lia; exfalso; set_solver.
Qed.

Lemma sum_classes {A : Type} (f : A → string) (ks : list string) (l : list A) :
  NoDup ks → (∀ x, x ∈ l → f x ∈ ks) →
  sum_list ((λ k, length (filter (λ y, f y = k) l)) <$> ks) = length l.
Proof.
  intros Hnd. induction l as [|x l IH]; intros Hin.
  - clear. induction ks as [|k ks IHk]; [done|].
    rewrite fmap_cons. cbn [sum_list sum_list_with]. by rewrite IHk.
  - rewrite sum_classes_cons by done.
    rewrite decide_True by (apply Hin; left).
    rewrite IH; [done|]. intros y Hy. apply Hin. by right.
Qed.

Lemma NoDup_STAGES : NoDup STAGES.
Proof. unfold STAGES. repeat constructor; set_solver. Qed.

Lemma normalized_stage (c : Candidate.t) :
  Candidate.stage (normalized c) = normalizeStage (Candidate.stage c).
Proof. reflexivity. Qed.

Lemma elem_of_bucketOf (k : string) (c : Candidate.t) (cs : list Candidate.t) :
  c ∈ cs → (normalized c ∈ bucketOf k cs ↔ k = normalizeStage (Candidate.stage c)).
Proof.
  intros Hc. unfold bucketOf. rewrite list_elem_of_fmap. split.
  - intros (c' & Heq & Hin). apply list_elem_of_filter in Hin as [Hk _].
    rewrite <- Hk, <- !normalized_stage. by rewrite Heq.
  - intros ->. exists c. split; [done|]. by apply list_elem_of_filter.
Qed.

(** C9. The grouping is a partition of the filtered list: [normalizeStage]
    always answers one of the six [STAGES]; [byStage] always returns, with
    exactly the six keys; the bucket of a stage holds, in order, the cards
    of the candidates that normalize to it, so the card of a filtered
    candidate is in the bucket of its normalized stage and in no other;
    and the six counts add up to the length of the filtered list. *)
Theorem byStage_partition (filtered : list Candidate.t) :
  (∀ s : string, normalizeStage s ∈ STAGES) ∧
  ∃ res : gmap string (list Candidate.t),
    byStage filtered = Some res
    ∧ dom res = list_to_set STAGES
    ∧ (∀ k, k ∈ STAGES → res !! k = Some (bucketOf k filtered))
    ∧ (∀ c k, c ∈ filtered →
         (normalized c ∈ default [] (res !! k)
          ↔ k = normalizeStage (Candidate.stage c)))
    ∧ sum_list (stageCounts res) = length filtered.
Proof.
  split; [exact normalizeStage_in_STAGES|].
  destruct (byStage_spec filtered) as (res & Hrun & Hdom & Hres).
  exists res. repeat split; try done.
  - intros Hin. destruct (decide (k ∈ STAGES)) as [Hk|Hk].
    + rewrite Hres in Hin by done. simpl in Hin.
      by apply (elem_of_bucketOf k c filtered).
    + assert (res !! k = None) as Hnone.
      { apply not_elem_of_dom. rewrite Hdom. by rewrite elem_of_list_to_set. }
      rewrite Hnone in Hin. by apply elem_of_nil in Hin.
  - intros ->. rewrite Hres by apply normalizeStage_in_STAGES. simpl.
    by apply elem_of_bucketOf.
  - unfold stageCounts.
    rewrite <- (sum_classes (λ c, normalizeStage (Candidate.stage c))
                            STAGES filtered NoDup_STAGES)
      by (intros; apply normalizeStage_in_STAGES).
    f_equal. apply list_eq. intros i. rewrite !list_lookup_fmap.
    destruct (STAGES !! i) as [k|] eqn:Hk; [|done]. simpl. f_equal.
    rewrite Hres by (eapply list_elem_of_lookup_2; eauto). simpl.
    unfold bucketOf. by rewrite length_fmap.
Qed.

(** *** The loop on the store *)

Lemma Store_byStage_from_spec (filtered : list positive)
    (cs : list Candidate.t) :
  ∀ (h : gmap positive Candidate.t) (res : gmap string (list positive)),
    Forall2 (λ l c, h !! l = Some c) filtered cs →
    (∀ k, k ∈ STAGES → is_Some (res !! k)) →
    ∃ h' res',
      Store.byStage_from h res filtered = Some (h', res')
      ∧ h ⊆ h'
      ∧ ∀ k, ∃ news,
          res' !! k = (λ b, b ++ news) <$> res !! k
          ∧ Forall2 (λ l' c', h !! l' = None ∧ h' !! l' = Some c')
                    news (bucketOf k cs).
Proof.
  revert cs. induction filtered as [|l rest IH]; intros cs h res Hlive Hkeys.
  - apply Forall2_nil_inv_l in Hlive as ->.
    exists h, res. split; [done|]. split; [done|].
    intros k. exists []. split; [|constructor].
    destruct (res !! k); simpl; [|done]. by rewrite app_nil_r.
  - apply Forall2_cons_inv_l in Hlive as (c & cs' & Hl & Hrest & ->).
    set (k0 := normalizeStage (Candidate.stage c)).
    destruct (Hkeys k0 (normalizeStage_in_STAGES _)) as [b0 Hb0].
    set (f := fresh (dom h)).
    assert (h !! f = None) as Hf by (apply not_elem_of_dom, is_fresh).
    set (h1 := <[f := Candidate.with_stage k0 c]> h).
    assert (h ⊆ h1) as Hsub by (by apply insert_subseteq).
    destruct (IH cs' h1 (<[k0 := b0 ++ [f]]> res)) as (h' & res' & Hrun & Hsub' & Hres').
    { eapply Forall2_impl; [exact Hrest|]. simpl. intros a v Hav.
      eapply lookup_weaken; eauto. }
    { intros k Hk. destruct (decide (k0 = k)) as [<-|Hne].
      - rewrite lookup_insert_eq. eauto.
      - rewrite lookup_insert_ne by done. auto. }
    exists h', res'. split; [|split].
    + simpl. unfold Store.pushCard. rewrite Hl. simpl. fold k0.
      rewrite Hb0. simpl. exact Hrun.
    + by etrans.
    + intros k. destruct (Hres' k) as (news & Hk & Hnews).
      assert (Forall2 (λ l' c', h !! l' = None ∧ h' !! l' = Some c')
                      news (bucketOf k cs')) as Hnews'.
      { eapply Forall2_impl; [exact Hnews|]. simpl. intros a v [Ha Hv].
        split; [|done]. destruct (h !! a) eqn:Hha; [|done].
        eapply lookup_weaken in Hha; [|exact Hsub]. congruence. }
      rewrite bucketOf_cons. fold k0.
      destruct (decide (k0 = k)) as [<-|Hne].
      * exists (f :: news). split.
        -- rewrite Hk, lookup_insert_eq, Hb0. simpl. by rewrite <- app_assoc.
        -- constructor; [|done]. split; [done|].
           eapply lookup_weaken; [|exact Hsub']. apply lookup_insert_eq.
      * exists news. split; [|done]. by rewrite Hk, lookup_insert_ne.
Qed.

Lemma Store_emptyBuckets_lookup (k : string) :
  k ∈ STAGES → Store.emptyBuckets !! k = Some [].
Proof.
  unfold STAGES. intros H.
  repeat (apply elem_of_cons in H as [-> | H]; [reflexivity|]).
  by apply elem_of_nil in H.
Qed.

(** The loop on the store computes the buckets of [byStage]: it returns,
    changes no object that was there, and bucket by bucket its fresh
    objects are the cards of the value-level grouping. *)
Lemma Store_byStage_refines (h : gmap positive Candidate.t)
    (filtered : list positive) (cs : list Candidate.t) :
  Store.deref h filtered = Some cs →
  ∃ h' res pres,
    Store.byStage h filtered = Some (h', res)
    ∧ byStage cs = Some pres
    ∧ h ⊆ h'
    ∧ ∀ k, k ∈ STAGES →
        ∃ ls cards, res !! k = Some ls ∧ pres !! k = Some cards
                    ∧ Store.deref h' ls = Some cards
                    ∧ Forall (λ l', h !! l' = None) ls.
Proof.
  intros Hd. apply mapM_Some in Hd.
  destruct (Store_byStage_from_spec filtered cs h Store.emptyBuckets Hd)
    as (h' & res & Hrun & Hsub & Hres).
  { intros k Hk. rewrite Store_emptyBuckets_lookup; eauto. }
  destruct (byStage_spec cs) as (pres & Hprun & _ & Hpres).
  exists h', res, pres. repeat split; try done.
  intros k Hk. destruct (Hres k) as (news & Hlk & Hnews).
  rewrite Store_emptyBuckets_lookup in Hlk by done. simpl in Hlk.
  exists news, (bucketOf k cs). repeat split; auto.
  - apply mapM_Some. eapply Forall2_impl; [exact Hnews|]. by intros ?? [_ ?].
  - eapply Forall2_Forall_l; [exact Hnews|].
    apply Forall_forall. by intros ?? ? [? _].
Qed.

Lemma live_deref (h : gmap positive Candidate.t) (filtered : list positive) :
  (∀ a, a ∈ filtered → is_Some (h !! a)) →
  ∃ cs, Forall2 (λ l c, h !! l = Some c) filtered cs.
Proof.
  induction filtered as [|l rest IH]; intros Hlive.
  - exists []. constructor.
  - destruct (Hlive l) as [c Hc]; [left|].
    destruct IH as [cs Hcs]; [intros a Ha; apply Hlive; by right|].
    exists (c :: cs). by constructor.
Qed.

(** C1 (as amended). For a candidate of the filtered list whose stored
    stage is none of the six [STAGES] and, lower-cased, none of the legacy
    aliases that [normalizeStage] maps to an interview round, the grouping
    puts a fresh copy with stage [Sourced] in the [Sourced] bucket, and no
    object that existed before the grouping is changed: the stored
    candidate keeps its stage. *)
Theorem byStage_unknown_stage_Sourced
    (h : gmap positive Candidate.t) (filtered : list positive)
    (l : positive) (c : Candidate.t) :
  (∀ a, a ∈ filtered → is_Some (h !! a)) →
  l ∈ filtered → h !! l = Some c →
  isStage (Candidate.stage c) = false →
  legacyAlias (JS.toLowerCase (Candidate.stage c)) = false →
  ∃ h' res sourced,
    Store.byStage h filtered = Some (h', res)
    ∧ res !! "Sourced" = Some sourced
    ∧ (∃ l', l' ∈ sourced ∧ h !! l' = None
             ∧ h' !! l' = Some (Candidate.with_stage "Sourced" c))
    ∧ (∀ a v, h !! a = Some v → h' !! a = Some v)
    ∧ h' !! l = Some c.
Proof.
  intros Hlive Hl Hc Hstage Halias.
  destruct (live_deref h filtered Hlive) as [cs Hcs].
  destruct (Store_byStage_from_spec filtered cs h Store.emptyBuckets Hcs)
    as (h' & res & Hrun & Hsub & Hres).
  { intros k Hk. rewrite Store_emptyBuckets_lookup; eauto. }
  destruct (Hres "Sourced") as (news & Hlk & Hnews).
  exists h', res, news. split; [exact Hrun|]. split; [exact Hlk|].
  assert (∀ a v, h !! a = Some v → h' !! a = Some v) as Hframe.
  { intros a v Ha. eapply lookup_weaken; eauto. }
  split; [|split; [exact Hframe|by apply Hframe]].
  assert (c ∈ cs) as Hccs.
  { apply list_elem_of_lookup in Hl as [i Hi].
    destruct (Forall2_lookup_l _ _ _ _ _ Hcs Hi) as (c' & Hc' & Hlc).
    rewrite Hc in Hlc. injection Hlc as <-.
    eapply list_elem_of_lookup_2; eauto. }
  assert (normalized c ∈ bucketOf "Sourced" cs) as Hcard.
  { apply elem_of_bucketOf; [done|].
    symmetry. by apply normalizeStage_unknown. }
  apply list_elem_of_lookup in Hcard as [i Hi].
  destruct (Forall2_lookup_r _ _ _ _ _ Hnews Hi) as (l' & Hl' & Hnone & Hsome).
  exists l'. split; [eapply list_elem_of_lookup_2; eauto|]. split; [done|].
  rewrite Hsome. unfold normalized.
  by rewrite (normalizeStage_unknown _ Hstage Halias).
Qed.

Lemma byStage_unknown_stage_Sourced_witness :
  ∃ h' res sourced,
    Store.byStage {[1%positive := Sample.meera]} [1%positive] = Some (h', res)
    ∧ res !! "Sourced" = Some sourced
    ∧ (∃ l', l' ∈ sourced
             ∧ ({[1%positive := Sample.meera]} : gmap positive Candidate.t) !! l' = None
             ∧ h' !! l' = Some (Candidate.with_stage "Sourced" Sample.meera))
    ∧ (∀ a v, ({[1%positive := Sample.meera]} : gmap positive Candidate.t) !! a = Some v
              → h' !! a = Some v)
    ∧ h' !! 1%positive = Some Sample.meera.
Proof.
  apply (byStage_unknown_stage_Sourced
           {[1%positive := Sample.meera]} [1%positive] 1%positive Sample.meera).
  - intros a Ha. apply list_elem_of_singleton in Ha as ->.
    rewrite lookup_singleton_eq. eauto.
  - left.
  - apply lookup_singleton_eq.
  - reflexivity.
  - reflexivity.
Defined.

(** C1, as stated, fails on a legacy alias: the stored stage [applied] is
    none of the six [STAGES], and the grouping puts the card in the first
    interview round and leaves the [Sourced] bucket empty. *)
Lemma byStage_alias_not_Sourced :
  isStage (Candidate.stage Sample.kabir) = false
  ∧ ∃ h' res,
      Store.byStage {[1%positive := Sample.kabir]} [1%positive] = Some (h', res)
      ∧ res !! "Sourced" = Some []
      ∧ res !! "Interview: First Round" = Some [2%positive]
      ∧ h' !! 2%positive
        = Some (Candidate.with_stage "Interview: First Round" Sample.kabir).
Proof.
  split; [reflexivity|].
  eexists _, _. split; [vm_compute; reflexivity|].
  repeat split; vm_compute; reflexivity.
Qed.

(** ** Tag filter *)

(** The test of the [filter] callback. *)
Lemma hasAllTags_spec (filterTags : list string) (c : Candidate.t) :
  forallb (λ t, existsb (String.eqb t) (JS.toLowerCase <$> Candidate.tags c))
          (JS.toLowerCase <$> filterTags) = true
  ↔ tagsSuperset filterTags c.
Proof.
  unfold tagsSuperset. rewrite forallb_forall. split.
  - intros H t Ht.
    specialize (H (JS.toLowerCase t)).
    rewrite existsb_exists in H. destruct H as (x & Hx & Heq).
    { apply list_elem_of_In, list_elem_of_fmap. eauto. }
    apply list_elem_of_In, list_elem_of_fmap in Hx as (t' & -> & Ht').
    apply String.eqb_eq in Heq. eauto.
  - intros H x Hx.
    apply list_elem_of_In, list_elem_of_fmap in Hx as (t & -> & Ht).
    destruct (H t Ht) as (t' & Ht' & Heq).
    apply existsb_exists. exists (JS.toLowerCase t'). split.
    + apply list_elem_of_In, list_elem_of_fmap. eauto.
    + apply String.eqb_eq. done.
Qed.

Lemma filter_all {A : Type} (l : list A) : List.filter (λ _, true) l = l.
Proof. induction l as [|x l IH]; simpl; [done|]. by rewrite IH. Qed.

(** C6. The tag filter is the order-preserving selection, by one test per
    candidate, of the candidates whose tags, compared after
    [toLowerCase], contain every requested tag; a candidate that has some
    of the requested tags but not all of them is never kept. *)
Theorem tagFilter_conjunctive (filterTags : list string)
    (cands : list Candidate.t) :
  (∃ keep : Candidate.t → bool,
      (∀ c, keep c = true ↔ tagsSuperset filterTags c)
      ∧ tagFilter filterTags cands = List.filter keep cands)
  ∧ (∀ c, c ∈ tagFilter filterTags cands
          ↔ c ∈ cands ∧ tagsSuperset filterTags c)
  ∧ (∀ c, tagsMeet filterTags c → ¬ tagsSuperset filterTags c →
          c ∉ tagFilter filterTags cands).
Proof.
  set (keep := λ c : Candidate.t,
         forallb (λ t, existsb (String.eqb t)
                               (JS.toLowerCase <$> Candidate.tags c))
                 (JS.toLowerCase <$> filterTags)).
  assert (tagFilter filterTags cands = List.filter keep cands) as Heq.
  { unfold tagFilter. destruct filterTags as [|t ts]; [|done].
    symmetry. apply filter_all. }
  assert (∀ c, c ∈ tagFilter filterTags cands
               ↔ c ∈ cands ∧ tagsSuperset filterTags c) as Hin.
  { intros c. rewrite Heq, list_elem_of_In, filter_In, <- list_elem_of_In.
    unfold keep. by rewrite hasAllTags_spec. }
  split; [|split].
  - exists keep. split; [|done]. intros c. apply hasAllTags_spec.
  - exact Hin.
  - intros c _ Hnot Hc. apply Hin in Hc as [_ Hc]. contradiction.
Qed.

(** Requested [React] and [Go]: the candidate with only [React] would be
    kept by a disjunctive filter and is dropped; the one with both, in
    another case, is kept. *)
Example tagFilter_not_union :
  let both :=
    Candidate.mk "c-1" "Asha" None None ["go"; "REACT"] None JS.Null None
                 "Sourced" Sample.day in
  tagFilter ["React"; "Go"] [Sample.kabir; both; Sample.meera] = [both].
Proof. reflexivity. Qed.

(** ** Candidate update in local mode *)

Lemma assign_patchedOnly (patch : Candidate.partial) (c : Candidate.t) :
  patchedOnly patch c (Candidate.assign c patch).
Proof. by repeat split. Qed.

Lemma fmap_id_on {A : Type} (f : A → A) (l : list A) :
  (∀ x, x ∈ l → f x = x) → f <$> l = l.
Proof.
  induction l as [|x l IH]; intros H; [done|].
  rewrite fmap_cons, H by left. f_equal. apply IH. intros y Hy. apply H. by right.
Qed.

Lemma with_candidates_same (j : Job.t) :
  Job.with_candidates (Job.candidates j) j = j.
Proof. by destruct j. Qed.

(** The state transformer of [updateCandidate]. *)
Lemma patchCandidate_frame (jobId candId : string)
    (patch : Candidate.partial) (s : ATSState) :
  let s' :=
    inJob jobId (λ cs,
      (λ c, if String.eqb (Candidate.id c) candId
            then Candidate.assign c patch else c) <$> cs) s in
  candidateFrame jobId candId patch s s'
  ∧ (noMatch jobId candId s → s' = s).
Proof.
  intros s'. split.
  - split; [done|]. split; [apply length_fmap|].
    intros i j Hj. subst s'. unfold inJob. simpl.
    rewrite list_lookup_fmap, Hj. simpl.
    destruct (String.eqb (Job.id j) jobId) eqn:Hid.
    + apply String.eqb_eq in Hid.
      eexists. split; [done|]. split; [by repeat split|].
      split; [congruence|]. split; [apply length_fmap|].
      intros n c Hc. simpl. rewrite list_lookup_fmap, Hc. simpl.
      destruct (String.eqb (Candidate.id c) candId) eqn:Hcid.
      * apply String.eqb_eq in Hcid. eexists. split; [done|]. split.
        -- intros [?|?]; congruence.
        -- intros _ _. apply assign_patchedOnly.
      * apply String.eqb_neq in Hcid. eexists. split; [done|]. split; [done|].
        congruence.
    + apply String.eqb_neq in Hid.
      exists j. split; [done|]. split; [by repeat split|].
      split; [done|]. split; [done|]. intros n c Hc. exists c.
      split; [done|]. split; [done|]. congruence.
  - intros Hno. subst s'. unfold inJob. destruct s as [js sel]. simpl. f_equal.
    apply fmap_id_on. intros j Hj.
    destruct (String.eqb (Job.id j) jobId) eqn:Hid; [|done].
    apply String.eqb_eq in Hid.
    rewrite fmap_id_on; [apply with_candidates_same|].
    intros c Hc. destruct (String.eqb (Candidate.id c) candId) eqn:Hcid; [|done].
    apply String.eqb_eq in Hcid. destruct (Hno j c); auto.
Qed.

(** C10. In local mode [updateCandidate] changes nothing but the state,
    and in the state, position by position, nothing but the candidates
    with the id [candId] in the jobs with the id [jobId], which take the
    properties of the patch and keep their other fields; the selected job
    id, every other job, the other fields of the targeted job and every
    other candidate are the same, and if no candidate with that id is in
    a job with that id the state is the same. *)
Theorem updateCandidate_local_frame (jobId candId : string)
    (patch : Candidate.partial) (updated : SbResult unit) (app : App) :
  remote app = false →
  candidateFrame jobId candId patch (state app)
    (state (updateCandidate jobId candId patch updated app))
  ∧ persistMode (updateCandidate jobId candId patch updated app)
    = persistMode app
  ∧ sb (updateCandidate jobId candId patch updated app) = sb app
  ∧ notices (updateCandidate jobId candId patch updated app) = notices app
  ∧ (noMatch jobId candId (state app) →
     state (updateCandidate jobId candId patch updated app) = state app).
Proof.
  intros Hlocal. unfold updateCandidate. rewrite Hlocal. simpl.
  destruct (patchCandidate_frame jobId candId patch (state app)) as [Hf Hn].
  split; [exact Hf|]. split; [done|]. split; [done|]. split; [done|exact Hn].
Qed.

Lemma updateCandidate_local_frame_witness :
  candidateFrame "j-frontend" "c-rohit" (stagePatch "Hired") Sample.seed
    (state (updateCandidate "j-frontend" "c-rohit" (stagePatch "Hired")
                            (SbOk ()) (Sample.localApp Sample.seed)))
  ∧ Job.candidates
      <$> jobs (state (updateCandidate "j-frontend" "c-rohit"
                         (stagePatch "Hired") (SbOk ())
                         (Sample.localApp Sample.seed)))
    = [[Sample.aarav; Sample.sara;
        Candidate.with_stage "Hired" Sample.rohit]].
Proof.
  split; [|reflexivity].
  apply (updateCandidate_local_frame "j-frontend" "c-rohit"
           (stagePatch "Hired") (SbOk ()) (Sample.localApp Sample.seed)).
  reflexivity.
Defined.

(** ** Drag and drop *)

(** C5, as stated, fails for a stored stage outside [STAGES]: the card of
    [kabir] is shown in the first interview round, the normal form of his
    stored stage [applied]; dropped on that very column, his stored stage
    is rewritten and the notice is shown. *)
Lemma onDragEnd_normalized_stage_moves :
  let app := Sample.localApp Sample.two in
  let e := mkDrag (Some "c-kabir") (Some "Interview: First Round") in
  targetStage Sample.backend "Interview: First Round"
  = Some (normalizeStage (Candidate.stage Sample.kabir))
  ∧ state (onDragEnd e (SbOk ()) app) ≠ state app
  ∧ notices (onDragEnd e (SbOk ()) app) = ["Moved to Interview: First Round"]
  ∧ (Job.candidates <$> jobs (state (onDragEnd e (SbOk ()) app)))
    = [ [Sample.aarav; Sample.sara; Sample.rohit];
        [Sample.meera;
         Candidate.with_stage "Interview: First Round" Sample.kabir] ].
Proof. repeat split; try reflexivity. discriminate. Qed.

(** C5 (as amended). When the resolved target stage is the stage stored in
    the dragged candidate, [onDragEnd] does nothing: the application is
    the same, state and notices, whatever the adapter would have
    answered.  For a stored stage that is one of the six [STAGES] this is
    the case as soon as the target is its normalized stage. *)
Theorem onDragEnd_same_stage_noop (e : DragEndEvent) (updated : SbResult unit)
    (app : App) (j : Job.t) (candId overId target : string)
    (c : Candidate.t) :
  active e = Some candId → over e = Some overId →
  job (state app) = Some j →
  targetStage j overId = Some target →
  List.find (λ x, String.eqb (Candidate.id x) candId) (Job.candidates j)
  = Some c →
  Candidate.stage c = target
  ∨ (isStage (Candidate.stage c) = true
     ∧ normalizeStage (Candidate.stage c) = target) →
  onDragEnd e updated app = app.
Proof.
  intros Ha Ho Hj Ht Hc Hsame.
  assert (Candidate.stage c = target) as Heq.
  { destruct Hsame as [?|[Hs Hn]]; [done|].
    by rewrite <- Hn, normalizeStage_canonical. }
  unfold onDragEnd. rewrite Ha, Ho, Hj, Ht, Hc, Heq.
  by rewrite String.eqb_refl.
Qed.

Lemma onDragEnd_same_stage_noop_witness :
  onDragEnd (mkDrag (Some "c-rohit") (Some "Sourced")) (SbError "offline")
            (Sample.remoteApp Sample.seed)
  = Sample.remoteApp Sample.seed.
Proof.
  apply (onDragEnd_same_stage_noop _ _ _ Sample.frontend "c-rohit" "Sourced"
           "Sourced" Sample.rohit); try reflexivity.
  right. split; reflexivity.
Defined.

(** Dropped on a card, the target is the stage of that card: [rohit] on
    the card of [sara] moves to the first round. *)
Example onDragEnd_on_card :
  let app := onDragEnd (mkDrag (Some "c-rohit") (Some "c-sara")) (SbOk ())
                       (Sample.localApp Sample.seed) in
  (Candidate.stage <$> (jobs (state app) ≫= Job.candidates))
  = ["Interview: Second Round"; "Interview: First Round";
     "Interview: First Round"]
  ∧ notices app = ["Moved to Interview: First Round"].
Proof. split; reflexivity. Qed.

(** ** Remote failures *)

Lemma show_abortedWith (msg : string) (app : App) :
  abortedWith msg app (show msg app).
Proof. repeat split. simpl. apply last_snoc. Qed.

Lemma remote_failure_notice (app : App) (m : string) :
  remote app = true → failureAborts app m.
Proof.
  intros Hremote. unfold failureAborts.
  repeat match goal with |- _ ∧ _ => split end.
  - intros data jdFile uid now [r Hr]. unfold createJob.
    rewrite Hremote, Hr. eexists. split; [done|]. apply show_abortedWith.
  - intros. unfold updateJob. rewrite Hremote. apply show_abortedWith.
  - intros. unfold deleteJob. rewrite Hremote. apply show_abortedWith.
  - intros jobId data resumeFile uid now [r Hr]. unfold createCandidate.
    rewrite Hremote, Hr. eexists. split; [done|]. apply show_abortedWith.
  - intros. unfold updateCandidate. rewrite Hremote. apply show_abortedWith.
  - intros. unfold deleteCandidate. rewrite Hremote. apply show_abortedWith.
Qed.

Lemma remote_change_confirmed (app : App) :
  remote app = true → changeIsConfirmed app.
Proof.
  intros Hremote. unfold changeIsConfirmed.
  repeat match goal with |- _ ∧ _ => split end.
  - intros id patch [u|e]; [eauto|]. unfold updateJob. rewrite Hremote. done.
  - intros id [u|e]; [eauto|]. unfold deleteJob. rewrite Hremote. done.
  - intros ??? [u|e]; [eauto|]. unfold updateCandidate. rewrite Hremote. done.
  - intros ?? [u|e]; [eauto|]. unfold deleteCandidate. rewrite Hremote. done.
  - intros data f [row|e] uid now; [eauto|]. unfold createJob. rewrite Hremote.
    by destruct (uploadOptional f).
  - intros jobId data f [row|e] uid now; [eauto|]. unfold createCandidate.
    rewrite Hremote. by destruct (uploadOptional f).
Qed.

(** A create helper whose attachment cannot be stored rejects before its
    Supabase call; nothing is changed and the helper shows nothing. *)
Lemma create_upload_rejected (app : App) (f : File.t) (e : string) :
  remote app = true → File.stored f = SbError e →
  (∀ data r uid now, createJob data (Some f) r uid now app = Threw e app)
  ∧ (∀ jobId data r uid now,
       createCandidate jobId data (Some f) r uid now app = Threw e app).
Proof.
  intros Hremote Hf. split; intros;
    unfold createJob, createCandidate, uploadOptional, uploadToStorage;
    by rewrite Hremote, Hf.
Qed.

(** C3. In remote mode the failure of an operation is not always
    surfaced.  The error answer of the Supabase call of a CRUD helper
    does stop the helper with its failure notice and the state
    untouched, and the state changes only after an answer without
    error; but a job description that cannot be stored makes [createJob]
    reject before that call, and the job form does not catch it: the
    state and the notices are those of before, so nothing is shown.
    And after a refused update of an edited candidate the form shows
    Candidate updated over the notice of the failure. *)
Theorem remote_failure_unsurfaced (app : App) :
  remote app = true →
  (∀ m, failureAborts app m)
  ∧ changeIsConfirmed app
  ∧ (∀ f e vals updated inserted uid now,
       File.stored f = SbError e →
       submitJob None vals (Some f) updated inserted uid now app
       = Threw e app)
  ∧ (∀ ec vals m inserted uid now j,
       job (state app) = Some j → Candidate.id ec ≠ "temp" →
       let app' :=
         submitCandidate (Some ec) vals None (SbError m) inserted uid now
                         app in
       state app' = state app
       ∧ notices app'
         = notices app ++ ["Update candidate failed: " +:+ m;
                           "Candidate updated"]
       ∧ last (notices app') = Some "Candidate updated").
Proof.
  intros Hremote.
  split; [intros m; by apply remote_failure_notice|].
  split; [by apply remote_change_confirmed|]. split.
  - intros f e vals updated inserted uid now Hf. simpl.
    by apply (create_upload_rejected app f e Hremote Hf).
  - intros ec vals m inserted uid now j Hj Htemp app'. subst app'.
    unfold submitCandidate. rewrite Hj.
    apply String.eqb_neq in Htemp. rewrite Htemp. simpl.
    unfold updateCandidate. rewrite Hremote. simpl.
    split; [done|]. rewrite <- app_assoc. split; [done|].
    change ["Update candidate failed: " +:+ m; "Candidate updated"]
      with (["Update candidate failed: " +:+ m] ++ ["Candidate updated"]).
    by rewrite app_assoc, last_snoc.
Qed.

Lemma remote_failure_unsurfaced_witness :
  submitJob None (JobForm.vals (JobForm.mk "Data Engineer" "Platform" "Pune"))
            (Some (File.mk "jd.pdf" (SbError "storage offline")))
            (SbOk ()) (SbError "unused") "j-new" Sample.day
            (Sample.remoteApp Sample.seed)
  = Threw "storage offline" (Sample.remoteApp Sample.seed).
Proof.
  apply (remote_failure_unsurfaced (Sample.remoteApp Sample.seed) eq_refl).
  reflexivity.
Defined.

(** The answer [permission denied] to the deletion of the demo job. *)
Example deleteJob_denied :
  deleteJob "j-frontend" (SbError "permission denied")
            (Sample.remoteApp Sample.seed)
  = mkApp Sample.seed supabase true ["Delete failed: permission denied"].
Proof. reflexivity. Qed.

(** ** The selected job *)

Lemma find_selected_None (s : ATSState) :
  (∀ i, ¬ selects s i) →
  List.find (λ j, match selectedJobId s with
                  | JS.Value i => String.eqb (Job.id j) i
                  | _ => false
                  end) (jobs s) = None.
Proof.
  intros Hno. destruct (List.find _ _) as [j|] eqn:Hfind; [|done].
  apply find_some in Hfind as [Hin Heq].
  destruct (selectedJobId s) as [| |i] eqn:Hsel; try done.
  apply String.eqb_eq in Heq. destruct (Hno i). split; [done|].
  apply list_elem_of_fmap. exists j. split; [done|]. by apply list_elem_of_In.
Qed.

Lemma job_fallback (s : ATSState) : jobFallback s.
Proof.
  split; [|split].
  - intros Hnil. unfold job. by rewrite Hnil.
  - intros j0 rest Hjobs Hno. unfold job.
    rewrite (find_selected_None s Hno). by rewrite Hjobs.
  - intros i [Hsel Hin]. unfold job. rewrite Hsel.
    apply list_elem_of_fmap in Hin as (j & -> & Hj).
    destruct (List.find _ (jobs s)) as [j'|] eqn:Hfind.
    + apply find_some in Hfind as [Hin' Heq]. apply String.eqb_eq in Heq.
      exists j'. split; [done|]. split; [by apply list_elem_of_In|done].
    + apply list_elem_of_In in Hj.
      pose proof (find_none _ _ Hfind j Hj) as Hne. simpl in Hne.
      by rewrite String.eqb_refl in Hne.
Qed.

Lemma firstJobId_reselected (js : list Job.t) :
  reselected (mkState js (firstJobId js)).
Proof.
  split; simpl.
  - by intros ->.
  - intros j0 rest -> Hid. simpl. by destruct (Job.id j0).
Qed.

(** C2, as stated, fails for the import: the parsed document becomes the
    state as it is.  With one job and a [selectedJobId] that names no job
    the selection is not reset to the first job, and with no job and a
    [selectedJobId] it is not reset to [null]. *)
Lemma uploadJSON_keeps_selection :
  let dangling := mkState [Sample.frontend] (JS.Value "j-gone") in
  let orphan := mkState [] (JS.Value "j-gone") in
  (∀ s, s = dangling ∨ s = orphan →
     state <$> uploadJSON (JSON.stringify (Codec.ofState s))
                          (Sample.localApp Sample.seed)
     = Some s)
  ∧ ¬ selects dangling "j-gone"
  ∧ selectedJobId dangling ≠ JS.Value (Job.id Sample.frontend)
  ∧ selectedJobId orphan ≠ JS.Null.
Proof.
  split; [|split; [|split]]; try discriminate.
  - intros s [-> | ->]; vm_compute; reflexivity.
  - intros [_ Hin]. vm_compute in Hin.
    apply elem_of_cons in Hin as [?|Hin]; [discriminate|].
    by apply elem_of_nil in Hin.
Qed.


(** ** The name guessed from a file name *)

Lemma allChars_stripExtension (p : ascii → bool) (s : string) :
  Name.allChars p s = true → Name.allChars p (Name.stripExtension s) = true.
Proof.
  induction s as [|c r IH]; simpl; [done|].
  intros [Hc Hr]%andb_true_iff.
  destruct (Name.isDot c && negb (Name.isEmpty r) && negb (Name.hasDot r));
    simpl; [done|].
  by rewrite Hc, IH.
Qed.

Lemma allChars_app (p : ascii → bool) (a b : string) :
  Name.allChars p (a +:+ b) = Name.allChars p a && Name.allChars p b.
Proof.
  induction a as [|c a IH]; [done|].
  change (String c a +:+ b) with (String c (a +:+ b)). simpl.
  by rewrite IH, andb_assoc.
Qed.

(** Separators replaced in a string of separators and white space: only
    white space is left. *)
Lemma replace_separators_spaces (s : string) (inRun : bool) :
  Name.allChars isSeparatorOrSpace s = true →
  Name.allChars JS.isSpace
    (Name.replaceRuns_from Name.isSeparator " " inRun s) = true.
Proof.
  revert inRun. induction s as [|c r IH]; intros inRun; simpl; [done|].
  intros [Hc Hr]%andb_true_iff.
  destruct (Name.isSeparator c) eqn:Hsep.
  - destruct inRun; [by apply IH|]. rewrite allChars_app, IH by done. done.
  - simpl. unfold isSeparatorOrSpace in Hc. rewrite Hsep in Hc.
    simpl in Hc. rewrite Hc. simpl. auto.
Qed.

Lemma collapse_spaces_spaces (s : string) (inRun : bool) :
  Name.allChars JS.isSpace s = true →
  Name.allChars JS.isSpace
    (Name.replaceRuns_from JS.isSpace " " inRun s) = true.
Proof.
  revert inRun. induction s as [|c r IH]; intros inRun; simpl; [done|].
  intros [Hc Hr]%andb_true_iff. rewrite Hc.
  destruct inRun; [by apply IH|]. rewrite allChars_app, IH by done. done.
Qed.

Lemma trim_spaces (s : string) :
  Name.allChars JS.isSpace s = true → Name.trim s = EmptyString.
Proof.
  unfold Name.trim. induction s as [|c r IH]; simpl; [done|].
  intros [Hc Hr]%andb_true_iff. rewrite Hc. by apply IH.
Qed.

Lemma base_of_separators (f : string) :
  Name.allChars isSeparatorOrSpace f = true → Name.base f = EmptyString.
Proof.
  intros H. unfold Name.base, Name.replaceRuns.
  by apply trim_spaces, collapse_spaces_spaces, replace_separators_spaces,
           allChars_stripExtension.
Qed.

(** What is left after the digits are removed has no digit. *)
Lemma strip_digits_no_digit (s : string) (inRun : bool) :
  Name.allChars (λ c, negb (JS.isDigit c))
    (Name.replaceRuns_from JS.isDigit EmptyString inRun s) = true.
Proof.
  revert inRun. induction s as [|c r IH]; intros inRun; simpl; [done|].
  destruct (JS.isDigit c) eqn:Hd.
  - destruct inRun; [apply IH|]. rewrite allChars_app, IH. done.
  - simpl. rewrite Hd. simpl. apply IH.
Qed.

Lemma or_else_nonempty (a b : string) :
  b ≠ EmptyString → JS.or_else a b ≠ EmptyString.
Proof. by destruct a. Qed.

(** C8, as stated, fails: a file name without any letter, when a digit is
    left in its base name, yields that base name and not the
    placeholder. *)
Lemma guessName_digits_not_placeholder :
  Name.allChars (λ c, negb (Name.isLetter c)) "2024_01.15" = true
  ∧ Name.guessName "2024_01.15" = "2024 01"
  ∧ Name.allChars (λ c, negb (Name.isLetter c)) "123" = true
  ∧ Name.guessName "123" = "123"
  ∧ Name.guessName "123" ≠ placeholder.
Proof. repeat split; try reflexivity. discriminate. Qed.


(** ** JSON: a printed value is read back *)

Lemma parseChars_escapeChar (c : ascii) (r : list ascii) :
  JSON.parseChars (JSON.escapeChar c ++ r) = JSON.consChar c (JSON.parseChars r).
Proof.
  destruct c as [[] [] [] [] [] [] [] []]; reflexivity.
Qed.

Lemma parseChars_escape (s : string) (rest : list ascii) :
  JSON.parseChars (JSON.escape s ++ JSON.dquote :: rest) = JSON.Parsed (s, rest).
Proof.
  induction s as [|c s IH]; [reflexivity|].
  cbn [JSON.escape]. rewrite <- app_assoc, parseChars_escapeChar, IH. reflexivity.
Qed.

Lemma skipWs_newline (k : nat) (s : list ascii) :
  JSON.skipWs (JSON.newline k ++ s) = JSON.skipWs s.
Proof.
  unfold JSON.newline. cbn [app JSON.skipWs]. 
  change (JSON.isWs JSON.LF) with true. cbn iota.
  induction (2 * k) as [|n IH]; [done|]. simpl. exact IH.
Qed.

Lemma uintChars_digits (d : uint) :
  Forall (λ c, JS.isDigit c = true) (uintChars d).
Proof. induction d; constructor; auto. Qed.

Lemma spanDigits_app (ds rest : list ascii) :
  Forall (λ c, JS.isDigit c = true) ds →
  match rest with [] => True | c :: _ => JS.isDigit c = false end →
  JSON.spanDigits (ds ++ rest) = (ds, rest).
Proof.
  intros Hds Hrest. induction Hds as [|c ds Hc _ IH]; simpl.
  - destruct rest as [|c r]; [done|]. simpl. by rewrite Hrest.
  - by rewrite Hc, IH.
Qed.

Lemma uintChars_read (d : uint) :
  NilEmpty.uint_of_string (string_of_list_ascii (uintChars d)) = Some d.
Proof.
  unfold uintChars. rewrite string_of_list_ascii_of_string. apply NilEmpty.usu.
Qed.

(** The decimal digits of a number: at least one, and no leading zero
    before another digit. *)
Lemma to_uint_shape (n : N) :
  N.to_uint n = D0 Nil
  ∨ (N.to_uint n ≠ Nil ∧ ∀ d, N.to_uint n ≠ D0 d).
Proof.
  destruct n as [|p]; [by left|]. right. simpl. split.
  - apply DecimalPos.Unsigned.to_uint_nonnil.
  - intros d Hd.
    pose proof (DecimalN.Unsigned.to_of (N.to_uint (N.pos p))) as Hnorm.
    rewrite DecimalN.Unsigned.of_to in Hnorm. simpl in Hnorm.
    rewrite Hd in Hnorm. unfold unorm in Hnorm. rewrite nzhead_D0 in Hnorm.
    destruct (nzhead d) eqn:Hz; try discriminate.
    + injection Hnorm as Hn. subst d.
      apply (DecimalPos.Unsigned.to_uint_nonzero p). exact Hd.
    + by apply nzhead_nonzero in Hz.
Qed.

Lemma digits_head (n : N) :
  ∃ c more, JSON.digits n = c :: more
            ∧ JS.isDigit c = true
            ∧ (Ascii.eqb c "0" && negb (match more with [] => true | _ => false end)) = false.
Proof.
  unfold JSON.digits.
  destruct (to_uint_shape n) as [->|[Hnil Hzero]]; [by exists "0"%char, []|].
  destruct (N.to_uint n) as [|d|d|d|d|d|d|d|d|d|d] eqn:Hd; try done;
    try (eexists _, _; split; [reflexivity|]; split; reflexivity).
  by destruct (Hzero d).
Qed.

Lemma delimited_not_digit (rest : list ascii) :
  delimited rest →
  match rest with [] => True | c :: _ => JS.isDigit c = false end
  ∧ JSON.startsFraction rest = false.
Proof. destruct rest as [|c r]; [done|]. by intros [-> | ->]. Qed.

Lemma parseNat_digits (n : N) (rest : list ascii) :
  (Z.of_N n ≤ JSON.MAX_SAFE_INTEGER)%Z → delimited rest →
  JSON.parseNat (JSON.digits n ++ rest) = JSON.Parsed (n, rest).
Proof.
  intros Hsafe [Hd Hf]%delimited_not_digit. unfold JSON.parseNat.
  rewrite spanDigits_app; [|apply uintChars_digits|done].
  destruct (digits_head n) as (c & more & Heq & _ & Hzero).
  rewrite Heq, Hzero, Hf, <- Heq. unfold JSON.digits.
  fold (uintChars (N.to_uint n)). rewrite uintChars_read.
  rewrite DecimalN.Unsigned.of_to.
  by rewrite (proj2 (Z.leb_le _ _) Hsafe).
Qed.

Lemma parseNum_printNum (z : Z) (rest : list ascii) :
  safeNumber z → delimited rest →
  JSON.parseNum (JSON.printNum z ++ rest) = JSON.Parsed (JSON.Num z, rest).
Proof.
  intros [Hlo Hhi] Hrest. unfold JSON.printNum.
  destruct (z <? 0)%Z eqn:Hneg.
  - apply Z.ltb_lt in Hneg. cbn [app JSON.parseNum]. 
    change (Ascii.eqb "-" "-") with true. cbn iota.
    rewrite parseNat_digits; [|lia|done].
    destruct (Z.abs_N z =? 0)%N eqn:Hz; [apply N.eqb_eq in Hz; lia|].
    do 3 f_equal. lia.
  - apply Z.ltb_ge in Hneg.
    destruct (digits_head (Z.abs_N z)) as (c & more & Heq & Hc & _).
    rewrite Heq. cbn [app JSON.parseNum].
    assert (Ascii.eqb c "-" = false) as ->.
    { apply Ascii.eqb_neq. intros ->. discriminate. }
    change (c :: more ++ rest) with ((c :: more) ++ rest). rewrite <- Heq.
    rewrite parseNat_digits; [|lia|done]. do 3 f_equal. lia.
Qed.

(** Induction on JSON values, through the lists of arrays and objects. *)
Lemma value_ind' (P : JSON.value → Prop) :
  P JSON.Null → (∀ b, P (JSON.Bool b)) → (∀ z, P (JSON.Num z)) →
  (∀ s, P (JSON.Str s)) →
  (∀ l, Forall P l → P (JSON.Arr l)) →
  (∀ ms, Forall (λ m, P m.2) ms → P (JSON.Obj ms)) →
  ∀ v, P v.
Proof.
  intros HNull HBool HNum HStr HArr HObj.
  fix IH 1. intros [ |b|z|s|l|ms].
  - exact HNull.
  - apply HBool.
  - apply HNum.
  - apply HStr.
  - apply HArr. induction l as [|x l IHl]; constructor; [apply IH|exact IHl].
  - apply HObj. induction ms as [|[k x] ms IHms]; constructor;
      [apply IH|exact IHms].
Qed.

Lemma safeValue_Arr (l : list JSON.value) :
  safeValue (JSON.Arr l) ↔ Forall safeValue l.
Proof.
  induction l as [|x l IH]; simpl.
  - split; [constructor|done].
  - rewrite Forall_cons. simpl in IH. by rewrite IH.
Qed.

Lemma safeValue_Obj (ms : list (string * JSON.value)) :
  safeValue (JSON.Obj ms) ↔ Forall (λ m, safeValue m.2) ms.
Proof.
  induction ms as [|[k x] ms IH]; simpl.
  - split; [constructor|done].
  - rewrite Forall_cons. simpl in IH. by rewrite IH.
Qed.

Lemma parseValue_newline (fuel k : nat) (s : list ascii) :
  JSON.parseValue fuel (JSON.newline k ++ s) = JSON.parseValue fuel s.
Proof.
  destruct fuel; [done|]. remember (JSON.newline k ++ s) as s' eqn:Hs'.
  simpl. subst s'. by rewrite skipWs_newline.
Qed.

Lemma parseElements_newline (fuel k : nat) (s : list ascii) :
  JSON.parseElements fuel (JSON.newline k ++ s) = JSON.parseElements fuel s.
Proof.
  destruct fuel; [done|]. remember (JSON.newline k ++ s) as s' eqn:Hs'.
  simpl. subst s'. by rewrite parseValue_newline.
Qed.

Lemma parseMembers_newline (fuel k : nat) (s : list ascii) :
  JSON.parseMembers fuel (JSON.newline k ++ s) = JSON.parseMembers fuel s.
Proof.
  destruct fuel; [done|]. remember (JSON.newline k ++ s) as s' eqn:Hs'.
  simpl. subst s'. by rewrite skipWs_newline.
Qed.

Lemma parseValue_space (fuel : nat) (s : list ascii) :
  JSON.parseValue fuel (" "%char :: s) = JSON.parseValue fuel s.
Proof. by destruct fuel. Qed.

Lemma parseValue_number (fuel : nat) (c : ascii) (s : list ascii) :
  c = "-"%char ∨ JS.isDigit c = true →
  JSON.parseValue (S fuel) (c :: s) = JSON.parseNum (c :: s).
Proof.
  intros [->|Hc]; [reflexivity|].
  destruct c as [[] [] [] [] [] [] [] []]; try discriminate Hc; reflexivity.
Qed.

Lemma print_head (level : nat) (v : JSON.value) :
  ∃ c tl, JSON.print level v = c :: tl ∧ opens c.
Proof.
  destruct v as [ |[]|z|s|[|x xs]|[|[k x] ms]];
    try (eexists _, _; split; [reflexivity|done]).
  simpl. unfold JSON.printNum. destruct (z <? 0)%Z.
  - eexists _, _. split; [reflexivity|done].
  - destruct (digits_head (Z.abs_N z)) as (c & more & -> & Hc & _).
    exists c, more. split; [done|].
    destruct c as [[] [] [] [] [] [] [] []]; try discriminate Hc; done.
Qed.

Lemma skipWs_print (level : nat) (v : JSON.value) (s : list ascii) :
  JSON.skipWs (JSON.print level v ++ s) = JSON.print level v ++ s.
Proof.
  destruct (print_head level v) as (c & tl & -> & Hws & _).
  simpl. by rewrite Hws.
Qed.

Lemma parseElements_last (f k : nat) (s rest : list ascii) (v : JSON.value) :
  JSON.parseValue f s = JSON.Parsed (v, JSON.newline k ++ "]"%char :: rest) →
  JSON.parseElements (S f) s = JSON.Parsed ([v], rest).
Proof. intros H. simpl. rewrite H, skipWs_newline. reflexivity. Qed.

Lemma parseElements_more (f : nat) (s s2 rest : list ascii) (v : JSON.value)
    (vs : list JSON.value) :
  JSON.parseValue f s = JSON.Parsed (v, ","%char :: s2) →
  JSON.parseElements f s2 = JSON.Parsed (vs, rest) →
  JSON.parseElements (S f) s = JSON.Parsed (v :: vs, rest).
Proof. intros H H2. simpl. rewrite H. simpl. rewrite H2. reflexivity. Qed.

Lemma quote_app (k : string) (s : list ascii) :
  JSON.quote k ++ s = JSON.dquote :: JSON.escape k ++ JSON.dquote :: s.
Proof. unfold JSON.quote. simpl. by rewrite <- app_assoc. Qed.

Lemma parseMembers_key (f : nat) (k : string) (s : list ascii) :
  JSON.parseMembers (S f) (JSON.quote k ++ JSON.lit ": " ++ s) =
  match JSON.parseValue f s with
  | JSON.Parsed (v, r2) =>
    match JSON.skipWs r2 with
    | c :: r3 =>
      if Ascii.eqb c "," then
        match JSON.parseMembers f r3 with
        | JSON.Parsed (ms, rest) => JSON.Parsed ((k, v) :: ms, rest)
        | JSON.Invalid => JSON.Invalid
        | JSON.Unsupported => JSON.Unsupported
        end
      else if Ascii.eqb c "}" then JSON.Parsed ([(k, v)], r3)
      else JSON.Invalid
    | [] => JSON.Invalid
    end
  | JSON.Invalid => JSON.Invalid
  | JSON.Unsupported => JSON.Unsupported
  end.
Proof.
  rewrite quote_app.
  remember (JSON.escape k ++ JSON.dquote :: JSON.lit ": " ++ s) as t eqn:Ht.
  simpl. subst t. rewrite parseChars_escape.
  change (JSON.lit ": " ++ s) with (":"%char :: " "%char :: s).
  cbn [JSON.skipWs]. change (JSON.isWs ":") with false. cbn iota.
  change (Ascii.eqb ":" ":") with true. cbn iota.
  by rewrite parseValue_space.
Qed.

Lemma parseMembers_last (f k' : nat) (k : string) (s rest : list ascii)
    (v : JSON.value) :
  JSON.parseValue f s = JSON.Parsed (v, JSON.newline k' ++ "}"%char :: rest) →
  JSON.parseMembers (S f) (JSON.quote k ++ JSON.lit ": " ++ s)
  = JSON.Parsed ([(k, v)], rest).
Proof.
  intros H. rewrite parseMembers_key, H, skipWs_newline. reflexivity.
Qed.

Lemma parseMembers_more (f : nat) (k : string) (s s2 rest : list ascii)
    (v : JSON.value) (ms : list (string * JSON.value)) :
  JSON.parseValue f s = JSON.Parsed (v, ","%char :: s2) →
  JSON.parseMembers f s2 = JSON.Parsed (ms, rest) →
  JSON.parseMembers (S f) (JSON.quote k ++ JSON.lit ": " ++ s)
  = JSON.Parsed ((k, v) :: ms, rest).
Proof.
  intros H H2. rewrite parseMembers_key, H. simpl. rewrite H2. reflexivity.
Qed.

Lemma parseValue_array (f k : nat) (c : ascii) (tl rest : list ascii)
    (vs : list JSON.value) :
  opens c →
  JSON.parseElements f (c :: tl) = JSON.Parsed (vs, rest) →
  JSON.parseValue (S f) ("["%char :: JSON.newline k ++ c :: tl)
  = JSON.Parsed (JSON.Arr vs, rest).
Proof.
  intros (Hws & Hclose & _) H.
  remember (JSON.newline k ++ c :: tl) as t eqn:Ht.
  simpl. subst t. rewrite skipWs_newline. cbn [JSON.skipWs].
  rewrite Hws, Hclose, H. reflexivity.
Qed.

Lemma parseValue_object (f k : nat) (tl rest : list ascii)
    (ms : list (string * JSON.value)) :
  JSON.parseMembers f (JSON.dquote :: tl) = JSON.Parsed (ms, rest) →
  JSON.parseValue (S f) ("{"%char :: JSON.newline k ++ JSON.dquote :: tl)
  = JSON.Parsed (JSON.Obj ms, rest).
Proof.
  intros H.
  remember (JSON.newline k ++ JSON.dquote :: tl) as t eqn:Ht.
  simpl. subst t. rewrite skipWs_newline. cbn [JSON.skipWs].
  change (JSON.isWs JSON.dquote) with false. cbn iota.
  change (Ascii.eqb JSON.dquote "}") with false. cbn iota.
  rewrite H. reflexivity.
Qed.

Lemma delimited_printElements (level : nat) (l : list JSON.value)
    (rest : list ascii) : delimited (printElements level l ++ rest).
Proof. destruct l; [by right|by left]. Qed.

Lemma delimited_printMembers (level : nat) (l : list (string * JSON.value))
    (rest : list ascii) : delimited (printMembers level l ++ rest).
Proof. destruct l as [|[k x] l]; [by right|by left]. Qed.

Lemma printElements_cons (level : nat) (y : JSON.value)
    (ys : list JSON.value) (rest : list ascii) :
  printElements level (y :: ys) ++ rest
  = ","%char :: JSON.newline (S level) ++ JSON.print (S level) y
    ++ printElements level ys ++ rest.
Proof.
  change (printElements level (y :: ys))
    with (","%char :: JSON.newline (S level) ++ JSON.print (S level) y
          ++ printElements level ys).
  cbn [app]. by rewrite <- !app_assoc.
Qed.

Lemma printMembers_cons (level : nat) (k : string) (y : JSON.value)
    (ys : list (string * JSON.value)) (rest : list ascii) :
  printMembers level ((k, y) :: ys) ++ rest
  = ","%char :: JSON.newline (S level) ++ JSON.quote k ++ JSON.lit ": "
    ++ JSON.print (S level) y ++ printMembers level ys ++ rest.
Proof.
  change (printMembers level ((k, y) :: ys))
    with (","%char :: JSON.newline (S level) ++ JSON.quote k
          ++ JSON.lit ": " ++ JSON.print (S level) y
          ++ printMembers level ys).
  cbn [app]. by rewrite <- !app_assoc.
Qed.

Lemma elements_read_back (l : list JSON.value) :
  Forall readsBack l → Forall safeValue l →
  ∀ (x : JSON.value) (level fuel : nat) (rest : list ascii),
    readsBack x → safeValue x →
    sizes (x :: l) ≤ fuel →
    JSON.parseElements fuel
      (JSON.print (S level) x ++ printElements level l ++ rest)
    = JSON.Parsed (x :: l, rest).
Proof.
  induction 1 as [|y ys Hy _ IH]; intros Hsafe x level fuel rest Hx Hsx Hfuel;
    destruct fuel as [|f]; try (simpl in Hfuel; lia).
  - eapply parseElements_last. simpl. rewrite <- app_assoc.
    apply Hx; [done|simpl in Hfuel; lia|by right].
  - apply Forall_cons in Hsafe as [Hsy Hsys].
    change (sizes (x :: y :: ys)) with (S (size x + sizes (y :: ys))) in Hfuel.
    rewrite printElements_cons. eapply parseElements_more.
    + apply Hx; [done|lia|]. by left.
    + rewrite parseElements_newline. apply IH; [done..|lia].
Qed.

Lemma members_read_back (l : list (string * JSON.value)) :
  Forall (λ m, readsBack m.2) l → Forall (λ m, safeValue m.2) l →
  ∀ (k : string) (x : JSON.value) (level fuel : nat) (rest : list ascii),
    readsBack x → safeValue x →
    memberSizes ((k, x) :: l) ≤ fuel →
    JSON.parseMembers fuel
      (JSON.quote k ++ JSON.lit ": " ++ JSON.print (S level) x
       ++ printMembers level l ++ rest)
    = JSON.Parsed ((k, x) :: l, rest).
Proof.
  induction 1 as [|[k' y] ys Hy _ IH];
    intros Hsafe k x level fuel rest Hx Hsx Hfuel;
    destruct fuel as [|f]; try (simpl in Hfuel; lia).
  - eapply parseMembers_last. simpl. rewrite <- app_assoc.
    apply Hx; [done|simpl in Hfuel; lia|by right].
  - apply Forall_cons in Hsafe as [Hsy Hsys]. simpl in Hy, Hsy.
    change (memberSizes ((k, x) :: (k', y) :: ys))
      with (S (size x + memberSizes ((k', y) :: ys))) in Hfuel.
    rewrite printMembers_cons. eapply parseMembers_more.
    + apply Hx; [done|lia|]. by left.
    + rewrite parseMembers_newline. apply IH; [done..|lia].
Qed.

Lemma parse_print (v : JSON.value) : readsBack v.
Proof.
  induction v as [ |b|z|s|l IH|ms IH] using value_ind';
    intros Hsafe level fuel rest Hfuel Hrest;
    (destruct fuel as [|f]; [simpl in Hfuel; lia|]).
  - reflexivity.
  - by destruct b.
  - simpl in Hsafe. cbn [JSON.print].
    destruct (print_head level (JSON.Num z)) as (c & tl & Heq & _).
    assert (c = "-"%char ∨ JS.isDigit c = true) as Hc.
    { cbn [JSON.print] in Heq. unfold JSON.printNum in Heq.
      destruct (z <? 0)%Z; [injection Heq as <- _; by left|].
      destruct (digits_head (Z.abs_N z)) as (c' & more & Hd & Hc' & _).
      rewrite Hd in Heq. injection Heq as <- _. by right. }
    cbn [JSON.print] in Heq. rewrite Heq. cbn [app].
    rewrite parseValue_number by done.
    change (c :: tl ++ rest) with ((c :: tl) ++ rest). rewrite <- Heq.
    by apply parseNum_printNum.
  - cbn [JSON.print]. rewrite quote_app.
    remember (JSON.escape s ++ JSON.dquote :: rest) as t eqn:Ht.
    simpl. subst t. by rewrite parseChars_escape.
  - destruct l as [|x xs]; [reflexivity|].
    apply safeValue_Arr in Hsafe. apply Forall_cons in Hsafe as [Hsx Hsxs].
    apply Forall_cons in IH as [Hx Hxs].
    change (JSON.print level (JSON.Arr (x :: xs)))
      with ("["%char :: JSON.newline (S level) ++ JSON.print (S level) x
            ++ printElements level xs).
    destruct (print_head (S level) x) as (c & tl & Heq & Hopen).
    cbn [app]. rewrite <- !app_assoc, Heq. cbn [app].
    apply parseValue_array; [done|].
    change (c :: tl ++ printElements level xs ++ rest)
      with ((c :: tl) ++ printElements level xs ++ rest).
    rewrite <- Heq. apply elements_read_back; try done.
    change (size (JSON.Arr (x :: xs))) with (S (sizes (x :: xs))) in Hfuel. lia.
  - destruct ms as [|[k x] ms]; [reflexivity|].
    apply safeValue_Obj in Hsafe. apply Forall_cons in Hsafe as [Hsx Hsxs].
    apply Forall_cons in IH as [Hx Hxs]. simpl in Hx, Hsx.
    change (JSON.print level (JSON.Obj ((k, x) :: ms)))
      with ("{"%char :: JSON.newline (S level) ++ JSON.quote k
            ++ JSON.lit ": " ++ JSON.print (S level) x
            ++ printMembers level ms).
    cbn [app]. rewrite <- !app_assoc.
    rewrite (quote_app k). apply parseValue_object. rewrite <- quote_app.
    apply members_read_back; try done.
    change (size (JSON.Obj ((k, x) :: ms)))
      with (S (memberSizes ((k, x) :: ms))) in Hfuel. lia.
Qed.

Lemma length_newline (k : nat) : 1 ≤ length (JSON.newline k).
Proof. simpl. lia. Qed.

Lemma sizes_le_print (l : list JSON.value) (level : nat) :
  Forall fitsPrint l → sizes l ≤ length (printElements level l).
Proof.
  induction 1 as [|y ys Hy _ IH]; [simpl; lia|].
  change (sizes (y :: ys)) with (S (size y + sizes ys)).
  change (printElements level (y :: ys))
    with (","%char :: JSON.newline (S level) ++ JSON.print (S level) y
          ++ printElements level ys).
  cbn [length]. rewrite !length_app.
  pose proof (length_newline (S level)). specialize (Hy (S level)). lia.
Qed.

Lemma memberSizes_le_print (l : list (string * JSON.value)) (level : nat) :
  Forall (λ m, fitsPrint m.2) l → memberSizes l ≤ length (printMembers level l).
Proof.
  induction 1 as [|[k y] ys Hy _ IH]; [simpl; lia|].
  change (memberSizes ((k, y) :: ys)) with (S (size y + memberSizes ys)).
  change (printMembers level ((k, y) :: ys))
    with (","%char :: JSON.newline (S level) ++ JSON.quote k
          ++ JSON.lit ": " ++ JSON.print (S level) y
          ++ printMembers level ys).
  cbn [length]. rewrite !length_app.
  pose proof (length_newline (S level)). specialize (Hy (S level)).
  simpl in Hy. lia.
Qed.

Lemma size_le_print (v : JSON.value) : fitsPrint v.
Proof.
  induction v as [ |b|z|s|l IH|ms IH] using value_ind'; intros level;
    try (simpl; lia).
  - destruct l as [|x xs]; [simpl; lia|].
    apply Forall_cons in IH as [Hx Hxs].
    change (size (JSON.Arr (x :: xs))) with (S (S (size x + sizes xs))).
    change (JSON.print level (JSON.Arr (x :: xs)))
      with ("["%char :: JSON.newline (S level) ++ JSON.print (S level) x
            ++ printElements level xs).
    cbn [length]. rewrite !length_app.
    pose proof (length_newline (S level)). specialize (Hx (S level)).
    pose proof (sizes_le_print xs level Hxs). lia.
  - destruct ms as [|[k x] ms]; [simpl; lia|].
    apply Forall_cons in IH as [Hx Hxs]. simpl in Hx.
    change (size (JSON.Obj ((k, x) :: ms)))
      with (S (S (size x + memberSizes ms))).
    change (JSON.print level (JSON.Obj ((k, x) :: ms)))
      with ("{"%char :: JSON.newline (S level) ++ JSON.quote k
            ++ JSON.lit ": " ++ JSON.print (S level) x
            ++ printMembers level ms).
    cbn [length]. rewrite !length_app.
    pose proof (length_newline (S level)). specialize (Hx (S level)).
    pose proof (memberSizes_le_print ms level Hxs). lia.
Qed.

(** [JSON.parse(JSON.stringify(v, null, 2))] is [v]. *)
Lemma parse_stringify (v : JSON.value) :
  safeValue v → JSON.parse (JSON.stringify v) = JSON.Parsed v.
Proof.
  intros Hsafe. unfold JSON.parse, JSON.stringify.
  rewrite list_ascii_of_string_of_list_ascii.
  rewrite <- (app_nil_r (JSON.print 0 v)) at 2.
  rewrite (parse_print v Hsafe); [done| |done].
  pose proof (size_le_print v 0). lia.
Qed.

(** ** The typed reading of a printed state *)

Lemma mapM_fmap_Some {A B : Type} (enc : A → B) (dec : B → option A)
    (l : list A) :
  (∀ x, x ∈ l → dec (enc x) = Some x) → mapM dec (enc <$> l) = Some l.
Proof.
  intros H. apply mapM_Some, Forall2_fmap_l, Forall_Forall2_diag.
  by apply Forall_forall.
Qed.

Lemma arr_str (l : list string) :
  Codec.arr Codec.str (JSON.Arr (JSON.Str <$> l)) = Some l.
Proof. simpl. by apply mapM_fmap_Some. Qed.

Lemma fileRef_ofFileRef (r : FileRef.t) :
  Codec.fileRef (Codec.ofFileRef r) = Some r.
Proof. by destruct r. Qed.

Lemma candidate_ofCandidate (c : Candidate.t) :
  Codec.candidate (Codec.ofCandidate c) = Some c.
Proof.
  destruct c as [id name email phone tags score resume notes stage applied].
  pose proof (arr_str tags) as Htags.
  destruct email, phone, score, resume as [| |[rn ru]], notes;
    cbn -[Codec.arr] in *; rewrite Htags; reflexivity.
Qed.

Lemma arr_candidates (cs : list Candidate.t) :
  Codec.arr Codec.candidate (JSON.Arr (Codec.ofCandidate <$> cs)) = Some cs.
Proof. simpl. apply mapM_fmap_Some. intros. apply candidate_ofCandidate. Qed.

Lemma job_ofJob (j : Job.t) : Codec.job (Codec.ofJob j) = Some j.
Proof.
  destruct j as [id title department location created jd cs].
  pose proof (arr_candidates cs) as Hcs.
  destruct department, location, jd as [| |[rn ru]];
    cbn -[Codec.arr Codec.ofCandidate] in *; rewrite Hcs; reflexivity.
Qed.

Lemma arr_jobs (js : list Job.t) :
  Codec.arr Codec.job (JSON.Arr (Codec.ofJob <$> js)) = Some js.
Proof. simpl. apply mapM_fmap_Some. intros. apply job_ofJob. Qed.

Lemma state_ofState (s : ATSState) : Codec.state (Codec.ofState s) = Some s.
Proof.
  destruct s as [js sel]. pose proof (arr_jobs js) as Hjs.
  destruct sel; cbn -[Codec.arr Codec.ofJob] in *; rewrite Hjs; reflexivity.
Qed.

Lemma safe_prop (k : string) (v : option JSON.value) :
  (∀ x, v = Some x → safeValue x) →
  Forall (λ m, safeValue m.2) (Codec.prop k v).
Proof. destruct v; simpl; [|constructor]. intros H. repeat constructor. by apply H. Qed.

Lemma safe_strings (l : list string) : safeValue (JSON.Arr (JSON.Str <$> l)).
Proof. apply safeValue_Arr, Forall_fmap, Forall_true. done. Qed.

Lemma safe_ofFileRef (r : JS.nullable FileRef.t) (x : JSON.value) :
  Codec.ofNullable Codec.ofFileRef r = Some x → safeValue x.
Proof. destruct r; simpl; intros [= <-]; done. Qed.

Lemma safe_str (o : option string) (x : JSON.value) :
  JSON.Str <$> o = Some x → safeValue x.
Proof. destruct o; simpl; intros [= <-]; done. Qed.

Lemma safe_ofCandidate (c : Candidate.t) :
  safeCandidate c → safeValue (Codec.ofCandidate c).
Proof.
  intros Hc. apply safeValue_Obj. rewrite !Forall_app.
  repeat split; apply safe_prop;
    try (by intros x [= <-]); try apply safe_str; try apply safe_ofFileRef.
  - intros x [= <-]. apply safe_strings.
  - intros x Hx. destruct (Candidate.score c) as [z|] eqn:Hz; [|done].
    injection Hx as <-. by apply Hc.
Qed.

Lemma safe_ofJob (j : Job.t) :
  (∀ c, c ∈ Job.candidates j → safeCandidate c) → safeValue (Codec.ofJob j).
Proof.
  intros Hj. apply safeValue_Obj. rewrite !Forall_app.
  repeat split; apply safe_prop;
    try (by intros x [= <-]); try apply safe_str; try apply safe_ofFileRef.
  intros x [= <-]. apply safeValue_Arr, Forall_fmap, Forall_forall.
  intros c Hc. by apply safe_ofCandidate, Hj.
Qed.

Lemma safe_ofState (s : ATSState) : safeState s → safeValue (Codec.ofState s).
Proof.
  intros Hs. apply safeValue_Obj. rewrite !Forall_app.
  repeat split; apply safe_prop.
  - intros x [= <-]. apply safeValue_Arr, Forall_fmap, Forall_forall.
    intros j Hj. apply safe_ofJob. intros c Hc. by apply (Hs j c).
  - destruct (selectedJobId s); simpl; intros x [= <-]; done.
Qed.

(** ** Export and import *)


Lemma safeState_two : safeState Sample.two.
Proof.
  intros j c Hj Hc z Hz. unfold safeNumber, JSON.MAX_SAFE_INTEGER.
  unfold Sample.two in Hj. simpl in Hj.
  repeat (apply elem_of_cons in Hj as [-> | Hj];
          [simpl in Hc;
           repeat (apply elem_of_cons in Hc as [-> | Hc];
                   [simpl in Hz; try discriminate; injection Hz as <-; lia|]);
           by apply elem_of_nil in Hc|]).
  by apply elem_of_nil in Hj.
Qed.


(** C7. When the text of the file is not JSON, the import stops at its
    [catch]: the state is the one before, and the notice of the failed
    import has been shown.  More generally an import that returns either
    leaves the state as it was or replaces all of it by the parsed
    document. *)
Theorem uploadJSON_invalid_keeps_state (text : string) (app : App) :
  JSON.parse text = JSON.Invalid →
  (∃ app', uploadJSON text app = Some app'
           ∧ abortedWith "Import failed: invalid JSON" app app')
  ∧ ∀ other app',
      uploadJSON other app = Some app' →
      abortedWith "Import failed: invalid JSON" app app'
      ∨ ∃ v next, JSON.parse other = JSON.Parsed v
                  ∧ Codec.state v = Some next
                  ∧ state app' = next
                  ∧ notices app' = notices app ++ ["State imported"].
Proof.
  intros Hinvalid. split.
  - unfold uploadJSON. rewrite Hinvalid. eexists. split; [done|].
    apply show_abortedWith.
  - intros other app'. unfold uploadJSON.
    destruct (JSON.parse other) as [v| |]; [| |done].
    + destruct (Codec.state v) as [next|] eqn:Hnext; [|done].
      simpl. intros [= <-]. right. by exists v, next.
    + intros [= <-]. left. apply show_abortedWith.
Qed.

Lemma uploadJSON_invalid_keeps_state_witness :
  ∃ app', uploadJSON "{ jobs: [ " (Sample.localApp Sample.seed) = Some app'
          ∧ abortedWith "Import failed: invalid JSON"
                        (Sample.localApp Sample.seed) app'.
Proof.
  apply (uploadJSON_invalid_keeps_state "{ jobs: [ "
           (Sample.localApp Sample.seed)).
  reflexivity.
Defined.

(** The document with no jobs and no selection: the state has no job and
    the board shows none. *)
Example uploadJSON_no_jobs :
  let empty := mkState [] JS.Null in
  (state <$> uploadJSON (JSON.stringify (Codec.ofState empty))
                        (Sample.localApp Sample.seed)) = Some empty
  ∧ job empty = None.
Proof. split; vm_compute; reflexivity. Qed.

(** ** Scenarios *)

(** The seed job, [Rohit Verma] dragged from [Sourced] to [Hired]: the
    counts of the six columns, and the stages of the three candidates. *)
Example move_rohit_to_Hired :
  let app := onDragEnd (mkDrag (Some "c-rohit") (Some "Hired")) (SbOk ())
                       (Sample.localApp Sample.seed) in
  (j ← job (state app); stageCounts <$> byStage (Job.candidates j))
  = Some [0; 1; 1; 0; 1; 0]
  ∧ (Candidate.stage <$> (jobs (state app) ≫= Job.candidates))
    = ["Interview: Second Round"; "Interview: First Round"; "Hired"]
  ∧ notices app = ["Moved to Hired"].
Proof. repeat split; vm_compute; reflexivity. Qed.

(** Two resumes uploaded in local mode: the first candidate is named after
    the file, the second gets the placeholder. *)
Example bulk_upload_names :
  let file n := mkResume (File.mk n (SbError "unused")) "blob:1"
                         (SbError "unused") "c-new" Sample.day in
  let app := onResumeFiles (Some [file "John_Doe_2.pdf"; file "..."])
                           (Sample.localApp Sample.seed) in
  (Candidate.name <$> (jobs (state app) ≫= Job.candidates))
  = ["Aarav Sharma"; "Sara Khan"; "Rohit Verma"; "John Doe"; "New Candidate"]
  ∧ notices app
    = ["Candidate added"; "Candidate added"; "2 resumes uploaded"].
Proof. split; vm_compute; reflexivity. Qed.

(** * Further properties *)

(** ** Stage normalization and tags, again *)

(** X1. [normalizeStage] is idempotent: a normalized stage is not changed
    by a second normalization, so a card of the board keeps its column
    when it is grouped again. *)
Theorem normalizeStage_idempotent (s : string) :
  normalizeStage (normalizeStage s) = normalizeStage s.
Proof. apply normalizeStage_canonical, isStage_normalizeStage. Qed.

Lemma lowerCodeUnit_idempotent (c : ascii) :
  JS.lowerCodeUnit (JS.lowerCodeUnit c) = JS.lowerCodeUnit c.
Proof. destruct c as [[] [] [] [] [] [] [] []]; reflexivity. Qed.

Lemma toLowerCase_idempotent (s : string) :
  JS.toLowerCase (JS.toLowerCase s) = JS.toLowerCase s.
Proof.
  induction s as [|c s IH]; [done|]. simpl.
  by rewrite lowerCodeUnit_idempotent, IH.
Qed.

(** The test that [tagFilter] applies to each candidate. *)
Lemma tagFilter_filter (filterTags : list string) (cands : list Candidate.t) :
  tagFilter filterTags cands =
  List.filter
    (λ c, forallb (λ t, existsb (String.eqb t)
                                (JS.toLowerCase <$> Candidate.tags c))
                  (JS.toLowerCase <$> filterTags))
    cands.
Proof.
  unfold tagFilter. destruct filterTags; [|done]. symmetry. apply filter_all.
Qed.

Lemma List_filter_filter {A : Type} (p q : A → bool) (l : list A) :
  List.filter q (List.filter p l) = List.filter (λ x, p x && q x) l.
Proof.
  induction l as [|x l IH]; [done|]. simpl.
  destruct (p x); simpl; [destruct (q x)|]; by rewrite IH.
Qed.

(** X2. Tag filters compose: filtering by the tags [a] and then by the
    tags [b] is filtering by all of them at once; so a longer request
    never keeps more, and filtering twice by the same tags changes
    nothing. *)
Theorem tagFilter_compose (a b : list string) (cands : list Candidate.t) :
  tagFilter b (tagFilter a cands) = tagFilter (a ++ b) cands
  ∧ tagFilter (a ++ b) cands `sublist_of` tagFilter a cands
  ∧ tagFilter a (tagFilter a cands) = tagFilter a cands.
Proof.
  assert (∀ a b, tagFilter b (tagFilter a cands) = tagFilter (a ++ b) cands)
    as Hcomp.
  { clear. intros a b. rewrite !tagFilter_filter, List_filter_filter.
    apply filter_ext. intros c. by rewrite fmap_app, forallb_app. }
  split; [apply Hcomp|]. split.
  - rewrite <- Hcomp, (tagFilter_filter b).
    generalize (tagFilter a cands). intros l.
    induction l as [|x l IH]; simpl; [done|].
    destruct (forallb _ _); [by apply sublist_skip|by apply sublist_cons].
  - rewrite !tagFilter_filter, List_filter_filter.
    apply filter_ext. intros c. by rewrite andb_diag.
Qed.

(** X3. The tag filter does not see the case of the requested tags: two
    requests with the same lower-cased tags keep the same candidates, and
    a request may be lower-cased beforehand. *)
Theorem tagFilter_case_insensitive (a : list string)
    (cands : list Candidate.t) :
  (∀ b, JS.toLowerCase <$> a = JS.toLowerCase <$> b →
        tagFilter a cands = tagFilter b cands)
  ∧ tagFilter (JS.toLowerCase <$> a) cands = tagFilter a cands.
Proof.
  split.
  - intros b H. by rewrite !tagFilter_filter, H.
  - rewrite !tagFilter_filter.
    assert (JS.toLowerCase <$> (JS.toLowerCase <$> a) = JS.toLowerCase <$> a)
      as ->; [|done].
    rewrite <- list_fmap_compose. apply list_fmap_ext. intros i t _. simpl.
    apply toLowerCase_idempotent.
Qed.

(** ** Jobs *)

Lemma List_filter_sublist {A : Type} (p : A → bool) (l : list A) :
  List.filter p l `sublist_of` l.
Proof.
  induction l as [|x l IH]; simpl; [done|].
  destruct (p x); [by apply sublist_skip|by apply sublist_cons].
Qed.

Lemma elem_of_List_filter {A : Type} (p : A → bool) (l : list A) (x : A) :
  x ∈ List.filter p l ↔ x ∈ l ∧ p x = true.
Proof. by rewrite !list_elem_of_In, filter_In. Qed.

Lemma bind_sublist {A B : Type} (f : A → list B) (l k : list A) :
  l `sublist_of` k → (l ≫= f) `sublist_of` (k ≫= f).
Proof.
  induction 1 as [|x l k _ IH|x l k _ IH]; simpl; [done| |].
  - by apply sublist_app.
  - by apply sublist_inserts_l.
Qed.

Lemma deleteJob_state (id : string) (deleted : SbResult unit) (app : App) :
  applied app deleted →
  state (deleteJob id deleted app)
  = let js := List.filter (λ j, negb (String.eqb (Job.id j) id))
                          (jobs (state app)) in
    mkState js (firstJobId js).
Proof.
  intros Happ. unfold applied in Happ. unfold deleteJob.
  destruct (remote app); [|done]. destruct Happ as [?|[u ->]]; done.
Qed.

(** X4. Deleting a job cascades: no job with the deleted id is left, the
    jobs with another id stay in their order with all their candidates,
    and the candidates that can still be reached are exactly those of
    these jobs. *)
Theorem deleteJob_cascades (id : string) (deleted : SbResult unit)
    (app : App) :
  applied app deleted →
  jobDeleted id (state app) (state (deleteJob id deleted app)).
Proof.
  intros Happ. rewrite (deleteJob_state id deleted app Happ). simpl.
  set (keep := λ j : Job.t, negb (String.eqb (Job.id j) id)).
  assert (∀ j, keep j = true ↔ Job.id j ≠ id) as Hkeep.
  { intros j. unfold keep. rewrite negb_true_iff. apply String.eqb_neq. }
  unfold jobDeleted, allCandidates. simpl. split; [|split; [|split]].
  - intros j. by rewrite elem_of_List_filter, Hkeep.
  - apply List_filter_sublist.
  - apply bind_sublist, List_filter_sublist.
  - intros c. rewrite list_elem_of_bind. split.
    + intros (j & Hc & Hj). apply elem_of_List_filter in Hj as [Hj Hk].
      exists j. by rewrite <- Hkeep.
    + intros (j & Hj & Hid & Hc). exists j. split; [done|].
      apply elem_of_List_filter. by rewrite Hkeep.
Qed.

Lemma deleteJob_cascades_witness :
  jobDeleted "j-frontend" Sample.two
    (state (deleteJob "j-frontend" (SbOk ()) (Sample.remoteApp Sample.two))).
Proof.
  apply (deleteJob_cascades "j-frontend" (SbOk ())
           (Sample.remoteApp Sample.two)).
  right. by exists ().
Defined.

Lemma List_filter_id {A : Type} (p : A → bool) (l : list A) :
  (∀ x, x ∈ l → p x = true) → List.filter p l = l.
Proof.
  induction l as [|x l IH]; intros H; simpl; [done|].
  rewrite H by left. f_equal. apply IH. intros y Hy. apply H. by right.
Qed.

(** X5. After a deletion the selection is the first remaining job,
    whichever job was selected and whichever was deleted; deleting an id
    that no job has leaves the jobs as they are, and deleting the same id
    once more changes nothing in the state. *)
Theorem deleteJob_resets_selection (id : string) (d1 d2 : SbResult unit)
    (app : App) :
  applied app d1 → applied (deleteJob id d1 app) d2 →
  selectedJobId (state (deleteJob id d1 app))
  = firstJobId (jobs (state (deleteJob id d1 app)))
  ∧ ((∀ j, j ∈ jobs (state app) → Job.id j ≠ id) →
     state (deleteJob id d1 app)
     = mkState (jobs (state app)) (firstJobId (jobs (state app))))
  ∧ state (deleteJob id d2 (deleteJob id d1 app))
    = state (deleteJob id d1 app).
Proof.
  intros H1 H2. rewrite (deleteJob_state _ _ _ H2).
  rewrite !(deleteJob_state _ _ _ H1). simpl. split; [done|]. split.
  - intros Hno. rewrite List_filter_id; [done|].
    intros j Hj. apply negb_true_iff, String.eqb_neq. by apply Hno.
  - rewrite List_filter_filter.
    rewrite (filter_ext _ (λ j, negb (String.eqb (Job.id j) id))); [done|].
    intros j. apply andb_diag.
Qed.

Lemma deleteJob_resets_selection_witness :
  selectedJobId (state (deleteJob "j-backend" (SbOk ())
                                  (Sample.localApp Sample.two)))
  = firstJobId (jobs (state (deleteJob "j-backend" (SbOk ())
                                       (Sample.localApp Sample.two)))).
Proof.
  apply (deleteJob_resets_selection "j-backend" (SbOk ()) (SbOk ())
           (Sample.localApp Sample.two)); by left.
Defined.

(** X6. In local mode [createJob] returns, puts the new job in front of
    the others and makes it the job of the board: it is selected and found
    by its id even if another job has the same id; it has no candidate
    and its title is never empty. *)
Theorem createJob_local_current (data : Job.partial) (jdFile : option File.t)
    (inserted : SbResult JobRow.t) (uid now : string) (app : App) :
  remote app = false →
  ∃ app' newJob,
    createJob data jdFile inserted uid now app = Returned app'
    ∧ jobCreated newJob (state app) (state app')
    ∧ Job.id newJob = uid
    ∧ Job.title newJob ≠ EmptyString
    ∧ notices app' = notices app ++ ["Job created"].
Proof.
  intros Hlocal. unfold createJob. rewrite Hlocal.
  eexists _, (localJob data uid now). split; [reflexivity|]. simpl.
  split; [|split; [done|split; [|done]]].
  - split; [done|]. split; [done|]. split; [|done].
    unfold job. simpl. by rewrite String.eqb_refl.
  - destruct (Job.p_title data) as [[]|]; done.
Qed.

Lemma createJob_local_current_witness :
  ∃ app' newJob,
    createJob (Job.mkPartial None (Some EmptyString) None None None None None)
              None (SbError "unused") "j-frontend" Sample.day
              (Sample.localApp Sample.two) = Returned app'
    ∧ jobCreated newJob Sample.two (state app')
    ∧ Job.id newJob = "j-frontend"
    ∧ Job.title newJob ≠ EmptyString
    ∧ notices app' = ["Job created"].
Proof.
  apply (createJob_local_current
           (Job.mkPartial None (Some EmptyString) None None None None None)
           None (SbError "unused") "j-frontend" Sample.day
           (Sample.localApp Sample.two)).
  reflexivity.
Defined.

(** ** Candidates *)

Lemma inJob_mapped (jobId : string) (f : list Candidate.t → list Candidate.t)
    (s : ATSState) :
  candidatesMapped jobId f s (inJob jobId f s).
Proof.
  split; [done|]. split; [apply length_fmap|].
  intros i j Hj. unfold inJob. simpl. rewrite list_lookup_fmap, Hj. simpl.
  destruct (String.eqb (Job.id j) jobId) eqn:Hid.
  - apply String.eqb_eq in Hid. eexists. split; [done|].
    split; [by repeat split|]. split; [congruence|done].
  - apply String.eqb_neq in Hid. exists j. split; [done|].
    split; [by repeat split|]. split; [done|congruence].
Qed.

Lemma inJob_same (jobId : string) (f : list Candidate.t → list Candidate.t)
    (s : ATSState) :
  (∀ j, j ∈ jobs s → Job.id j = jobId →
        f (Job.candidates j) = Job.candidates j) →
  inJob jobId f s = s.
Proof.
  intros H. unfold inJob. destruct s as [js sel]. simpl in *. f_equal.
  apply fmap_id_on. intros j Hj.
  destruct (String.eqb (Job.id j) jobId) eqn:Hid; [|done].
  apply String.eqb_eq in Hid. rewrite H by done. apply with_candidates_same.
Qed.

Lemma inJob_inJob (jobId : string) (f g : list Candidate.t → list Candidate.t)
    (s : ATSState) :
  inJob jobId f (inJob jobId g s) = inJob jobId (f ∘ g) s.
Proof.
  unfold inJob. simpl. f_equal. rewrite <- list_fmap_compose.
  apply list_fmap_ext. intros i j _. simpl.
  destruct (String.eqb (Job.id j) jobId) eqn:Hid; simpl; by rewrite Hid.
Qed.




Lemma deleteCandidate_state (jobId candId : string) (deleted : SbResult unit)
    (app : App) :
  applied app deleted →
  state (deleteCandidate jobId candId deleted app)
  = inJob jobId
      (List.filter (λ c, negb (String.eqb (Candidate.id c) candId)))
      (state app).
Proof.
  intros Happ. unfold applied in Happ. unfold deleteCandidate.
  destruct (remote app); [|done]. destruct Happ as [?|[u ->]]; done.
Qed.

(** X8. Deleting a candidate removes, from the jobs with the given job id,
    every candidate with the given id and nothing else: the other
    candidates stay in their order, the other jobs and the selection are
    untouched; when no such candidate is there the state is unchanged. *)
Theorem deleteCandidate_removes (jobId candId : string)
    (deleted : SbResult unit) (app : App) :
  applied app deleted →
  candidatesMapped jobId
    (List.filter (λ c, negb (String.eqb (Candidate.id c) candId)))
    (state app) (state (deleteCandidate jobId candId deleted app))
  ∧ freshIn jobId candId (state (deleteCandidate jobId candId deleted app))
  ∧ allCandidates (state (deleteCandidate jobId candId deleted app))
    `sublist_of` allCandidates (state app)
  ∧ (freshIn jobId candId (state app) →
     state (deleteCandidate jobId candId deleted app) = state app).
Proof.
  intros Happ. rewrite (deleteCandidate_state _ _ _ _ Happ).
  set (keep := λ c : Candidate.t, negb (String.eqb (Candidate.id c) candId)).
  split; [apply inJob_mapped|]. split; [|split].
  - intros j c Hj Hid Hc. unfold inJob in Hj. simpl in Hj.
    apply list_elem_of_fmap in Hj as (j0 & -> & Hj0).
    destruct (String.eqb (Job.id j0) jobId) eqn:Hid0.
    + simpl in Hc. apply elem_of_List_filter in Hc as [_ Hc].
      by apply negb_true_iff, String.eqb_neq in Hc.
    + apply String.eqb_neq in Hid0. done.
  - unfold allCandidates, inJob. simpl.
    induction (jobs (state app)) as [|j js IH]; [done|].
    rewrite fmap_cons, !bind_cons. apply sublist_app; [|exact IH].
    destruct (String.eqb (Job.id j) jobId); [|done].
    simpl. apply List_filter_sublist.
  - intros Hfresh. apply inJob_same. intros j Hj Hid.
    apply List_filter_id. intros c Hc.
    apply negb_true_iff, String.eqb_neq. by apply (Hfresh j c).
Qed.

Lemma deleteCandidate_removes_witness :
  freshIn "j-frontend" "c-sara"
    (state (deleteCandidate "j-frontend" "c-sara" (SbOk ())
              (Sample.remoteApp Sample.seed))).
Proof.
  apply (deleteCandidate_removes "j-frontend" "c-sara" (SbOk ())
           (Sample.remoteApp Sample.seed)).
  right. by exists ().
Defined.



Lemma updateJob_state (id : string) (patch : Job.partial)
    (updated : SbResult unit) (app : App) :
  applied app updated →
  state (updateJob id patch updated app)
  = mkState ((λ j, if String.eqb (Job.id j) id
                   then Job.assign j patch else j) <$> jobs (state app))
            (selectedJobId (state app))
  ∧ notices (updateJob id patch updated app)
    = notices app ++ ["Job updated"].
Proof.
  intros Happ. unfold applied in Happ. unfold updateJob.
  destruct (remote app); [|done]. destruct Happ as [?|[u ->]]; done.
Qed.

Lemma jobsPatched_frame (id : string) (patch : Job.partial) (s : ATSState) :
  let s' := mkState ((λ j, if String.eqb (Job.id j) id
                           then Job.assign j patch else j) <$> jobs s)
                    (selectedJobId s) in
  jobsUpdated id patch s s'
  ∧ (Job.p_id patch = None → Job.p_candidates patch = None →
     allCandidates s' = allCandidates s
     ∧ Job.id <$> jobs s' = Job.id <$> jobs s).
Proof.
  intros s'. subst s'. split.
  - split; [done|]. split; [apply length_fmap|]. intros i j Hj. simpl.
    rewrite list_lookup_fmap, Hj. simpl. eexists. split; [done|].
    destruct (String.eqb (Job.id j) id) eqn:Hid.
    + apply String.eqb_eq in Hid. split; [congruence|]. split; [done|].
      split; intros H; simpl; by rewrite H.
    + apply String.eqb_neq in Hid. done.
  - intros Hpid Hpc. unfold allCandidates. simpl.
    induction (jobs s) as [|j js [IH1 IH2]]; [done|].
    rewrite !fmap_cons, !bind_cons. rewrite IH1, IH2.
    destruct (String.eqb (Job.id j) id); [|done].
    simpl. by rewrite Hpid, Hpc.
Qed.

(** X10. [updateJob] changes only the jobs with the given id, by the
    patch; a patch without [id] and without [candidates], as the job form
    and the attachment of a description send, keeps the id and all the
    candidates of every job, their number and order, and the selection. *)
Theorem updateJob_frame (id : string) (patch : Job.partial)
    (updated : SbResult unit) (app : App) :
  applied app updated →
  jobsUpdated id patch (state app) (state (updateJob id patch updated app))
  ∧ (Job.p_id patch = None → Job.p_candidates patch = None →
     allCandidates (state (updateJob id patch updated app))
     = allCandidates (state app)
     ∧ Job.id <$> jobs (state (updateJob id patch updated app))
       = Job.id <$> jobs (state app)).
Proof.
  intros Happ.
  destruct (updateJob_state id patch updated app Happ) as [-> _].
  apply jobsPatched_frame.
Qed.

Lemma updateJob_frame_witness :
  jobsUpdated "j-backend"
    (Job.mkPartial None (Some "Platform Engineer") None None None None None)
    Sample.two
    (state (updateJob "j-backend"
              (Job.mkPartial None (Some "Platform Engineer") None None None
                             None None)
              (SbOk ()) (Sample.localApp Sample.two))).
Proof.
  apply (updateJob_frame "j-backend"
           (Job.mkPartial None (Some "Platform Engineer") None None None
                          None None)
           (SbOk ()) (Sample.localApp Sample.two)).
  by left.
Defined.

(** ** Drag and drop, again *)

Lemma targetStage_isStage (j : Job.t) (overId target : string) :
  targetStage j overId = Some target → isStage target = true.
Proof.
  unfold targetStage. destruct (isStage overId) eqn:Ho; [by intros [= <-]|].
  destruct (List.find _ _) as [c|]; [|done].
  destruct (isStage (Candidate.stage c)) eqn:Hc; [by intros [= <-]|done].
Qed.

(** X11. A drag either does nothing at all, or moves the dragged candidate
    to a target that is one of the six [STAGES] and different from its
    stored stage.  The notice of the move is shown before the adapter
    answers: in remote mode an error leaves the state as it was and adds
    the failure notice after the notice of the move. *)
Theorem onDragEnd_cases (e : DragEndEvent) (updated : SbResult unit)
    (app : App) :
  onDragEnd e updated app = app
  ∨ ∃ j candId overId target c,
      active e = Some candId ∧ over e = Some overId
      ∧ job (state app) = Some j
      ∧ targetStage j overId = Some target
      ∧ c ∈ Job.candidates j ∧ Candidate.id c = candId
      ∧ Candidate.stage c ≠ target
      ∧ isStage target = true
      ∧ dragMoved (Job.id j) candId target updated app
                  (onDragEnd e updated app).
Proof.
  unfold onDragEnd.
  destruct (active e) as [candId|]; [|by left].
  destruct (over e) as [overId|]; [|by left].
  destruct (job (state app)) as [j|]; [|by left].
  destruct (targetStage j overId) as [target|] eqn:Ht; [|by left].
  destruct (List.find _ _) as [c|] eqn:Hc; [|by left].
  pose proof (targetStage_isStage _ _ _ Ht) as Hcanon. rewrite Hcanon.
  destruct (String.eqb (Candidate.stage c) target) eqn:Hs; [by left|].
  right. exists j, candId, overId, target, c.
  apply find_some in Hc as [Hin Hid].
  apply String.eqb_eq in Hid. apply String.eqb_neq in Hs.
  repeat (split; [done || by apply list_elem_of_In|]).
  simpl. unfold dragMoved, updateCandidate, remote, show, setState, moveTo.
  simpl. destruct (persistMode app), (sb app), updated as [u|m]; simpl;
    repeat split; try done.
  by rewrite <- app_assoc.
Qed.

Lemma job_inJob (jobId : string) (f : list Candidate.t → list Candidate.t)
    (s : ATSState) :
  job (inJob jobId f s)
  = (λ j, if String.eqb (Job.id j) jobId
          then Job.with_candidates (f (Job.candidates j)) j else j)
    <$> job s.
Proof.
  unfold job, inJob. simpl. destruct s as [js sel]. simpl.
  set (g := λ j : Job.t, if String.eqb (Job.id j) jobId
                         then Job.with_candidates (f (Job.candidates j)) j
                         else j).
  set (p := λ j : Job.t, match sel with
                         | JS.Value i => String.eqb (Job.id j) i
                         | _ => false
                         end).
  assert (∀ j, p (g j) = p j) as Hp.
  { intros j. unfold p, g. by destruct (String.eqb (Job.id j) jobId). }
  assert (∀ l, List.find p (g <$> l) = g <$> List.find p l) as Hfind.
  { induction l as [|x l IH]; [done|]. simpl. rewrite Hp.
    destruct (p x); [done|apply IH]. }
  rewrite Hfind. destruct (List.find p js); [done|]. by destruct js.
Qed.

Lemma stageCounts_sum (cs : list Candidate.t)
    (res : gmap string (list Candidate.t)) :
  (∀ k, k ∈ STAGES → res !! k = Some (bucketOf k cs)) →
  sum_list (stageCounts res) = length cs.
Proof.
  intros Hres. unfold stageCounts.
  rewrite <- (sum_classes (λ c, normalizeStage (Candidate.stage c))
                          STAGES cs NoDup_STAGES)
    by (intros; apply normalizeStage_in_STAGES).
  f_equal. apply list_eq. intros i. rewrite !list_lookup_fmap.
  destruct (STAGES !! i) as [k|] eqn:Hk; [|done]. simpl. f_equal.
  rewrite Hres by (eapply list_elem_of_lookup_2; eauto). simpl.
  unfold bucketOf. by rewrite length_fmap.
Qed.

Lemma moveTo_elem (candId target : string) (cs : list Candidate.t)
    (c' : Candidate.t) :
  c' ∈ moveTo candId target cs ↔
  ∃ c, c ∈ cs
       ∧ ((Candidate.id c = candId
           ∧ c' = Candidate.assign c (stagePatch target))
          ∨ (Candidate.id c ≠ candId ∧ c' = c)).
Proof.
  unfold moveTo. rewrite list_elem_of_fmap. split.
  - intros (c & -> & Hc). exists c. split; [done|].
    destruct (String.eqb (Candidate.id c) candId) eqn:Hid.
    + apply String.eqb_eq in Hid. by left.
    + apply String.eqb_neq in Hid. by right.
  - intros (c & Hc & [[Hid ->]|[Hid ->]]); exists c; split; try done.
    + apply String.eqb_eq in Hid. by rewrite Hid.
    + apply String.eqb_neq in Hid. by rewrite Hid.
Qed.

(** The state after a drag: the old one, or one card moved to a stage of
    [STAGES]. *)
Lemma onDragEnd_state (e : DragEndEvent) (updated : SbResult unit)
    (app : App) :
  state (onDragEnd e updated app) = state app
  ∨ ∃ jobId candId target,
      isStage target = true
      ∧ state (onDragEnd e updated app)
        = inJob jobId (moveTo candId target) (state app).
Proof.
  unfold onDragEnd.
  destruct (active e) as [candId|]; [|by left].
  destruct (over e) as [overId|]; [|by left].
  destruct (job (state app)) as [j|]; [|by left].
  destruct (targetStage j overId) as [target|] eqn:Ht; [|by left].
  destruct (List.find _ _) as [c|]; [|by left].
  rewrite (targetStage_isStage _ _ _ Ht).
  destruct (String.eqb (Candidate.stage c) target); [by left|].
  simpl. unfold updateCandidate, remote, show, setState. simpl.
  destruct (persistMode app), (sb app), updated as [u|m]; simpl;
    try (by left);
    right; exists (Job.id j), candId, target;
    (split; [by apply (targetStage_isStage _ _ _ Ht)|done]).
Qed.

(** X12. A drag keeps the stored stages canonical: if every stored stage
    is one of the six [STAGES] before [onDragEnd], so it is afterwards,
    whatever was dragged where and whatever the adapter answered. *)
Theorem onDragEnd_keeps_canonical (e : DragEndEvent)
    (updated : SbResult unit) (app : App) :
  canonicalStages (state app) →
  canonicalStages (state (onDragEnd e updated app)).
Proof.
  intros Hcanon.
  destruct (onDragEnd_state e updated app)
    as [->|(jobId & candId & target & Ht & ->)]; [done|].
  intros j' c' Hj' Hc'. unfold inJob in Hj'. simpl in Hj'.
  apply list_elem_of_fmap in Hj' as (j0 & -> & Hj0).
  destruct (String.eqb (Job.id j0) jobId); [|by apply (Hcanon j0 c')].
  simpl in Hc'. apply moveTo_elem in Hc' as (c0 & Hc0 & [[_ ->]|[_ ->]]);
    [done|by apply (Hcanon j0 c0)].
Qed.

Lemma canonical_seed : canonicalStages Sample.seed.
Proof.
  intros j c Hj Hc. apply list_elem_of_singleton in Hj as ->. simpl in Hc.
  repeat (apply elem_of_cons in Hc as [-> | Hc]; [reflexivity|]).
  by apply elem_of_nil in Hc.
Qed.

Lemma onDragEnd_keeps_canonical_witness :
  canonicalStages
    (state (onDragEnd (mkDrag (Some "c-rohit") (Some "c-sara")) (SbOk ())
                      (Sample.localApp Sample.seed))).
Proof.
  apply (onDragEnd_keeps_canonical (mkDrag (Some "c-rohit") (Some "c-sara"))
           (SbOk ()) (Sample.localApp Sample.seed)).
  exact canonical_seed.
Defined.

Lemma byStage_total (cs : list Candidate.t) :
  ∃ res, byStage cs = Some res
         ∧ ∀ k, k ∈ STAGES → res !! k = Some (bucketOf k cs).
Proof.
  destruct (byStage_spec cs) as (res & Hres & Hk).
  exists res. split; [done|]. intros k Hin. by apply Hk.
Qed.

(** X13. In local mode a drag that moves a card shows it in the target
    column and in no other, and the board still holds as many cards as the
    job has candidates. *)
Theorem onDragEnd_lands_in_target (e : DragEndEvent) (updated : SbResult unit)
    (app : App) (j : Job.t) (candId overId target : string)
    (c : Candidate.t) :
  remote app = false →
  active e = Some candId → over e = Some overId →
  job (state app) = Some j →
  targetStage j overId = Some target →
  List.find (λ x, String.eqb (Candidate.id x) candId) (Job.candidates j)
    = Some c →
  Candidate.stage c ≠ target →
  ∃ j' res,
    job (state (onDragEnd e updated app)) = Some j'
    ∧ Job.id j' = Job.id j
    ∧ byStage (Job.candidates j') = Some res
    ∧ sum_list (stageCounts res) = length (Job.candidates j)
    ∧ (∀ k, cardsOf candId res k ≠ [] → k = target)
    ∧ Candidate.with_stage target c ∈ cardsOf candId res target.
Proof.
  intros Hlocal Ha Ho Hj Ht Hc Hs.
  pose proof (targetStage_isStage _ _ _ Ht) as Hcanon.
  assert (state (onDragEnd e updated app)
          = inJob (Job.id j) (moveTo candId target) (state app)) as ->.
  { unfold onDragEnd. rewrite Ha, Ho, Hj, Ht, Hc, Hcanon, Hlocal.
    apply String.eqb_neq in Hs. rewrite Hs. simpl.
    unfold updateCandidate. by rewrite Hlocal. }
  rewrite job_inJob, Hj. simpl. rewrite String.eqb_refl.
  destruct (byStage_spec (moveTo candId target (Job.candidates j)))
    as (res & Hres & Hdom & Hk).
  eexists _, res. split; [reflexivity|]. split; [reflexivity|].
  split; [exact Hres|].
  split; [|split].
  - etrans; [exact (stageCounts_sum _ _ Hk)|]. unfold moveTo.
    by rewrite length_fmap.
  - intros k Hne. unfold cardsOf in Hne.
    destruct (res !! k) as [b|] eqn:Hb; [|done].
    assert (k ∈ STAGES) as Hin.
    { apply (elem_of_dom_2 (D := gset string)) in Hb.
      rewrite Hdom in Hb. by apply elem_of_list_to_set in Hb. }
    rewrite (Hk k Hin) in Hb. injection Hb as <-. simpl in Hne.
    destruct (List.filter _ _) as [|card rest] eqn:Hf; [done|].
    assert (In card (card :: rest)) as Hcard by (by left).
    rewrite <- Hf in Hcard. apply filter_In in Hcard as [Hcard Hid].
    apply list_elem_of_In in Hcard. unfold bucketOf in Hcard.
    apply list_elem_of_fmap in Hcard as (c' & -> & Hc').
    apply list_elem_of_filter in Hc' as [<- Hc'].
    apply moveTo_elem in Hc' as (c0 & _ & [[_ ->]|[Hne0 ->]]).
    + simpl. by apply normalizeStage_canonical.
    + apply String.eqb_eq in Hid. by destruct Hne0.
  - apply find_some in Hc as [Hin Hid]. apply list_elem_of_In in Hin.
    unfold cardsOf. rewrite (Hk target) by (by apply isStage_elem).
    simpl. apply list_elem_of_In, filter_In. split; [|exact Hid].
    apply list_elem_of_In.
    assert (Candidate.assign c (stagePatch target)
            ∈ moveTo candId target (Job.candidates j)) as Hmoved.
    { apply moveTo_elem. exists c. split; [done|]. left.
      by apply String.eqb_eq in Hid. }
    pose proof (elem_of_bucketOf target _ _ Hmoved) as [_ Hb].
    simpl in Hb. rewrite (normalizeStage_canonical _ Hcanon) in Hb.
    specialize (Hb eq_refl). unfold normalized in Hb. simpl in Hb.
    by rewrite (normalizeStage_canonical _ Hcanon) in Hb.
Qed.

Lemma onDragEnd_lands_in_target_witness :
  ∃ j' res,
    job (state (onDragEnd (mkDrag (Some "c-rohit") (Some "c-sara")) (SbOk ())
                          (Sample.localApp Sample.seed))) = Some j'
    ∧ Job.id j' = Job.id Sample.frontend
    ∧ byStage (Job.candidates j') = Some res
    ∧ sum_list (stageCounts res) = length (Job.candidates Sample.frontend)
    ∧ (∀ k, cardsOf "c-rohit" res k ≠ [] → k = "Interview: First Round")
    ∧ Candidate.with_stage "Interview: First Round" Sample.rohit
      ∈ cardsOf "c-rohit" res "Interview: First Round".
Proof.
  apply (onDragEnd_lands_in_target
           (mkDrag (Some "c-rohit") (Some "c-sara")) (SbOk ())
           (Sample.localApp Sample.seed) Sample.frontend
           "c-rohit" "c-sara" "Interview: First Round" Sample.rohit);
    (reflexivity || discriminate).
Defined.

(** ** Bulk resume upload, again *)

Lemma guessName_nonempty (fileName : string) :
  Name.guessName fileName ≠ EmptyString.
Proof. unfold Name.guessName. by apply or_else_nonempty. Qed.

Lemma or_default_nonempty (s d : string) :
  s ≠ EmptyString → JS.or_default (Some s) d = s.
Proof. by destruct s. Qed.

Lemma inJob_ext (jobId : string) (f g : list Candidate.t → list Candidate.t)
    (s : ATSState) :
  (∀ cs, f cs = g cs) → inJob jobId f s = inJob jobId g s.
Proof.
  intros H. unfold inJob. f_equal. apply list_fmap_ext. intros i j _.
  simpl. by rewrite H.
Qed.

Lemma inJob_append_nil (jobId : string) (s : ATSState) :
  inJob jobId (λ cs, cs ++ []) s = s.
Proof. apply inJob_same. intros j _ _. apply app_nil_r. Qed.

Lemma inJob_append_append (jobId : string) (a b : list Candidate.t)
    (s : ATSState) :
  inJob jobId (λ cs, cs ++ b) (inJob jobId (λ cs, cs ++ a) s)
  = inJob jobId (λ cs, cs ++ (a ++ b)) s.
Proof.
  rewrite inJob_inJob. apply inJob_ext. intros cs. simpl.
  by rewrite app_assoc.
Qed.

(** One file of the batch: what it adds and the one notice it shows. *)
Lemma resumeStep_effect (jobId : string) (f : ResumeUpload) (app : App) :
  ∃ added msg,
    resumeStep jobId f app
    = mkApp (inJob jobId (λ cs, cs ++ added) (state app))
            (persistMode app) (sb app) (notices app ++ [msg])
    ∧ length added ≤ 1
    ∧ (remote app = false →
       msg = "Candidate added" ∧ Forall2 bulkAdded [f] added)
    ∧ (remote app = true → resumeFailed f → added = []).
Proof.
  unfold resumeStep, createCandidate, uploadToStorage.
  destruct (remote app) eqn:Hr.
  - destruct (File.stored (ru_file f)) as [url|e] eqn:Hst.
    + simpl. destruct (ru_inserted f) as [row|m] eqn:Hins.
      * exists [candOfRow row], "Candidate added". split; [done|].
        split; [simpl; lia|]. split; [done|].
        intros _ [[e He]|[m Hm]]; congruence.
      * eexists [], _. rewrite inJob_append_nil.
        split; [by destruct app|]. split; [simpl; lia|]. done.
    + eexists [], _. rewrite inJob_append_nil.
      split; [by destruct app|]. split; [simpl; lia|]. done.
  - simpl. eexists [_], _. split; [reflexivity|]. split; [simpl; lia|].
    split; [|done]. intros _. split; [done|].
    constructor; [|constructor].
    repeat split. simpl. apply or_default_nonempty, guessName_nonempty.
Qed.

Lemma resumeSteps_effect (jobId : string) (farr : list ResumeUpload) :
  ∀ app, ∃ added msgs,
    foldl (λ a f, resumeStep jobId f a) app farr
    = mkApp (inJob jobId (λ cs, cs ++ added) (state app))
            (persistMode app) (sb app) (notices app ++ msgs)
    ∧ length msgs = length farr
    ∧ length added ≤ length farr
    ∧ (remote app = false →
       msgs = replicate (length farr) "Candidate added"
       ∧ Forall2 bulkAdded farr added)
    ∧ (remote app = true → Forall resumeFailed farr → added = []).
Proof.
  induction farr as [|f farr IH]; intros app.
  - exists [], []. rewrite inJob_append_nil, app_nil_r.
    split; [by destruct app|]. split; [done|]. split; [done|].
    split; [|done]. intros _. split; [done|constructor].
  - simpl.
    destruct (resumeStep_effect jobId f app)
      as (a1 & m1 & -> & Hlen1 & Hlocal1 & Hfail1).
    destruct (IH (mkApp (inJob jobId (λ cs, cs ++ a1) (state app))
                        (persistMode app) (sb app) (notices app ++ [m1])))
      as (a2 & m2 & -> & Hlen2 & Hle2 & Hlocal2 & Hfail2).
    simpl. exists (a1 ++ a2), (m1 :: m2).
    rewrite inJob_append_append, <- app_assoc. split; [done|].
    split; [simpl; by rewrite Hlen2|].
    split; [rewrite length_app; lia|]. split.
    + intros Hr. destruct (Hlocal1 Hr) as [-> Hf1].
      destruct (Hlocal2 Hr) as [-> Hf2]. split; [done|].
      change (f :: farr) with ([f] ++ farr). by apply Forall2_app.
    + intros Hr Hall. apply Forall_cons in Hall as [Hf Hall].
      by rewrite (Hfail1 Hr Hf), (Hfail2 Hr Hall).
Qed.





(** ** The shape of a guessed name *)

Lemma allChars_replaceRuns (q0 q cls : ascii → bool) (rep s : string)
    (inRun : bool) :
  Name.allChars q rep = true →
  (∀ c, cls c = false → q0 c = true → q c = true) →
  Name.allChars q0 s = true →
  Name.allChars q (Name.replaceRuns_from cls rep inRun s) = true.
Proof.
  intros Hrep Hq. revert inRun.
  induction s as [|c r IH]; intros inRun; simpl; [done|].
  intros [Hc Hr]%andb_true_iff. destruct (cls c) eqn:Hcls.
  - destruct inRun; [by apply IH|]. by rewrite allChars_app, Hrep, IH.
  - simpl. by rewrite (Hq c Hcls Hc), IH.
Qed.

Lemma allChars_true (s : string) : Name.allChars (λ _, true) s = true.
Proof. induction s; [done|]. simpl. done. Qed.

Lemma allChars_trimStart (q : ascii → bool) (s : string) :
  Name.allChars q s = true → Name.allChars q (Name.trimStart s) = true.
Proof.
  induction s as [|c r IH]; simpl; [done|].
  intros H. destruct (JS.isSpace c); [|done].
  apply andb_true_iff in H as [_ Hr]. by apply IH.
Qed.

Lemma allChars_trimEnd (q : ascii → bool) (s : string) :
  Name.allChars q s = true → Name.allChars q (Name.trimEnd s) = true.
Proof.
  induction s as [|c r IH]; simpl; [done|].
  intros [Hc Hr]%andb_true_iff.
  destruct (JS.isSpace c && Name.isEmpty (Name.trimEnd r)); [done|].
  simpl. by rewrite Hc, IH.
Qed.

Lemma allChars_trim (q : ascii → bool) (s : string) :
  Name.allChars q s = true → Name.allChars q (Name.trim s) = true.
Proof. intros H. by apply allChars_trimEnd, allChars_trimStart. Qed.

Lemma trimEnd_trimEnd (s : string) :
  Name.trimEnd (Name.trimEnd s) = Name.trimEnd s.
Proof.
  induction s as [|c r IH]; [done|]. simpl.
  destruct (JS.isSpace c && Name.isEmpty (Name.trimEnd r)) eqn:Hcond;
    [done|].
  simpl. by rewrite IH, Hcond.
Qed.

Lemma trimStart_head (s : string) :
  Name.trimStart s = EmptyString
  ∨ ∃ c r, Name.trimStart s = String c r ∧ JS.isSpace c = false.
Proof.
  induction s as [|c r IH]; simpl; [by left|].
  destruct (JS.isSpace c) eqn:Hc; [done|]. right. by exists c, r.
Qed.

Lemma trim_trim (s : string) : Name.trim (Name.trim s) = Name.trim s.
Proof.
  unfold Name.trim.
  destruct (trimStart_head s) as [->|(c & r & -> & Hc)]; [done|].
  simpl. rewrite Hc. simpl. rewrite Hc. simpl.
  by rewrite trimEnd_trimEnd, Hc.
Qed.

Lemma base_nameChars (fileName : string) :
  Name.allChars nameChar (Name.base fileName) = true.
Proof.
  unfold Name.base, Name.replaceRuns. apply allChars_trim.
  apply (allChars_replaceRuns (λ c, negb (Name.isSeparator c)));
    [done| |].
  - intros c Hsp Hsep. unfold nameChar. by rewrite Hsep, Hsp.
  - apply (allChars_replaceRuns (λ _, true)); [done| |apply allChars_true].
    by intros c ->.
Qed.

(** X16. A guessed name is clean: it is never empty, it has no separator
    of [[._-]] and no white space other than the space, and it neither
    starts nor ends with white space (trimming it changes nothing). *)
Theorem guessName_clean (fileName : string) :
  Name.guessName fileName ≠ EmptyString
  ∧ Name.allChars nameChar (Name.guessName fileName) = true
  ∧ Name.trim (Name.guessName fileName) = Name.guessName fileName.
Proof.
  split; [apply guessName_nonempty|]. unfold Name.guessName.
  pose proof (base_nameChars fileName) as Hbase.
  destruct (Name.trim (Name.replaceRuns JS.isDigit EmptyString
                         (Name.base fileName))) as [|c r] eqn:Hs.
  - cbn [JS.or_else]. destruct (Name.base fileName) as [|c r] eqn:Hb; [done|].
    cbn [JS.or_else]. split; [done|]. rewrite <- Hb. unfold Name.base.
    apply trim_trim.
  - cbn [JS.or_else]. rewrite <- Hs. split; [|apply trim_trim].
    apply allChars_trim. unfold Name.replaceRuns.
    by apply (allChars_replaceRuns nameChar).
Qed.

(** ** The tag box of the filter panel *)

Lemma split_cons (sep : ascii) (s : string) :
  ∃ h t, Str.split sep s = h :: t.
Proof.
  induction s as [|c r (h & t & IH)]; simpl; [by eexists _, _|].
  destruct (Ascii.eqb c sep); [by eexists _, _|].
  rewrite IH. by eexists _, _.
Qed.

Lemma split_app_sep (sep : ascii) (a b : string) :
  Str.split sep (a +:+ String sep b) = Str.split sep a ++ Str.split sep b.
Proof.
  induction a as [|c r IH].
  - simpl. by rewrite Ascii.eqb_refl.
  - change (String c r +:+ String sep b)
      with (String c (r +:+ String sep b)).
    simpl. rewrite IH. destruct (Ascii.eqb c sep); [done|].
    by destruct (split_cons sep r) as (h & t & ->).
Qed.

Lemma split_free (sep : ascii) (t : string) :
  Name.allChars (λ c, negb (Ascii.eqb c sep)) t = true → Str.split sep t = [t].
Proof.
  induction t as [|c r IH]; simpl; [done|].
  intros [Hc Hr]%andb_true_iff. apply negb_true_iff in Hc.
  by rewrite Hc, IH.
Qed.

Lemma split_fields_free (sep : ascii) (s : string) :
  Forall (λ t, Name.allChars (λ c, negb (Ascii.eqb c sep)) t = true)
         (Str.split sep s).
Proof.
  induction s as [|c r IH]; simpl; [by repeat constructor|].
  destruct (Ascii.eqb c sep) eqn:Hc; [by constructor|].
  destruct (Str.split sep r) as [|h t]; [by repeat constructor; simpl; rewrite Hc|].
  apply Forall_cons in IH as [Hh Ht]. constructor; [|done].
  simpl. by rewrite Hc, Hh.
Qed.

Lemma parseTags_app_comma (a b : string) :
  parseTags (a +:+ String "," b) = parseTags a ++ parseTags b.
Proof.
  unfold parseTags. by rewrite split_app_sep, fmap_app, List.filter_app.
Qed.

Lemma trimEnd_space (t : string) :
  Name.trimEnd (t +:+ " ") = Name.trimEnd t.
Proof.
  induction t as [|c r IH]; [done|].
  change (String c r +:+ " ") with (String c (r +:+ " ")). simpl.
  by rewrite IH.
Qed.

Lemma trim_space_end (t : string) : Name.trim (t +:+ " ") = Name.trim t.
Proof.
  unfold Name.trim. induction t as [|c r IH]; [done|].
  change (String c r +:+ " ") with (String c (r +:+ " ")). simpl.
  destruct (JS.isSpace c); [exact IH|].
  change (String c (r +:+ " ")) with (String c r +:+ " ").
  apply trimEnd_space.
Qed.

Lemma split_space_end (s : string) :
  Forall2 (λ x y, x = y ∨ x = y +:+ " ") (Str.split "," (s +:+ " ")) (Str.split "," s).
Proof.
  induction s as [|c r IH]; [by repeat constructor; right|].
  change (String c r +:+ " ") with (String c (r +:+ " ")). simpl.
  destruct (Ascii.eqb c ","); [constructor; [by left|done]|].
  destruct IH as [|x y xs ys Hxy Hrest]; [by repeat constructor; left|].
  constructor; [|done]. destruct Hxy as [->| ->]; [by left|by right].
Qed.

Lemma parseTags_space_end (s : string) :
  parseTags (s +:+ " ") = parseTags s.
Proof.
  unfold parseTags. f_equal.
  induction (split_space_end s) as [|x y xs ys Hxy _ IH]; [done|].
  rewrite !fmap_cons, IH. f_equal.
  destruct Hxy as [->| ->]; [done|apply trim_space_end].
Qed.

Lemma parseTags_space_start (s : string) :
  parseTags (String " " s) = parseTags s.
Proof.
  unfold parseTags. simpl.
  by destruct (split_cons ","%char s) as (h & t & ->).
Qed.

Lemma parseTags_tag (t : string) : tagOK t → parseTags t = [t].
Proof.
  intros (Hne & Htrim & Hfree). unfold parseTags.
  rewrite (split_free _ _ Hfree). simpl. rewrite Htrim.
  by destruct t.
Qed.

Lemma parseTags_tagBox (tags : list string) :
  Forall tagOK tags → parseTags (tagBox tags) = tags.
Proof.
  unfold tagBox. induction 1 as [|t rest Ht Hrest IH]; [done|].
  destruct rest as [|t' rest]; [by apply parseTags_tag|].
  change (Str.join ", " (t :: t' :: rest))
    with (t +:+ String "," (String " " (Str.join ", " (t' :: rest)))).
  by rewrite parseTags_app_comma, parseTags_space_start, IH,
             parseTags_tag.
Qed.

(** X17. Whatever is typed into the tag box, the tags of the filter are
    well formed: no tag is empty, starts or ends with white space, or
    holds a comma. *)
Theorem parseTags_wellformed (text : string) :
  Forall tagOK (parseTags text).
Proof.
  unfold parseTags. apply Forall_forall. intros t Ht.
  apply list_elem_of_In, filter_In in Ht as [Ht Hne].
  apply list_elem_of_In, list_elem_of_fmap in Ht as (f & -> & Hf).
  pose proof (split_fields_free "," text) as Hfree.
  rewrite Forall_forall in Hfree. specialize (Hfree f Hf).
  split; [by destruct (Name.trim f)|].
  split; [apply trim_trim|by apply allChars_trim].
Qed.

(** X18. The tag box shows the tags of the filter joined by a comma and a
    space, and reading that text gives the same tags back.  A comma or a
    space typed at its end is lost: the tags, and with them the text of
    the box, stay as they were. *)
Theorem tagBox_swallows_separator (tags : list string) :
  Forall tagOK tags →
  parseTags (tagBox tags) = tags
  ∧ parseTags (tagBox tags +:+ ",") = tags
  ∧ parseTags (tagBox tags +:+ " ") = tags
  ∧ tagBox (parseTags (tagBox tags +:+ ",")) = tagBox tags.
Proof.
  intros Hok. pose proof (parseTags_tagBox tags Hok) as Hbox.
  assert (parseTags (tagBox tags +:+ ",") = tags) as Hcomma.
  { rewrite parseTags_app_comma, Hbox. apply app_nil_r. }
  split; [done|]. split; [done|].
  split; [by rewrite parseTags_space_end|by rewrite Hcomma].
Qed.

Lemma tagBox_swallows_separator_witness :
  parseTags (tagBox ["React"; "Type Script"]) = ["React"; "Type Script"]
  ∧ parseTags (tagBox ["React"; "Type Script"] +:+ ",")
    = ["React"; "Type Script"]
  ∧ parseTags (tagBox ["React"; "Type Script"] +:+ " ")
    = ["React"; "Type Script"]
  ∧ tagBox (parseTags (tagBox ["React"; "Type Script"] +:+ ","))
    = tagBox ["React"; "Type Script"].
Proof.
  apply (tagBox_swallows_separator ["React"; "Type Script"]).
  repeat constructor; discriminate.
Defined.

(** ** The filtered list *)

Lemma tagFilter_elem (filterTags : list string) (cands : list Candidate.t)
    (c : Candidate.t) :
  c ∈ tagFilter filterTags cands ↔ c ∈ cands ∧ tagsSuperset filterTags c.
Proof.
  by rewrite tagFilter_filter, elem_of_List_filter, hasAllTags_spec.
Qed.

Lemma tagFilter_sublist (filterTags : list string)
    (cands : list Candidate.t) :
  tagFilter filterTags cands `sublist_of` cands.
Proof. rewrite tagFilter_filter. apply List_filter_sublist. Qed.

Lemma filtered_elem
    (fuseSearch : string → list Candidate.t → list Candidate.t)
    (isAfterDayBefore isBeforeDayAfter : string → string → bool)
    (j : Job.t) (query : string) (filters : Filters.t) (c : Candidate.t) :
  c ∈ filtered fuseSearch isAfterDayBefore isBeforeDayAfter (Some j) query
               filters
  ↔ c ∈ searched fuseSearch query (Job.candidates j)
    ∧ tagsSuperset (Filters.tags filters) c
    ∧ scoreWithin filters c
    ∧ appliedWithin isAfterDayBefore isBeforeDayAfter filters c.
Proof.
  unfold filtered, scoreWithin, appliedWithin.
  destruct filters as [tags smin smax from to]. simpl.
  assert (∀ (o : option string) (test : string → string → bool)
            (l : list Candidate.t),
            c ∈ match o with
                | Some (String a r) =>
                    List.filter (λ c, test (Candidate.appliedAt c)
                                           (String a r)) l
                | _ => l
                end
            ↔ c ∈ l ∧ (∀ d, o = Some d → d ≠ EmptyString →
                            test (Candidate.appliedAt c) d = true))
    as Hdate.
  { intros [[|a r]|] test l; rewrite ?elem_of_List_filter.
    - split; [intros H; split; [done|]; by intros d [= <-]|by intros [H _]].
    - split; intros [H1 H2]; (split; [done|]).
      + by intros d [= <-] _.
      + by apply H2.
    - split; [by intros H|by intros [H _]]. }
  assert (∀ (o : option Z) (test : Z → Candidate.t → bool)
            (P : Z → Z → Prop) (l : list Candidate.t),
            (∀ m, test m c = true
                  ↔ ∃ z, Candidate.score c = Some z ∧ P m z) →
            c ∈ match o with
                | Some m => List.filter (test m) l
                | None => l
                end
            ↔ c ∈ l ∧ (∀ m, o = Some m →
                            ∃ z, Candidate.score c = Some z ∧ P m z))
    as Hscore.
  { intros [m|] test P l Htest; rewrite ?elem_of_List_filter.
    - rewrite Htest. split; intros [H1 H2]; (split; [done|]).
      + by intros m' [= <-].
      + by apply H2.
    - split; [by intros H|by intros [H _]]. }
  rewrite Hdate, Hdate.
  rewrite (Hscore smax scoreAtMost (λ m z, (z ≤ m)%Z)); last first.
  { intros m. unfold scoreAtMost. destruct (Candidate.score c) as [z|].
    - rewrite Z.leb_le. split; [by exists z|by intros (z' & [= <-] & H)].
    - split; [done|by intros (z' & [=] & _)]. }
  rewrite (Hscore smin scoreAtLeast (λ m z, (m ≤ z)%Z)); last first.
  { intros m. unfold scoreAtLeast. destruct (Candidate.score c) as [z|].
    - rewrite Z.leb_le. split; [by exists z|by intros (z' & [= <-] & H)].
    - split; [done|by intros (z' & [=] & _)]. }
  rewrite tagFilter_elem. tauto.
Qed.

(** X19. The board shows the candidates of the current job (or, with a
    query, the results of the search, in its order) that pass every filter
    that is set, in their order: all the requested tags, a score within
    the bounds, an application date within the dates.  A candidate
    without a score is hidden by either score bound. *)
Theorem filtered_spec
    (fuseSearch : string → list Candidate.t → list Candidate.t)
    (isAfterDayBefore isBeforeDayAfter : string → string → bool)
    (j : Job.t) (query : string) (filters : Filters.t) :
  let shown :=
    filtered fuseSearch isAfterDayBefore isBeforeDayAfter (Some j) query
             filters in
  let source := searched fuseSearch query (Job.candidates j) in
  shown `sublist_of` source
  ∧ (∀ c, c ∈ shown ↔
          c ∈ source
          ∧ tagsSuperset (Filters.tags filters) c
          ∧ scoreWithin filters c
          ∧ appliedWithin isAfterDayBefore isBeforeDayAfter filters c)
  ∧ (∀ c, c ∈ shown → Candidate.score c = None →
          Filters.scoreMin filters = None ∧ Filters.scoreMax filters = None).
Proof.
  intros shown source.
  split; [|split; [intros c; apply filtered_elem|]].
  - subst shown source. unfold filtered.
    repeat match goal with
           | |- context [match ?o with Some _ => _ | None => _ end] =>
               destruct o as [?|]
           | |- context [match ?s with EmptyString => _ | String _ _ => _ end] =>
               destruct s as [|? ?]
           end;
      repeat (etrans; [apply List_filter_sublist|]);
      apply tagFilter_sublist.
  - intros c Hc Hnone. apply filtered_elem in Hc as (_ & _ & [Hmin Hmax] & _).
    split.
    + destruct (Filters.scoreMin filters) as [m|]; [|done].
      destruct (Hmin m eq_refl) as (z & Hz & _). congruence.
    + destruct (Filters.scoreMax filters) as [m|]; [|done].
      destruct (Hmax m eq_refl) as (z & Hz & _). congruence.
Qed.

(** X20. Without a query and without filters the board shows every
    candidate of the job; with a lower score bound above the upper one it
    shows none; and what it shows is grouped into as many cards as
    candidates pass. *)
Theorem filtered_extremes
    (fuseSearch : string → list Candidate.t → list Candidate.t)
    (isAfterDayBefore isBeforeDayAfter : string → string → bool)
    (j : Job.t) (query : string) (filters : Filters.t) :
  let shown :=
    filtered fuseSearch isAfterDayBefore isBeforeDayAfter (Some j) query
             filters in
  (Name.trim query = EmptyString →
   filters = Filters.mk [] None None None None →
   shown = Job.candidates j)
  ∧ (∀ min max, Filters.scoreMin filters = Some min →
                Filters.scoreMax filters = Some max →
                (max < min)%Z → shown = [])
  ∧ ∃ res, byStage shown = Some res
           ∧ sum_list (stageCounts res) = length shown.
Proof.
  intros shown. split; [|split].
  - intros Hq ->. subst shown. unfold filtered, searched. by rewrite Hq.
  - intros min max Hmin Hmax Hlt.
    destruct shown as [|c rest] eqn:Hshown; [done|]. exfalso.
    assert (c ∈ shown) as Hc by (rewrite Hshown; left).
    apply filtered_elem in Hc as (_ & _ & [H1 H2] & _).
    destruct (H1 min Hmin) as (z & Hz & Hle1).
    destruct (H2 max Hmax) as (z' & Hz' & Hle2).
    rewrite Hz in Hz'. injection Hz' as <-. lia.
  - destruct (byStage_total shown) as (res & Hres & Hk).
    exists res. split; [done|]. by apply stageCounts_sum.
Qed.

(** ** The candidate form *)

Lemma form_patch_same (c : Candidate.t) :
  filledIn c → Candidate.stage c ≠ EmptyString →
  Forall tagOK (Candidate.tags c) →
  Candidate.assign c (CandidateForm.vals (CandidateForm.init (Some c))) = c.
Proof.
  intros ([e He] & [p Hp] & [n Hn]) Hstage Htags.
  destruct c as [id name email phone tags score resume notes stage applied].
  simpl in *. subst. unfold Candidate.assign, CandidateForm.vals. simpl.
  rewrite parseTags_tagBox by done. by destruct stage.
Qed.

Lemma patch_same_state (jobId candId : string) (patch : Candidate.partial)
    (s : ATSState) :
  (∀ j c, j ∈ jobs s → Job.id j = jobId → c ∈ Job.candidates j →
          Candidate.id c = candId → Candidate.assign c patch = c) →
  inJob jobId (λ cs, (λ c, if String.eqb (Candidate.id c) candId
                           then Candidate.assign c patch else c) <$> cs) s
  = s.
Proof.
  intros H. apply inJob_same. intros j Hj Hid. apply fmap_id_on.
  intros c Hc. destruct (String.eqb (Candidate.id c) candId) eqn:Hc'; [|done].
  apply String.eqb_eq in Hc'. by apply (H j c).
Qed.


(** ** The submit handlers *)

Lemma attachResume_cases (vals : Candidate.partial) (file : option File.t)
    (app : App) :
  (attachResume vals file app = (vals, app)
   ∧ (remote app = false ∨ file = None))
  ∨ (∃ f url, remote app = true ∧ file = Some f
              ∧ File.stored f = SbOk url
              ∧ attachResume vals file app
                = (withResume vals (FileRef.mk (File.name f) url), app))
  ∨ (∃ f e, remote app = true ∧ file = Some f
            ∧ File.stored f = SbError e
            ∧ attachResume vals file app
              = (vals, show ("Resume upload failed: " +:+ e) app)).
Proof.
  unfold attachResume, uploadToStorage.
  destruct file as [f|]; [|left; split; [done|by right]].
  destruct (remote app) eqn:Hr; [|left; split; [done|by left]].
  destruct (File.stored f) as [url|e] eqn:Hst.
  - right; left. by exists f, url.
  - right; right. by exists f, e.
Qed.

Lemma updateCandidate_state (jobId candId : string)
    (patch : Candidate.partial) (updated : SbResult unit) (app : App) :
  persistMode (updateCandidate jobId candId patch updated app)
  = persistMode app
  ∧ sb (updateCandidate jobId candId patch updated app) = sb app
  ∧ ((∃ m, remote app = true ∧ updated = SbError m
           ∧ state (updateCandidate jobId candId patch updated app)
             = state app
           ∧ notices (updateCandidate jobId candId patch updated app)
             = notices app ++ ["Update candidate failed: " +:+ m])
     ∨ (applied app updated
        ∧ state (updateCandidate jobId candId patch updated app)
          = inJob jobId (λ cs,
              (λ c, if String.eqb (Candidate.id c) candId
                    then Candidate.assign c patch else c) <$> cs)
              (state app)
        ∧ notices (updateCandidate jobId candId patch updated app)
          = notices app)).
Proof.
  unfold updateCandidate, applied.
  destruct (remote app) eqn:Hr; [destruct updated as [u|m]|]; simpl;
    (split; [done|]); (split; [done|]).
  - right. split; [right; by exists u|done].
  - left. by exists m.
  - right. split; [by left|done].
Qed.

(** X22. Saving an edited candidate always ends with the notice
    Candidate updated: also when the adapter refused the update, where
    the state is the old one and the notice of the failure comes just
    before it; and also after a resume upload that failed, which the
    handler reports and survives (the candidate is updated without the
    resume).  In local mode the attached file is not looked at. *)
Theorem submitCandidate_edit_notices (ec : Candidate.t)
    (vals : Candidate.partial) (file : option File.t)
    (updated : SbResult unit) (inserted : SbResult CandRow.t)
    (uid now : string) (app : App) (j : Job.t) :
  job (state app) = Some j →
  Candidate.id ec ≠ "temp" →
  let app' :=
    submitCandidate (Some ec) vals file updated inserted uid now app in
  (∃ before, notices app' = notices app ++ before ++ ["Candidate updated"])
  ∧ (∀ m, remote app = true → updated = SbError m →
       state app' = state app
       ∧ ∃ before,
           notices app'
           = notices app ++ before ++ ["Update candidate failed: " +:+ m;
                                       "Candidate updated"])
  ∧ (∀ f e, remote app = true → file = Some f →
       File.stored f = SbError e →
       (∃ after,
          notices app'
          = notices app ++ ["Resume upload failed: " +:+ e] ++ after)
       ∧ state app'
         = state (updateCandidate (Job.id j) (Candidate.id ec) vals
                                  updated app))
  ∧ (remote app = false →
       app' = show "Candidate updated"
                (updateCandidate (Job.id j) (Candidate.id ec) vals updated
                                 app)).
Proof.
  intros Hj Htemp app'. subst app'. unfold submitCandidate. rewrite Hj.
  apply String.eqb_neq in Htemp. rewrite Htemp. simpl.
  destruct (attachResume_cases vals file app)
    as [[-> Hnone]|[(f & url & Hr & -> & Hst & ->)
                   |(f & e & Hr & -> & Hst & ->)]].
  - split; [|split; [|split]].
    + destruct (updateCandidate_state (Job.id j) (Candidate.id ec) vals
                  updated app)
        as (_ & _ & [(m & _ & _ & _ & Hn)|(_ & _ & Hn)]); simpl; rewrite Hn.
      * eexists [_]. by rewrite <- app_assoc.
      * by exists [].
    + intros m Hr ->. unfold updateCandidate. rewrite Hr. simpl.
      split; [done|]. exists []. by rewrite <- app_assoc.
    + intros f e Hr -> Hst. destruct Hnone as [Hl|[=]]. congruence.
    + done.
  - split; [|split; [|split]].
    + destruct (updateCandidate_state (Job.id j) (Candidate.id ec)
                  (withResume vals (FileRef.mk (File.name f) url))
                  updated app)
        as (_ & _ & [(m & _ & _ & _ & Hn)|(_ & _ & Hn)]); simpl; rewrite Hn.
      * eexists [_]. by rewrite <- app_assoc.
      * by exists [].
    + intros m _ ->. unfold updateCandidate. rewrite Hr. simpl.
      split; [done|]. exists []. by rewrite <- app_assoc.
    + intros f' e [=] [= <-] Hst'. congruence.
    + congruence.
  - assert (remote (show ("Resume upload failed: " +:+ e) app) = true)
      as Hr' by done.
    split; [|split; [|split]].
    + destruct (updateCandidate_state (Job.id j) (Candidate.id ec) vals
                  updated (show ("Resume upload failed: " +:+ e) app))
        as (_ & _ & [(m & _ & _ & _ & Hn)|(_ & _ & Hn)]); simpl; rewrite Hn;
        simpl.
      * eexists [_; _]. by rewrite <- !app_assoc.
      * eexists [_]. by rewrite <- !app_assoc.
    + intros m _ ->. unfold updateCandidate. rewrite Hr'. simpl.
      split; [done|]. eexists [_]. by rewrite <- !app_assoc.
    + intros f' e' _ [= <-] Hst'. rewrite Hst in Hst'. injection Hst' as <-.
      unfold updateCandidate. rewrite Hr', Hr.
      destruct updated as [u|m]; simpl.
      * split; [|done]. eexists [_]. by rewrite <- !app_assoc.
      * split; [|done]. eexists [_; _]. by rewrite <- !app_assoc.
    + congruence.
Qed.

Lemma submitCandidate_edit_notices_witness :
  ∃ before,
    notices (submitCandidate (Some Sample.rohit) (stagePatch "Hired")
               (Some (File.mk "cv.pdf" (SbError "quota")))
               (SbError "denied") (SbError "unused") "u" Sample.day
               (Sample.remoteApp Sample.seed))
    = [] ++ before ++ ["Candidate updated"].
Proof.
  exact (proj1 (submitCandidate_edit_notices Sample.rohit
                  (stagePatch "Hired")
                  (Some (File.mk "cv.pdf" (SbError "quota")))
                  (SbError "denied") (SbError "unused") "u" Sample.day
                  (Sample.remoteApp Sample.seed) Sample.frontend
                  eq_refl ltac:(discriminate))).
Defined.



(** ** Job descriptions *)

(** X24. Attaching a job description to the current job: the description
    is set on the jobs with its id and nothing else changes (ids,
    candidates, selection).  In remote mode a file that cannot be stored
    changes nothing but the notices; and the notice JD attached is shown
    before the adapter answers, so a refused update leaves the state as
    it was with that notice followed by the notice of the failure. *)
Theorem onJDFile_cases (f : File.t) (objectUrl : string)
    (updated : SbResult unit) (app : App) (j : Job.t) :
  job (state app) = Some j →
  let app' := onJDFile (Some f) objectUrl updated app in
  (remote app = false →
   jobsUpdated (Job.id j) (jdPatch (FileRef.mk (File.name f) objectUrl))
               (state app) (state app')
   ∧ notices app' = notices app ++ ["Job updated"; "JD attached"])
  ∧ (∀ e, remote app = true → File.stored f = SbError e →
       app' = show ("JD upload failed: " +:+ e) app)
  ∧ (∀ url m, remote app = true → File.stored f = SbOk url →
       updated = SbError m →
       state app' = state app
       ∧ notices app'
         = notices app ++ ["JD attached"; "Update failed: " +:+ m])
  ∧ (∀ url u, remote app = true → File.stored f = SbOk url →
       updated = SbOk u →
       jobsUpdated (Job.id j) (jdPatch (FileRef.mk (File.name f) url))
                   (state app) (state app')
       ∧ notices app' = notices app ++ ["JD attached"; "Job updated"])
  ∧ allCandidates (state app') = allCandidates (state app)
  ∧ Job.id <$> jobs (state app') = Job.id <$> jobs (state app).
Proof.
  intros Hj app'. subst app'. unfold onJDFile, uploadToStorage. rewrite Hj.
  destruct (remote app) eqn:Hr.
  - destruct (File.stored f) as [url|e] eqn:Hst.
    + assert (remote (show "JD attached" app) = true) as Hr' by done.
      destruct updated as [u|m].
      * destruct (updateJob_state (Job.id j)
                    (jdPatch (FileRef.mk (File.name f) url)) (SbOk u)
                    (show "JD attached" app)) as [Hs Hn];
          [right; by exists u|].
        rewrite Hs, Hn. simpl.
        destruct (jobsPatched_frame (Job.id j)
                    (jdPatch (FileRef.mk (File.name f) url)) (state app))
          as [Hframe Hsame].
        split; [done|]. split; [done|]. split; [done|].
        split; [|by apply Hsame].
        intros url' u' _ [= <-] _. split; [done|]. by rewrite <- app_assoc.
      * unfold updateJob. rewrite Hr'. simpl.
        split; [done|]. split; [done|].
        split; [|split; [done|done]].
        intros url' m' _ _ [= <-]. split; [done|]. by rewrite <- app_assoc.
    + split; [done|]. split; [by intros e' _ [= <-]|].
      split; [done|]. split; [done|]. done.
  - destruct (updateJob_state (Job.id j)
                (jdPatch (FileRef.mk (File.name f) objectUrl)) updated app)
      as [Hs Hn]; [by left|].
    simpl. rewrite Hs, Hn.
    destruct (jobsPatched_frame (Job.id j)
                (jdPatch (FileRef.mk (File.name f) objectUrl)) (state app))
      as [Hframe Hsame].
    split; [intros _; split; [done|by rewrite <- app_assoc]|].
    split; [done|]. split; [done|]. split; [done|]. by apply Hsame.
Qed.

Lemma onJDFile_cases_witness :
  let app := Sample.remoteApp Sample.seed in
  let app' :=
    onJDFile (Some (File.mk "jd.pdf" (SbOk "https://x/jd.pdf"))) "blob:1"
             (SbError "denied") app in
  state app' = state app
  ∧ notices app' = notices app ++ ["JD attached"; "Update failed: denied"].
Proof.
  intros app app'.
  apply (onJDFile_cases (File.mk "jd.pdf" (SbOk "https://x/jd.pdf"))
           "blob:1" (SbError "denied") app Sample.frontend eq_refl)
    with (url := "https://x/jd.pdf"); reflexivity.
Defined.

Lemma updateJob_cases (id : string) (patch : Job.partial)
    (updated : SbResult unit) (app : App) :
  (∃ m, remote app = true ∧ updated = SbError m
        ∧ updateJob id patch updated app
          = show ("Update failed: " +:+ m) app)
  ∨ applied app updated.
Proof.
  unfold applied. destruct (remote app) eqn:Hr; [|by right; left].
  destruct updated as [u|m]; [right; right; by exists u|].
  left. exists m. unfold updateJob. by rewrite Hr.
Qed.

(** X25. The job form never attaches a description: saving an edited job
    ignores the attached file and keeps the description, the id, the
    date and the candidates of every job; and a job made in local mode
    has no description, whatever file was attached. *)
Theorem submitJob_keeps_jd (editingJob : option Job.t) (form : JobForm.t)
    (file : option File.t) (updated : SbResult unit)
    (inserted : SbResult JobRow.t) (uid now : string) (app : App) :
  let out :=
    submitJob editingJob (JobForm.vals form) file updated inserted uid now
              app in
  (∀ ej, editingJob = Some ej →
     ∃ app', out = Returned app'
       ∧ Job.jd <$> jobs (state app') = Job.jd <$> jobs (state app)
       ∧ Job.id <$> jobs (state app') = Job.id <$> jobs (state app)
       ∧ Job.createdAt <$> jobs (state app')
         = Job.createdAt <$> jobs (state app)
       ∧ allCandidates (state app') = allCandidates (state app))
  ∧ (editingJob = None → remote app = false →
     ∃ app' newJob,
       out = Returned app'
       ∧ jobs (state app') = newJob :: jobs (state app)
       ∧ Job.jd newJob = JS.Null
       ∧ Job.title newJob = JS.or_else (JobForm.title form) "Untitled Role").
Proof.
  intros out. subst out. split.
  - intros ej ->. simpl. eexists. split; [reflexivity|].
    destruct (updateJob_cases (Job.id ej) (JobForm.vals form) updated app)
      as [(m & _ & _ & ->)|Happ]; [done|].
    destruct (updateJob_state (Job.id ej) (JobForm.vals form) updated app Happ)
      as [-> _].
    destruct (jobsPatched_frame (Job.id ej) (JobForm.vals form) (state app))
      as [_ Hsame].
    destruct (Hsame eq_refl eq_refl) as [Hcands Hids]. simpl in *.
    split; [|split; [done|split; [|done]]].
    + rewrite <- list_fmap_compose. apply list_fmap_ext. intros i j _.
      simpl. by destruct (String.eqb (Job.id j) (Job.id ej)).
    + rewrite <- list_fmap_compose. apply list_fmap_ext. intros i j _.
      simpl. by destruct (String.eqb (Job.id j) (Job.id ej)).
  - intros -> Hl. simpl. unfold createJob. rewrite Hl.
    by eexists _, _.
Qed.

(** ** Loading from Supabase *)

Lemma pushByJob_lookup (entries : list (string * Candidate.t)) (k : string) :
  ∀ byJob : gmap string (list Candidate.t),
    default [] (foldl pushByJob byJob entries !! k)
    = default [] (byJob !! k)
      ++ (snd <$> List.filter (λ e, String.eqb e.1 k) entries).
Proof.
  induction entries as [|[k' c] rest IH]; intros byJob; simpl.
  - by rewrite app_nil_r.
  - rewrite IH. unfold pushByJob. simpl.
    destruct (String.eqb k' k) eqn:Hk.
    + apply String.eqb_eq in Hk as ->. rewrite lookup_insert_eq. simpl.
      by rewrite <- app_assoc.
    + apply String.eqb_neq in Hk. by rewrite lookup_insert_ne.
Qed.

Lemma mapM_omap {A B : Type} (f : A → option B) (l : list A) :
  Forall (λ x, is_Some (f x)) l → mapM f l = Some (omap f l).
Proof.
  induction 1 as [|x l [y Hy] _ IH]; [done|].
  simpl. rewrite Hy. simpl. by rewrite IH.
Qed.

Lemma candOfLoaded_plain (r : LoadedCand.t) :
  (∀ s, LoadedCand.tags r ≠ TagsText s) → is_Some (candOfLoaded r).
Proof.
  intros H. unfold candOfLoaded.
  destruct (LoadedCand.tags r) as [l|s|] eqn:Ht; simpl; eauto.
  by destruct (H s).
Qed.

Lemma entries_of_job (k : string) (candsRows : list LoadedCand.t) :
  snd <$> List.filter (λ e : string * Candidate.t, String.eqb e.1 k)
            (omap (λ r, c ← candOfLoaded r; Some (LoadedCand.job_id r, c))
                  candsRows)
  = candsOfJob k candsRows.
Proof.
  unfold candsOfJob. induction candsRows as [|r rest IH]; [done|]. simpl.
  destruct (candOfLoaded r) as [c|] eqn:Hc; simpl.
  - destruct (String.eqb (LoadedCand.job_id r) k); simpl.
    + rewrite Hc. f_equal. exact IH.
    + exact IH.
  - destruct (String.eqb (LoadedCand.job_id r) k); simpl; [|exact IH].
    rewrite Hc. exact IH.
Qed.

Lemma existsb_fmap_false {A B : Type} (p : B → bool) (f : A → B)
    (l : list A) :
  Forall (λ x, p (f x) = false) l → existsb p (f <$> l) = false.
Proof.
  induction 1 as [|x l Hx _ IH]; [done|].
  rewrite fmap_cons. cbn [existsb]. by rewrite Hx, IH.
Qed.

Lemma mapRowsToState_plain (jobsRows : list LoadedJob.t)
    (candsRows : list LoadedCand.t) :
  plainRows jobsRows candsRows →
  mapRowsToState jobsRows candsRows
  = let jobs :=
      (λ j, Job.with_candidates
              (candsOfJob (JobRow.id (LoadedJob.row j)) candsRows)
              (jobOfLoaded ∅ j)) <$> jobsRows in
    Some (mkState jobs (firstJobId jobs)).
Proof.
  intros (Htags & Hck & Hjk). unfold mapRowsToState.
  rewrite mapM_omap; last first.
  { eapply Forall_impl; [exact Htags|]. intros r Hr. simpl in Hr.
    destruct (candOfLoaded_plain r Hr) as [c ->]. by eexists. }
  simpl. rewrite !existsb_fmap_false by done. simpl.
  assert (jobOfLoaded
            (foldl pushByJob ∅
               (omap (λ r, c ← candOfLoaded r;
                           Some (LoadedCand.job_id r, c)) candsRows))
          <$> jobsRows
          = (λ j, Job.with_candidates
                    (candsOfJob (JobRow.id (LoadedJob.row j)) candsRows)
                    (jobOfLoaded ∅ j)) <$> jobsRows) as ->; [|done].
  apply list_fmap_ext. intros i j _. unfold jobOfLoaded, Job.with_candidates.
  simpl. by rewrite pushByJob_lookup, lookup_empty, entries_of_job.
Qed.

(** X26. Mapping the rows of a load: the jobs are those of the job rows,
    in their order; each job gets the candidates of the rows that carry
    its id, in the order of the rows, so a candidate row whose job id is
    the id of no job row is dropped; the first job is selected; stages
    are taken as stored (an empty one becomes Sourced) and are not
    normalized. *)
Theorem mapRowsToState_groups (jobsRows : list LoadedJob.t)
    (candsRows : list LoadedCand.t) :
  plainRows jobsRows candsRows →
  ∃ s, mapRowsToState jobsRows candsRows = Some s
    ∧ Job.id <$> jobs s = (λ j, JobRow.id (LoadedJob.row j)) <$> jobsRows
    ∧ (∀ j, j ∈ jobs s →
            Job.candidates j = candsOfJob (Job.id j) candsRows)
    ∧ selectedJobId s = firstJobId (jobs s)
    ∧ (∀ c, c ∈ allCandidates s ↔
            ∃ r j, r ∈ candsRows ∧ j ∈ jobsRows
                   ∧ LoadedCand.job_id r = JobRow.id (LoadedJob.row j)
                   ∧ candOfLoaded r = Some c)
    ∧ (∀ c, c ∈ allCandidates s →
            Candidate.stage c ≠ EmptyString
            ∧ ∃ r, r ∈ candsRows
                   ∧ Candidate.stage c
                     = JS.or_default (LoadedCand.stage r) "Sourced").
Proof.
  intros Hplain. rewrite (mapRowsToState_plain _ _ Hplain). simpl.
  eexists. split; [reflexivity|]. simpl.
  assert (∀ j : Job.t,
            j ∈ (λ j, Job.with_candidates
                        (candsOfJob (JobRow.id (LoadedJob.row j)) candsRows)
                        (jobOfLoaded ∅ j)) <$> jobsRows →
            ∃ jr, jr ∈ jobsRows
                  ∧ Job.id j = JobRow.id (LoadedJob.row jr)
                  ∧ Job.candidates j = candsOfJob (Job.id j) candsRows)
    as Hjobs.
  { intros j (jr & -> & Hjr)%list_elem_of_fmap. by exists jr. }
  assert (∀ c k, c ∈ candsOfJob k candsRows ↔
                 ∃ r, r ∈ candsRows ∧ LoadedCand.job_id r = k
                      ∧ candOfLoaded r = Some c) as Hcands.
  { intros c k. unfold candsOfJob. rewrite list_elem_of_omap. split.
    - intros (r & Hr & Hc). apply elem_of_List_filter in Hr as [Hr Hk].
      apply String.eqb_eq in Hk. by exists r.
    - intros (r & Hr & Hk & Hc). exists r. split; [|done].
      apply elem_of_List_filter. split; [done|]. by apply String.eqb_eq. }
  assert (∀ c, c ∈ allCandidates
                 (mkState
                    ((λ j, Job.with_candidates
                        (candsOfJob (JobRow.id (LoadedJob.row j)) candsRows)
                        (jobOfLoaded ∅ j)) <$> jobsRows)
                    JS.Null) ↔
            ∃ r j, r ∈ candsRows ∧ j ∈ jobsRows
                   ∧ LoadedCand.job_id r = JobRow.id (LoadedJob.row j)
                   ∧ candOfLoaded r = Some c) as Hall.
  { intros c. unfold allCandidates. simpl. rewrite list_elem_of_bind. split.
    - intros (j & Hc & Hj). destruct (Hjobs j Hj) as (jr & Hjr & Hid & Hcs).
      rewrite Hcs in Hc. apply Hcands in Hc as (r & Hr & Hk & Hc).
      exists r, jr. by rewrite Hk, <- Hid.
    - intros (r & jr & Hr & Hjr & Hk & Hc).
      eexists. split; [|apply list_elem_of_fmap; by exists jr].
      simpl. apply Hcands. by exists r. }
  split; [|split; [|split; [done|split; [exact Hall|]]]].
  - rewrite <- list_fmap_compose. by apply list_fmap_ext.
  - intros j Hj. by destruct (Hjobs j Hj) as (jr & _ & _ & Hcs).
  - intros c Hc. apply Hall in Hc as (r & j & Hr & _ & _ & Hc).
    unfold candOfLoaded in Hc.
    destruct (tagsOfColumn (LoadedCand.tags r)) as [tags|]; [|done].
    simpl in Hc. injection Hc as <-. simpl. split; [|by exists r].
    destruct (LoadedCand.stage r) as [[|a s]|]; done.
Qed.

Lemma mapRowsToState_groups_witness :
  ∃ s, mapRowsToState Demo.jobRows Demo.candRows = Some s
    ∧ Job.id <$> jobs s = ["j-ops"; "j-web"]
    ∧ selectedJobId s = firstJobId (jobs s).
Proof.
  destruct (mapRowsToState_groups Demo.jobRows Demo.candRows)
    as (s & Hs & Hids & _ & Hsel & _).
  - repeat split; repeat constructor; discriminate.
  - exists s. split; [exact Hs|]. split; [exact Hids|exact Hsel].
Defined.

(** ** CSV export *)

Lemma append_cons (c : ascii) (a b : string) :
  String c a +:+ b = String c (a +:+ b).
Proof. reflexivity. Qed.

Lemma append_nil (b : string) : EmptyString +:+ b = b.
Proof. reflexivity. Qed.

Lemma string_app_assoc (a b c : string) : (a +:+ b) +:+ c = a +:+ (b +:+ c).
Proof.
  induction a as [|x a IH]; [done|]. rewrite !append_cons. by rewrite IH.
Qed.

Lemma string_app_nil_r (a : string) : a +:+ EmptyString = a.
Proof. induction a as [|x a IH]; [done|]. rewrite append_cons. by rewrite IH. Qed.

Lemma string_app_length (a b : string) :
  String.length (a +:+ b) = String.length a + String.length b.
Proof.
  induction a as [|x a IH]; [done|]. rewrite append_cons. simpl. by rewrite IH.
Qed.

Lemma readField_field (v rest : string) :
  match rest with
  | EmptyString => True
  | String c _ => Ascii.eqb c JSON.dquote = false
  end →
  readField (doubleQuotes v +:+ String JSON.dquote rest) = Some (v, rest).
Proof.
  intros Hrest. induction v as [|c v IH]; cbn [doubleQuotes].
  - rewrite append_nil. cbn [readField]. rewrite Ascii.eqb_refl.
    destruct rest as [|d r]; [done|]. by rewrite Hrest.
  - destruct (Ascii.eqb c JSON.dquote) eqn:Hc.
    + apply Ascii.eqb_eq in Hc as ->. rewrite !append_cons.
      cbn [readField]. rewrite !Ascii.eqb_refl, IH. done.
    + rewrite append_cons. cbn [readField]. by rewrite Hc, IH.
Qed.

Lemma csvRow_cons (c : string) (cs : list string) :
  csvRow (c :: cs) = csvField c +:+ rowTail cs.
Proof.
  unfold csvRow. destruct cs as [|c' cs]; [|done].
  cbn [fmap list_fmap Str.join rowTail]. by rewrite string_app_nil_r.
Qed.

Lemma csvLines_cons (r : list string) (rows : list (list string)) :
  csvLines (r :: rows) = csvRow r +:+ linesTail rows.
Proof.
  unfold csvLines. destruct rows as [|r' rows]; [|done].
  cbn [fmap list_fmap Str.join linesTail]. by rewrite string_app_nil_r.
Qed.

Lemma csvField_app (c rest : string) :
  csvField c +:+ rest
  = String JSON.dquote (doubleQuotes c +:+ String JSON.dquote rest).
Proof.
  unfold csvField. by rewrite append_cons, string_app_assoc, append_cons.
Qed.

Lemma readRecords_cell (fuel : nat) (c rest : string) :
  match rest with
  | EmptyString => True
  | String t _ => Ascii.eqb t JSON.dquote = false
  end →
  readRecords (S fuel) (csvField c +:+ rest)
  = match rest with
    | EmptyString => Some [[c]]
    | String t rest' =>
        if Ascii.eqb t ","
        then match readRecords fuel rest' with
             | Some (row :: more) => Some ((c :: row) :: more)
             | _ => None
             end
        else if Ascii.eqb t JSON.LF
        then (λ rows, [c] :: rows) <$> readRecords fuel rest'
        else None
    end.
Proof.
  intros Hrest. rewrite csvField_app. cbn [readRecords].
  rewrite Ascii.eqb_refl, (readField_field c rest Hrest). done.
Qed.

Lemma cellCount_cons (r : list string) (rows : list (list string)) :
  cellCount (r :: rows) = length r + cellCount rows.
Proof. reflexivity. Qed.

Lemma readRecords_row (rows : list (list string)) :
  (rows ≠ [] → ∀ fuel, cellCount rows ≤ fuel →
     readRecords fuel (csvLines rows) = Some rows) →
  ∀ (cs : list string) (c : string) (fuel : nat),
    S (length cs) + cellCount rows ≤ fuel →
    readRecords fuel (csvField c +:+ rowTail cs +:+ linesTail rows)
    = Some ((c :: cs) :: rows).
Proof.
  intros IHrows. induction cs as [|c' cs IH]; intros c fuel Hfuel;
    (destruct fuel as [|f]; [lia|]).
  - cbn [rowTail]. rewrite append_nil, readRecords_cell.
    + destruct rows as [|r rows]; [done|]. cbn [linesTail].
      change (Ascii.eqb JSON.LF ",") with false.
      change (Ascii.eqb JSON.LF JSON.LF) with true. cbn iota.
      rewrite IHrows; [done|done|simpl in Hfuel; lia].
    + by destruct rows.
  - cbn [rowTail]. rewrite csvRow_cons.
    rewrite append_cons, string_app_assoc, readRecords_cell by done.
    change (Ascii.eqb "," ",") with true. cbn iota.
    rewrite IH; [done|simpl in Hfuel; lia].
Qed.

Lemma readRecords_lines (rows : list (list string)) :
  Forall (λ r, r ≠ []) rows → rows ≠ [] →
  ∀ fuel, cellCount rows ≤ fuel →
    readRecords fuel (csvLines rows) = Some rows.
Proof.
  induction 1 as [|r rows Hr Hrows IH]; [done|]. intros _ fuel Hfuel.
  destruct r as [|c cs]; [done|].
  rewrite csvLines_cons, csvRow_cons, string_app_assoc.
  apply (readRecords_row rows IH). rewrite cellCount_cons in Hfuel.
  simpl in Hfuel. lia.
Qed.

Lemma csvLines_length (rows : list (list string)) :
  cellCount rows ≤ String.length (csvLines rows).
Proof.
  induction rows as [|r rows IH]; [done|].
  rewrite csvLines_cons, string_app_length.
  assert (length r ≤ String.length (csvRow r)) as Hr.
  { clear. induction r as [|c cs IH]; [done|].
    rewrite csvRow_cons, string_app_length. unfold csvField.
    cbn [String.length]. destruct cs as [|c' cs]; [simpl; lia|].
    cbn [rowTail String.length length] in *. lia. }
  rewrite cellCount_cons.
  destruct rows as [|r' rows].
  - change (cellCount []) with 0. cbn [linesTail String.length]. lia.
  - cbn [linesTail String.length]. lia.
Qed.

(** X27. The CSV export can be read back: the text is a header and one
    record of eight quoted cells per candidate shown, and a reader that
    takes two quotes inside a cell for one finds every cell as it was,
    also cells with commas, quotes or line feeds; so two exports with the
    same text have the same cells.  Without a current job nothing is
    exported. *)
Theorem downloadCSV_reads_back (j : Job.t) (filtered : list Candidate.t) :
  downloadCSV None filtered = None
  ∧ ∃ text,
      downloadCSV (Some j) filtered = Some text
      ∧ readCSV text = Some (csvHeader :: (csvCells <$> filtered))
      ∧ Forall (λ r, length r = 8) (csvHeader :: (csvCells <$> filtered))
      ∧ ∀ j' filtered',
          downloadCSV (Some j') filtered' = Some text →
          csvCells <$> filtered' = csvCells <$> filtered.
Proof.
  split; [done|]. eexists. split; [reflexivity|].
  assert (∀ l, readCSV (csvLines (csvHeader :: (csvCells <$> l)))
               = Some (csvHeader :: (csvCells <$> l))) as Hread.
  { intros l. unfold readCSV. apply readRecords_lines; [|done|].
    - constructor; [done|]. apply Forall_fmap, Forall_true. done.
    - apply csvLines_length. }
  split; [apply Hread|]. split.
  - constructor; [done|]. apply Forall_fmap, Forall_true. done.
  - intros j' filtered' [= Heq].
    pose proof (Hread filtered') as H'. rewrite Heq, Hread in H'.
    by injection H'.
Qed.

(** ** The compact document *)

Lemma closes_not_digit (rest : list ascii) :
  closes rest →
  match rest with [] => True | c :: _ => JS.isDigit c = false end
  ∧ JSON.startsFraction rest = false.
Proof. destruct rest as [|c r]; [done|]. by intros [-> | [-> | ->]]. Qed.

Lemma parseNat_digits_closed (n : N) (rest : list ascii) :
  (Z.of_N n ≤ JSON.MAX_SAFE_INTEGER)%Z → closes rest →
  JSON.parseNat (JSON.digits n ++ rest) = JSON.Parsed (n, rest).
Proof.
  intros Hsafe [Hd Hf]%closes_not_digit. unfold JSON.parseNat.
  rewrite spanDigits_app; [|apply uintChars_digits|done].
  destruct (digits_head n) as (c & more & Heq & _ & Hzero).
  rewrite Heq, Hzero, Hf, <- Heq. unfold JSON.digits.
  fold (uintChars (N.to_uint n)). rewrite uintChars_read.
  rewrite DecimalN.Unsigned.of_to.
  by rewrite (proj2 (Z.leb_le _ _) Hsafe).
Qed.

Lemma parseNum_printNum_closed (z : Z) (rest : list ascii) :
  safeNumber z → closes rest →
  JSON.parseNum (JSON.printNum z ++ rest) = JSON.Parsed (JSON.Num z, rest).
Proof.
  intros [Hlo Hhi] Hrest. unfold JSON.printNum.
  destruct (z <? 0)%Z eqn:Hneg.
  - apply Z.ltb_lt in Hneg. cbn [app JSON.parseNum].
    change (Ascii.eqb "-" "-") with true. cbn iota.
    rewrite parseNat_digits_closed; [|lia|done].
    destruct (Z.abs_N z =? 0)%N eqn:Hz; [apply N.eqb_eq in Hz; lia|].
    do 3 f_equal. lia.
  - apply Z.ltb_ge in Hneg.
    destruct (digits_head (Z.abs_N z)) as (c & more & Heq & Hc & _).
    rewrite Heq. cbn [app JSON.parseNum].
    assert (Ascii.eqb c "-" = false) as ->.
    { apply Ascii.eqb_neq. intros ->. discriminate. }
    change (c :: more ++ rest) with ((c :: more) ++ rest). rewrite <- Heq.
    rewrite parseNat_digits_closed; [|lia|done]. do 3 f_equal. lia.
Qed.

Lemma printNum_head (z : Z) :
  ∃ c tl, JSON.printNum z = c :: tl
          ∧ (c = "-"%char ∨ JS.isDigit c = true).
Proof.
  unfold JSON.printNum. destruct (z <? 0)%Z.
  - eexists _, _. split; [reflexivity|by left].
  - destruct (digits_head (Z.abs_N z)) as (c & more & -> & Hc & _).
    exists c, more. split; [done|by right].
Qed.

Lemma compact_head (v : JSON.value) :
  ∃ c tl, Compact.print v = c :: tl ∧ opens c.
Proof.
  destruct v as [ |[]|z|s|[|x xs]|[|[k x] ms]];
    try (eexists _, _; split; [reflexivity|done]).
  destruct (printNum_head z) as (c & tl & Heq & Hc).
  exists c, tl. split; [exact Heq|].
  destruct Hc as [->|Hc]; [done|].
  destruct c as [[] [] [] [] [] [] [] []]; try discriminate Hc; done.
Qed.

Lemma parseElements_close (f : nat) (s rest : list ascii) (v : JSON.value) :
  JSON.parseValue f s = JSON.Parsed (v, "]"%char :: rest) →
  JSON.parseElements (S f) s = JSON.Parsed ([v], rest).
Proof. intros H. simpl. rewrite H. reflexivity. Qed.

Lemma parseMembers_key_compact (f : nat) (k : string) (s : list ascii) :
  JSON.parseMembers (S f) (JSON.quote k ++ ":"%char :: s) =
  match JSON.parseValue f s with
  | JSON.Parsed (v, r2) =>
    match JSON.skipWs r2 with
    | c :: r3 =>
      if Ascii.eqb c "," then
        match JSON.parseMembers f r3 with
        | JSON.Parsed (ms, rest) => JSON.Parsed ((k, v) :: ms, rest)
        | JSON.Invalid => JSON.Invalid
        | JSON.Unsupported => JSON.Unsupported
        end
      else if Ascii.eqb c "}" then JSON.Parsed ([(k, v)], r3)
      else JSON.Invalid
    | [] => JSON.Invalid
    end
  | JSON.Invalid => JSON.Invalid
  | JSON.Unsupported => JSON.Unsupported
  end.
Proof.
  rewrite quote_app.
  remember (JSON.escape k ++ JSON.dquote :: ":"%char :: s) as t eqn:Ht.
  simpl. subst t. rewrite parseChars_escape.
  cbn [JSON.skipWs]. change (JSON.isWs ":") with false. cbn iota.
  change (Ascii.eqb ":" ":") with true. cbn iota. reflexivity.
Qed.

Lemma parseMembers_close (f : nat) (k : string) (s rest : list ascii)
    (v : JSON.value) :
  JSON.parseValue f s = JSON.Parsed (v, "}"%char :: rest) →
  JSON.parseMembers (S f) (JSON.quote k ++ ":"%char :: s)
  = JSON.Parsed ([(k, v)], rest).
Proof. intros H. rewrite parseMembers_key_compact, H. reflexivity. Qed.

Lemma parseMembers_next (f : nat) (k : string) (s s2 rest : list ascii)
    (v : JSON.value) (ms : list (string * JSON.value)) :
  JSON.parseValue f s = JSON.Parsed (v, ","%char :: s2) →
  JSON.parseMembers f s2 = JSON.Parsed (ms, rest) →
  JSON.parseMembers (S f) (JSON.quote k ++ ":"%char :: s)
  = JSON.Parsed ((k, v) :: ms, rest).
Proof.
  intros H H2. rewrite parseMembers_key_compact, H. simpl. rewrite H2.
  reflexivity.
Qed.

Lemma parseValue_array_compact (f : nat) (c : ascii) (tl rest : list ascii)
    (vs : list JSON.value) :
  opens c →
  JSON.parseElements f (c :: tl) = JSON.Parsed (vs, rest) →
  JSON.parseValue (S f) ("["%char :: c :: tl) = JSON.Parsed (JSON.Arr vs, rest).
Proof.
  intros (Hws & Hclose & _) H.
  remember (c :: tl) as t eqn:Ht. simpl. subst t. cbn [JSON.skipWs].
  rewrite Hws, Hclose, H. reflexivity.
Qed.

Lemma parseValue_object_compact (f : nat) (tl rest : list ascii)
    (ms : list (string * JSON.value)) :
  JSON.parseMembers f (JSON.dquote :: tl) = JSON.Parsed (ms, rest) →
  JSON.parseValue (S f) ("{"%char :: JSON.dquote :: tl)
  = JSON.Parsed (JSON.Obj ms, rest).
Proof.
  intros H.
  remember (JSON.dquote :: tl) as t eqn:Ht. simpl. subst t.
  cbn [JSON.skipWs].
  change (JSON.isWs JSON.dquote) with false. cbn iota.
  change (Ascii.eqb JSON.dquote "}") with false. cbn iota.
  rewrite H. reflexivity.
Qed.

Lemma closes_compactElements (l : list JSON.value) (rest : list ascii) :
  closes (compactElements l ++ rest).
Proof. destruct l; [by right; left|by left]. Qed.

Lemma closes_compactMembers (l : list (string * JSON.value))
    (rest : list ascii) : closes (compactMembers l ++ rest).
Proof. destruct l as [|[k x] l]; [by right; right|by left]. Qed.

Lemma compactElements_cons (y : JSON.value) (ys : list JSON.value)
    (rest : list ascii) :
  compactElements (y :: ys) ++ rest
  = ","%char :: Compact.print y ++ compactElements ys ++ rest.
Proof.
  change (compactElements (y :: ys))
    with (","%char :: Compact.print y ++ compactElements ys).
  cbn [app]. by rewrite <- !app_assoc.
Qed.

Lemma compactMembers_cons (k : string) (y : JSON.value)
    (ys : list (string * JSON.value)) (rest : list ascii) :
  compactMembers ((k, y) :: ys) ++ rest
  = ","%char :: JSON.quote k ++ ":"%char :: Compact.print y
    ++ compactMembers ys ++ rest.
Proof.
  change (compactMembers ((k, y) :: ys))
    with (","%char :: JSON.quote k ++ ":"%char :: Compact.print y
          ++ compactMembers ys).
  cbn [app]. rewrite <- !app_assoc. cbn [app]. by rewrite <- !app_assoc.
Qed.

Lemma elements_read_compact (l : list JSON.value) :
  Forall readsCompact l → Forall safeValue l →
  ∀ (x : JSON.value) (fuel : nat) (rest : list ascii),
    readsCompact x → safeValue x →
    sizes (x :: l) ≤ fuel →
    JSON.parseElements fuel (Compact.print x ++ compactElements l ++ rest)
    = JSON.Parsed (x :: l, rest).
Proof.
  induction 1 as [|y ys Hy _ IH]; intros Hsafe x fuel rest Hx Hsx Hfuel;
    destruct fuel as [|f]; try (simpl in Hfuel; lia).
  - eapply parseElements_close. cbn [compactElements app].
    apply Hx; [done|simpl in Hfuel; lia|by right; left].
  - apply Forall_cons in Hsafe as [Hsy Hsys].
    change (sizes (x :: y :: ys)) with (S (size x + sizes (y :: ys))) in Hfuel.
    rewrite compactElements_cons. eapply parseElements_more.
    + apply Hx; [done|lia|]. by left.
    + apply IH; [done..|lia].
Qed.

Lemma members_read_compact (l : list (string * JSON.value)) :
  Forall (λ m, readsCompact m.2) l → Forall (λ m, safeValue m.2) l →
  ∀ (k : string) (x : JSON.value) (fuel : nat) (rest : list ascii),
    readsCompact x → safeValue x →
    memberSizes ((k, x) :: l) ≤ fuel →
    JSON.parseMembers fuel
      (JSON.quote k ++ ":"%char :: Compact.print x
       ++ compactMembers l ++ rest)
    = JSON.Parsed ((k, x) :: l, rest).
Proof.
  induction 1 as [|[k' y] ys Hy _ IH];
    intros Hsafe k x fuel rest Hx Hsx Hfuel;
    destruct fuel as [|f]; try (simpl in Hfuel; lia).
  - eapply parseMembers_close. cbn [compactMembers app].
    apply Hx; [done|simpl in Hfuel; lia|by right; right].
  - apply Forall_cons in Hsafe as [Hsy Hsys]. simpl in Hy, Hsy.
    change (memberSizes ((k, x) :: (k', y) :: ys))
      with (S (size x + memberSizes ((k', y) :: ys))) in Hfuel.
    rewrite compactMembers_cons. eapply parseMembers_next.
    + apply Hx; [done|lia|]. by left.
    + apply IH; [done..|lia].
Qed.

Lemma parse_compact (v : JSON.value) : readsCompact v.
Proof.
  induction v as [ |b|z|s|l IH|ms IH] using value_ind';
    intros Hsafe fuel rest Hfuel Hrest;
    (destruct fuel as [|f]; [simpl in Hfuel; lia|]).
  - reflexivity.
  - by destruct b.
  - simpl in Hsafe. cbn [Compact.print].
    destruct (printNum_head z) as (c & tl & Heq & Hc).
    rewrite Heq. cbn [app]. rewrite parseValue_number by done.
    change (c :: tl ++ rest) with ((c :: tl) ++ rest). rewrite <- Heq.
    by apply parseNum_printNum_closed.
  - cbn [Compact.print]. rewrite quote_app.
    remember (JSON.escape s ++ JSON.dquote :: rest) as t eqn:Ht.
    simpl. subst t. by rewrite parseChars_escape.
  - destruct l as [|x xs]; [reflexivity|].
    apply safeValue_Arr in Hsafe. apply Forall_cons in Hsafe as [Hsx Hsxs].
    apply Forall_cons in IH as [Hx Hxs].
    change (Compact.print (JSON.Arr (x :: xs)))
      with ("["%char :: Compact.print x ++ compactElements xs).
    destruct (compact_head x) as (c & tl & Heq & Hopen).
    cbn [app]. rewrite <- !app_assoc, Heq. cbn [app].
    apply parseValue_array_compact; [done|].
    change (c :: tl ++ compactElements xs ++ rest)
      with ((c :: tl) ++ compactElements xs ++ rest).
    rewrite <- Heq. apply elements_read_compact; try done.
    change (size (JSON.Arr (x :: xs))) with (S (sizes (x :: xs))) in Hfuel. lia.
  - destruct ms as [|[k x] ms]; [reflexivity|].
    apply safeValue_Obj in Hsafe. apply Forall_cons in Hsafe as [Hsx Hsxs].
    apply Forall_cons in IH as [Hx Hxs]. simpl in Hx, Hsx.
    change (Compact.print (JSON.Obj ((k, x) :: ms)))
      with ("{"%char :: JSON.quote k ++ ":"%char :: Compact.print x
            ++ compactMembers ms).
    cbn [app]. rewrite <- !app_assoc. cbn [app]. rewrite <- !app_assoc.
    rewrite (quote_app k). apply parseValue_object_compact.
    rewrite <- quote_app.
    apply members_read_compact; try done.
    change (size (JSON.Obj ((k, x) :: ms)))
      with (S (memberSizes ((k, x) :: ms))) in Hfuel. lia.
Qed.

Lemma sizes_le_compact (l : list JSON.value) :
  Forall (λ v, size v ≤ length (Compact.print v)) l →
  sizes l < length (compactElements l).
Proof.
  induction 1 as [|y ys Hy _ IH]; [simpl; lia|].
  change (sizes (y :: ys)) with (S (size y + sizes ys)).
  change (compactElements (y :: ys))
    with (","%char :: Compact.print y ++ compactElements ys).
  cbn [length]. rewrite !length_app. lia.
Qed.

Lemma memberSizes_le_compact (l : list (string * JSON.value)) :
  Forall (λ m, size m.2 ≤ length (Compact.print m.2)) l →
  memberSizes l < length (compactMembers l).
Proof.
  induction 1 as [|[k y] ys Hy _ IH]; [simpl; lia|].
  change (memberSizes ((k, y) :: ys)) with (S (size y + memberSizes ys)).
  change (compactMembers ((k, y) :: ys))
    with (","%char :: JSON.quote k ++ ":"%char :: Compact.print y
          ++ compactMembers ys).
  cbn [length]. rewrite !length_app. cbn [length]. rewrite !length_app.
  simpl in Hy. lia.
Qed.

Lemma size_le_compact (v : JSON.value) : size v ≤ length (Compact.print v).
Proof.
  induction v as [ |b|z|s|l IH|ms IH] using value_ind'.
  - simpl. lia.
  - destruct b; simpl; lia.
  - cbn [Compact.print size].
    destruct (printNum_head z) as (c & tl & -> & _). simpl. lia.
  - cbn [Compact.print size]. unfold JSON.quote. simpl. lia.
  - destruct l as [|x xs]; [simpl; lia|].
    apply Forall_cons in IH as [Hx Hxs].
    change (size (JSON.Arr (x :: xs))) with (S (S (size x + sizes xs))).
    change (Compact.print (JSON.Arr (x :: xs)))
      with ("["%char :: Compact.print x ++ compactElements xs).
    cbn [length]. rewrite !length_app.
    pose proof (sizes_le_compact xs Hxs). lia.
  - destruct ms as [|[k x] ms]; [simpl; lia|].
    apply Forall_cons in IH as [Hx Hxs]. simpl in Hx.
    change (size (JSON.Obj ((k, x) :: ms)))
      with (S (S (size x + memberSizes ms))).
    change (Compact.print (JSON.Obj ((k, x) :: ms)))
      with ("{"%char :: JSON.quote k ++ ":"%char :: Compact.print x
            ++ compactMembers ms).
    cbn [length]. rewrite !length_app. cbn [length]. rewrite !length_app.
    pose proof (memberSizes_le_compact ms Hxs). lia.
Qed.

(** [JSON.parse(JSON.stringify(v))] is [v]. *)
Lemma parse_stringify_compact (v : JSON.value) :
  safeValue v → JSON.parse (Compact.stringify v) = JSON.Parsed v.
Proof.
  intros Hsafe. unfold JSON.parse, Compact.stringify.
  rewrite list_ascii_of_string_of_list_ascii.
  rewrite <- (app_nil_r (Compact.print v)) at 2.
  rewrite (parse_compact v Hsafe); [done| |done].
  pose proof (size_le_compact v). lia.
Qed.

(** ** The state kept in local storage *)

Lemma selectFirst_same (s : ATSState) :
  hasSelection s ∨ jobs s = [] → selectFirst s = s.
Proof.
  unfold selectFirst. intros [(a & r & ->) | ->]; [done|].
  by destruct (selectedJobId s) as [| |[|a r]].
Qed.

(** X28. What local mode keeps in local storage is what the next start
    reads: the stored text of a state parses back to that state, with
    all its jobs and candidates, and the start selects the first job
    when none is selected; a state with a selection, or without jobs,
    comes back as it was.  The state is any [ATSState] of this
    development (numbers are safe integers). *)
Theorem persist_reload (stored : option string) (app : App)
    (seed : ATSState) :
  persistMode app = local →
  safeState (state app) →
  ∃ text,
    persist stored app = Some text
    ∧ initialState (Some text) seed = Some (selectFirst (state app))
    ∧ jobs (selectFirst (state app)) = jobs (state app)
    ∧ (hasSelection (state app) ∨ jobs (state app) = [] →
       initialState (Some text) seed = Some (state app)).
Proof.
  intros Hlocal Hsafe. unfold persist. rewrite Hlocal.
  eexists. split; [reflexivity|].
  assert (initialState
            (Some (Compact.stringify (Codec.ofState (state app)))) seed
          = Some (selectFirst (state app))) as Hinit.
  { unfold initialState, safeJSONParse.
    pose proof (parse_stringify_compact (Codec.ofState (state app))
                  (safe_ofState _ Hsafe)) as Hparse.
    destruct (Compact.stringify (Codec.ofState (state app))) as [|a r] eqn:Ht.
    - discriminate Ht.
    - rewrite Hparse, state_ofState. done. }
  split; [exact Hinit|]. split.
  - unfold selectFirst.
    destruct (selectedJobId (state app)) as [| |[|a r]]; try done;
      destruct (jobs (state app)) eqn:Hj; simpl; by rewrite ?Hj.
  - intros H. by rewrite Hinit, selectFirst_same.
Qed.

Lemma persist_reload_witness :
  ∃ text,
    persist None (Sample.localApp Sample.two) = Some text
    ∧ initialState (Some text) Sample.seed
      = Some (selectFirst (state (Sample.localApp Sample.two)))
    ∧ jobs (selectFirst (state (Sample.localApp Sample.two)))
      = jobs (state (Sample.localApp Sample.two))
    ∧ (hasSelection (state (Sample.localApp Sample.two))
       ∨ jobs (state (Sample.localApp Sample.two)) = [] →
       initialState (Some text) Sample.seed
       = Some (state (Sample.localApp Sample.two))).
Proof.
  apply (persist_reload None (Sample.localApp Sample.two) Sample.seed).
  - reflexivity.
  - exact safeState_two.
Defined.

(** X29. The start of the component: without a stored text, with an
    empty one, or with one that is not JSON, the state is the demo state
    with its first job selected; and whatever is stored, a state that
    the start accepts has a selection as soon as it has a job with a
    non-empty id, and then the board has a current job. *)
Theorem initialState_selects (stored : option string) (seed : ATSState) :
  (stored = None ∨ stored = Some EmptyString →
   initialState stored seed = Some (selectFirst seed))
  ∧ (∀ text, stored = Some text → JSON.parse text = JSON.Invalid →
       initialState stored seed = Some (selectFirst seed))
  ∧ (∀ s, initialState stored seed = Some s →
       jobs s = []
       ∨ ∃ j rest, jobs s = j :: rest
                   ∧ (hasSelection s ∨ selectedJobId s = JS.Value (Job.id j))
                   ∧ is_Some (job s)).
Proof.
  split; [by intros [->| ->]|]. split.
  - intros text -> Hinv. unfold initialState, safeJSONParse.
    destruct text as [|a r]; [done|]. by rewrite Hinv.
  - intros s Hs. unfold initialState in Hs.
    destruct (safeJSONParse Codec.state stored seed) as [initial|]; [|done].
    injection Hs as <-. unfold selectFirst.
    destruct (jobs initial) as [|j rest] eqn:Hjobs.
    + left. destruct (selectedJobId initial) as [| |[|a r]]; done.
    + right.
      assert (∀ s', jobs s' = j :: rest → is_Some (job s')) as Hjob.
      { intros s' Hs'. unfold job. rewrite Hs'.
        destruct (List.find _ _); by eexists. }
      destruct (selectedJobId initial) as [| |[|a r]] eqn:Hsel;
        exists j, rest; simpl; rewrite ?Hjobs;
        (split; [done|]); (split; [|by apply Hjob]).
      all: try by right.
      left. by exists a, r.
Qed.

(** ** The selection invariant *)

Lemma wellSelected_frame (s s' : ATSState) :
  Job.id <$> jobs s' = Job.id <$> jobs s →
  selectedJobId s' = selectedJobId s →
  wellSelected s → wellSelected s'.
Proof. unfold wellSelected. by intros -> ->. Qed.

Lemma inJob_ids (jobId : string) (f : list Candidate.t → list Candidate.t)
    (s : ATSState) :
  Job.id <$> jobs (inJob jobId f s) = Job.id <$> jobs s.
Proof.
  unfold inJob. simpl. rewrite <- list_fmap_compose.
  apply list_fmap_ext. intros i j _. simpl.
  by destruct (String.eqb (Job.id j) jobId).
Qed.

Lemma wellSelected_inJob (jobId : string)
    (f : list Candidate.t → list Candidate.t) (s : ATSState) :
  wellSelected s → wellSelected (inJob jobId f s).
Proof. apply wellSelected_frame; [apply inJob_ids|done]. Qed.

Lemma wellSelected_first (js : list Job.t) :
  Forall (λ j, Job.id j ≠ EmptyString) js →
  wellSelected (mkState js (firstJobId js)).
Proof.
  intros Hids. unfold wellSelected. cbn [jobs selectedJobId].
  split; [apply Forall_fmap; exact Hids|].
  destruct js as [|j0 rest]; [done|]. split; [done|]. intros _.
  apply Forall_cons in Hids as [Hj0 _]. exists (Job.id j0).
  split; [rewrite fmap_cons; left|]. simpl. by destruct (Job.id j0).
Qed.

Lemma wellSelected_ids (s : ATSState) :
  wellSelected s → Forall (λ j, Job.id j ≠ EmptyString) (jobs s).
Proof.
  intros [Hids _]. apply Forall_forall. intros j Hj.
  rewrite Forall_forall in Hids. apply Hids, list_elem_of_fmap. by exists j.
Qed.

Lemma wellSelected_new (j : Job.t) (s : ATSState) :
  Job.id j ≠ EmptyString → wellSelected s →
  wellSelected (mkState (j :: jobs s) (JS.Value (Job.id j))).
Proof.
  intros Hj [Hids _]. unfold wellSelected. cbn [jobs selectedJobId].
  rewrite fmap_cons. split; [by constructor|]. split; [done|]. intros _.
  exists (Job.id j). split; [left|done].
Qed.

Lemma wellSelected_shows (s : ATSState) : wellSelected s → showsSelected s.
Proof.
  intros (_ & Hnil & Hsel). destruct (jobs s) as [|j0 rest] eqn:Hjobs.
  - left. split; [done|]. unfold job. by rewrite Hjobs.
  - right. destruct Hsel as (i & Hi & Hs); [by rewrite ?Hjobs|].
    destruct (job_fallback s) as (_ & _ & Hfound).
    destruct (Hfound i) as (j & Hj & Hin & Hid);
      [split; [done|by rewrite ?Hjobs]|].
    exists j. split; [done|]. split; [by rewrite <- ?Hjobs|]. by rewrite Hid.
Qed.

Lemma createJob_wellSelected (data : Job.partial) (jdFile : option File.t)
    (inserted : SbResult JobRow.t) (uid now : string) (app : App) :
  freshJobId inserted uid → wellSelected (state app) →
  wellSelected (state (appOf (createJob data jdFile inserted uid now app))).
Proof.
  intros [Huid Hrow] Hwell. unfold createJob.
  destruct (remote app).
  - destruct (uploadOptional jdFile); [|done].
    destruct inserted as [row|m]; [|done]. simpl.
    apply (wellSelected_new (jobOfRow row)); [|done]. by apply Hrow.
  - simpl.
    by apply (wellSelected_new
                (Job.mk uid (JS.or_default (Job.p_title data) "Untitled Role")
                   (Some (JS.or_default (mjoin (Job.p_department data))
                                        EmptyString))
                   (Some (JS.or_default (mjoin (Job.p_location data))
                                        EmptyString))
                   now JS.Null [])).
Qed.

Lemma updateJob_wellSelected (id : string) (patch : Job.partial)
    (updated : SbResult unit) (app : App) :
  Job.p_id patch = None → wellSelected (state app) →
  wellSelected (state (updateJob id patch updated app)).
Proof.
  intros Hpid Hwell.
  destruct (updateJob_cases id patch updated app)
    as [(m & _ & _ & ->)|Happ]; [done|].
  destruct (updateJob_state id patch updated app Happ) as [-> _].
  refine (wellSelected_frame (state app) _ _ _ Hwell); [|done]. simpl.
  rewrite <- list_fmap_compose. apply list_fmap_ext. intros i j _. simpl.
  destruct (String.eqb (Job.id j) id); [|done]. simpl. by rewrite Hpid.
Qed.

Lemma deleteJob_wellSelected (id : string) (deleted : SbResult unit)
    (app : App) :
  wellSelected (state app) →
  wellSelected (state (deleteJob id deleted app)).
Proof.
  intros Hwell. unfold deleteJob.
  assert (wellSelected
            (let js := List.filter (λ j, negb (String.eqb (Job.id j) id))
                                   (jobs (state app)) in
             mkState js (firstJobId js))) as Hdone.
  { apply wellSelected_first. apply Forall_forall. intros j Hj.
    apply elem_of_List_filter in Hj as [Hj _].
    pose proof (wellSelected_ids _ Hwell) as Hids.
    rewrite Forall_forall in Hids. by apply Hids. }
  destruct (remote app); [destruct deleted|]; done.
Qed.

Lemma createCandidate_wellSelected (jobId : string)
    (data : Candidate.partial) (resumeFile : option File.t)
    (inserted : SbResult CandRow.t) (uid now : string) (app : App) :
  wellSelected (state app) →
  wellSelected
    (state (appOf (createCandidate jobId data resumeFile inserted uid now
                                   app))).
Proof.
  intros Hwell. unfold createCandidate.
  destruct (remote app).
  - destruct (uploadOptional resumeFile); [|done].
    destruct inserted; [|done]. by apply wellSelected_inJob.
  - by apply wellSelected_inJob.
Qed.

Lemma updateCandidate_wellSelected (jobId candId : string)
    (patch : Candidate.partial) (updated : SbResult unit) (app : App) :
  wellSelected (state app) →
  wellSelected (state (updateCandidate jobId candId patch updated app)).
Proof.
  intros Hwell. unfold updateCandidate.
  destruct (remote app); [destruct updated|]; try done;
    by apply wellSelected_inJob.
Qed.

Lemma deleteCandidate_wellSelected (jobId candId : string)
    (deleted : SbResult unit) (app : App) :
  wellSelected (state app) →
  wellSelected (state (deleteCandidate jobId candId deleted app)).
Proof.
  intros Hwell. unfold deleteCandidate.
  destruct (remote app); [destruct deleted|]; try done;
    by apply wellSelected_inJob.
Qed.

Lemma onDragEnd_wellSelected (e : DragEndEvent) (updated : SbResult unit)
    (app : App) :
  wellSelected (state app) →
  wellSelected (state (onDragEnd e updated app)).
Proof.
  intros Hwell.
  destruct (onDragEnd_state e updated app)
    as [->|(jobId & candId & target & _ & ->)]; [done|].
  by apply wellSelected_inJob.
Qed.

Lemma onResumeFiles_wellSelected (files : option (list ResumeUpload))
    (app : App) :
  wellSelected (state app) →
  wellSelected (state (onResumeFiles files app)).
Proof.
  intros Hwell. unfold onResumeFiles.
  destruct files as [farr|]; [|done].
  destruct (job (state app)) as [j|]; [|done].
  destruct (resumeSteps_effect (Job.id j) farr app)
    as (added & msgs & -> & _).
  by apply wellSelected_inJob.
Qed.

Lemma selectJob_wellSelected (id : string) (app : App) :
  id ∈ (Job.id <$> jobs (state app)) → wellSelected (state app) →
  wellSelected (state (selectJob id app)).
Proof.
  intros Hid [Hids _]. unfold wellSelected, selectJob.
  cbn [state setState jobs selectedJobId]. split; [done|].
  split; [by intros Hnil; rewrite Hnil in Hid; apply elem_of_nil in Hid|].
  intros _. by exists id.
Qed.

Lemma submitJob_wellSelected (editingJob : option Job.t)
    (vals : Job.partial) (file : option File.t) (updated : SbResult unit)
    (inserted : SbResult JobRow.t) (uid now : string) (app : App) :
  Job.p_id vals = None → freshJobId inserted uid →
  wellSelected (state app) →
  wellSelected
    (state (appOf (submitJob editingJob vals file updated inserted uid now
                             app))).
Proof.
  intros Hpid Hfresh Hwell. unfold submitJob.
  destruct editingJob as [ej|]; simpl.
  - by apply updateJob_wellSelected.
  - by apply createJob_wellSelected.
Qed.

Lemma submitCandidate_wellSelected (editing : option Candidate.t)
    (vals : Candidate.partial) (file : option File.t)
    (updated : SbResult unit) (inserted : SbResult CandRow.t)
    (uid now : string) (app : App) :
  wellSelected (state app) →
  wellSelected
    (state (submitCandidate editing vals file updated inserted uid now app)).
Proof.
  intros Hwell. unfold submitCandidate.
  destruct (job (state app)) as [j|]; [|done].
  assert (∀ vals' app1, attachResume vals file app = (vals', app1) →
                        state app1 = state app) as Hsame.
  { intros vals' app1 Heq.
    destruct (attachResume_cases vals file app)
      as [[H _]|[(f & url & _ & _ & _ & H)|(f & e & _ & _ & _ & H)]];
      rewrite H in Heq; by injection Heq as <- <-. }
  destruct (attachResume vals file app) as [vals' app1] eqn:Hattach.
  pose proof (Hsame vals' app1 eq_refl) as Hs. rewrite <- Hs in Hwell.
  destruct editing as [ec|];
    [destruct (negb (String.eqb (Candidate.id ec) "temp"))|].
  - simpl. by apply updateCandidate_wellSelected.
  - by apply createCandidate_wellSelected.
  - by apply createCandidate_wellSelected.
Qed.

Lemma onJDFile_wellSelected (file : option File.t) (objectUrl : string)
    (updated : SbResult unit) (app : App) :
  wellSelected (state app) →
  wellSelected (state (onJDFile file objectUrl updated app)).
Proof.
  intros Hwell. unfold onJDFile.
  destruct file as [f|]; [|done].
  destruct (job (state app)) as [j|]; [|done].
  destruct (remote app).
  - destruct (uploadToStorage f) as [r|e]; [|done].
    by apply updateJob_wellSelected.
  - simpl. by apply updateJob_wellSelected.
Qed.

Lemma loadRemote_wellSelected
    (jobsAnswer : SbResult (option (list LoadedJob.t)))
    (candsAnswer : SbResult (option (list LoadedCand.t))) (app : App) :
  admissible (OpLoadRemote jobsAnswer candsAnswer) app →
  wellSelected (state app) →
  ∃ app', loadRemote jobsAnswer candsAnswer app = Some app'
          ∧ wellSelected (state app').
Proof.
  intros Hadm Hwell. unfold loadRemote.
  destruct (remote app); [|by eexists].
  destruct jobsAnswer as [jobsRows|m]; [|by eexists].
  destruct candsAnswer as [candsRows|m]; [|by eexists].
  destruct (Hadm jobsRows candsRows eq_refl eq_refl) as [Hplain Hids].
  rewrite (mapRowsToState_plain _ _ Hplain). simpl.
  eexists. split; [reflexivity|]. simpl.
  apply wellSelected_first. apply Forall_fmap.
  eapply Forall_impl; [exact Hids|]. done.
Qed.

Lemma run_wellSelected (op : Op) (app : App) :
  wellSelected (state app) → admissible op app →
  ∃ app', run op app = Some app' ∧ wellSelected (state app').
Proof.
  intros Hwell Hadm.
  destruct op; simpl in *;
    try (eexists; split; [reflexivity|]).
  - by apply createJob_wellSelected.
  - by apply updateJob_wellSelected.
  - by apply deleteJob_wellSelected.
  - by apply createCandidate_wellSelected.
  - by apply updateCandidate_wellSelected.
  - by apply deleteCandidate_wellSelected.
  - by apply onDragEnd_wellSelected.
  - by apply onResumeFiles_wellSelected.
  - by apply selectJob_wellSelected.
  - destruct Hadm. by apply submitJob_wellSelected.
  - by apply submitCandidate_wellSelected.
  - by apply onJDFile_wellSelected.
  - by apply loadRemote_wellSelected.
  - done.
  - done.
Qed.

Lemma reachable_wellSelected (app0 app : App) :
  wellSelected (state app0) → reachable app0 app → wellSelected (state app).
Proof.
  intros Hwell. induction 1 as [|app app' op _ IH Hadm Hrun]; [done|].
  destruct (run_wellSelected op app IH Hadm) as (app'' & Hrun' & Hwell').
  rewrite Hrun in Hrun'. by injection Hrun' as ->.
Qed.

Lemma selectFirst_wellSelected (seed : ATSState) :
  selectedJobId seed = JS.Null →
  Forall (λ i, i ≠ EmptyString) (Job.id <$> jobs seed) →
  initialState None seed = Some (selectFirst seed)
  ∧ wellSelected (selectFirst seed).
Proof.
  intros Hsel Hids. split; [done|].
  unfold selectFirst. rewrite Hsel.
  destruct seed as [[|j0 rest] sel]; simpl in *; subst sel.
  - by split; [|split].
  - split; [done|]. split; [done|]. intros _.
    exists (Job.id j0). split; [left|done].
Qed.

(** C2 (as amended). The stored selection is an invariant of every
    operation of the board except the import: when it holds (without
    jobs the selection is [null], with jobs it is the id of one of them,
    and no job has the empty id), it holds after every admissible
    operation, which always ends, and so in every application reached
    by such operations; the job of the board is then the selected job.
    After [deleteJob] has changed the state (local mode, or an answer
    without error) the jobs are the remaining ones and the selection is
    the id of the first of them, [null] if none remains.  For a state
    that breaks the invariant, as an import can leave it, the board
    falls back on the first job.  The board starts, without a stored
    state, from the seed with its first job selected, where the
    invariant holds. *)
Theorem selection_invariant (app0 app : App) :
  wellSelected (state app0) →
  reachable app0 app →
  wellSelected (state app)
  ∧ showsSelected (state app)
  ∧ (∀ op, admissible op app →
       ∃ app', run op app = Some app' ∧ wellSelected (state app'))
  ∧ (∀ id deleted, applied app deleted →
       let s' := state (deleteJob id deleted app) in
       jobs s'
       = List.filter (λ j, negb (String.eqb (Job.id j) id))
                     (jobs (state app))
       ∧ (jobs s' = [] → selectedJobId s' = JS.Null)
       ∧ (∀ j0 rest, jobs s' = j0 :: rest →
            selectedJobId s' = JS.Value (Job.id j0)))
  ∧ (∀ s : ATSState, jobFallback s)
  ∧ (∀ seed, selectedJobId seed = JS.Null →
       Forall (λ i, i ≠ EmptyString) (Job.id <$> jobs seed) →
       initialState None seed = Some (selectFirst seed)
       ∧ wellSelected (selectFirst seed)).
Proof.
  intros Hwell0 Hreach.
  pose proof (reachable_wellSelected app0 app Hwell0 Hreach) as Hwell.
  split; [done|]. split; [by apply wellSelected_shows|].
  split; [intros op; by apply run_wellSelected|].
  split; [|split; [exact job_fallback|exact selectFirst_wellSelected]].
  intros id deleted Happ s'. subst s'.
  rewrite (deleteJob_state id deleted app Happ). simpl.
  split; [done|]. split; [by intros ->|].
  intros j0 rest Hjobs. rewrite Hjobs. simpl.
  assert (Job.id j0 ≠ EmptyString) as Hid.
  { pose proof (wellSelected_ids _ Hwell) as Hids.
    rewrite Forall_forall in Hids. apply Hids.
    assert (j0 ∈ List.filter (λ j, negb (String.eqb (Job.id j) id))
                             (jobs (state app))) as Hin
      by (rewrite Hjobs; left).
    by apply elem_of_List_filter in Hin as [Hin _]. }
  by destruct (Job.id j0).
Qed.

Lemma wellSelected_seed : wellSelected Sample.seed.
Proof.
  split; [|split].
  - repeat constructor. discriminate.
  - discriminate.
  - intros _. exists "j-frontend". split; [left|reflexivity].
Qed.

Lemma selection_invariant_witness :
  let app0 := Sample.localApp Sample.seed in
  let created :=
    OpCreateJob (Job.mkPartial None (Some "Data Engineer") None None None
                               None None)
                None (SbError "unused") "j-data" Sample.day in
  let removed := OpDeleteJob "j-frontend" (SbOk ()) in
  ∃ app1 app2,
    run created app0 = Some app1 ∧ run removed app1 = Some app2
    ∧ wellSelected (state app2)
    ∧ selectedJobId (state app2) = JS.Value "j-data".
Proof.
  intros app0 created removed.
  eexists _, _. split; [reflexivity|]. split; [reflexivity|].
  split; [|reflexivity].
  refine (proj1 (selection_invariant app0 _ wellSelected_seed _)).
  eapply (reachable_step app0 _ _ removed); [|exact I|reflexivity].
  eapply (reachable_step app0 _ _ created);
    [apply reachable_start| |reflexivity].
  split; [discriminate|]. intros row Hrow. discriminate Hrow.
Defined.

(** The import is what the invariant does not survive: a document whose
    selection names no job is installed as it is. *)
Lemma uploadJSON_breaks_invariant :
  ∃ app',
    uploadJSON (downloadJSON (Sample.localApp dangling))
               (Sample.localApp Sample.seed) = Some app'
    ∧ wellSelected (state (Sample.localApp Sample.seed))
    ∧ ¬ wellSelected (state app').
Proof.
  eexists. split; [vm_compute; reflexivity|].
  split; [exact wellSelected_seed|].
  intros (_ & _ & Hsel). destruct Hsel as (i & Hi & Hv); [discriminate|].
  simpl in Hv. injection Hv as <-.
  simpl in Hi. repeat (apply elem_of_cons in Hi as [Hi|Hi]; [discriminate|]).
  by apply elem_of_nil in Hi.
Qed.

(** ** The name heuristic against its description *)

Lemma hasDot_noDot (s : string) :
  Name.hasDot s = false ↔ Heuristic.noDot s.
Proof.
  unfold Heuristic.noDot. induction s as [|c r IH]; simpl; [done|].
  destruct (Name.isDot c); simpl; [split; discriminate|done].
Qed.

Lemma hasDot_app_dot (a b : string) : Name.hasDot (a +:+ "." +:+ b) = true.
Proof.
  induction a as [|c a IH]; [done|].
  rewrite append_cons. simpl. rewrite IH. by destruct (Name.isDot c).
Qed.

Lemma isEmpty_app_dot (a b : string) :
  Name.isEmpty (a +:+ "." +:+ b) = false.
Proof. by destruct a. Qed.

Lemma stripExtension_ext (stem ext : string) :
  ext ≠ EmptyString → Heuristic.noDot ext →
  Name.stripExtension (stem +:+ "." +:+ ext) = stem.
Proof.
  intros Hne Hno%hasDot_noDot. induction stem as [|c r IH].
  - rewrite append_nil. change ("." +:+ ext) with (String "." ext).
    simpl. rewrite Hno. by destruct ext.
  - rewrite append_cons. simpl.
    rewrite hasDot_app_dot, IH. by rewrite !andb_false_r.
Qed.

Lemma stripExtension_none (s : string) :
  (∀ a ext, s = a +:+ "." +:+ ext → ext ≠ EmptyString →
            ¬ Heuristic.noDot ext) →
  Name.stripExtension s = s.
Proof.
  induction s as [|c r IH]; intros Hno; simpl; [done|].
  destruct (Name.isDot c && negb (Name.isEmpty r) && negb (Name.hasDot r))
    eqn:Hc.
  - apply andb_true_iff in Hc as [[Hd He]%andb_true_iff Hh].
    exfalso. apply (Hno EmptyString r).
    + rewrite append_nil. unfold Name.isDot in Hd.
      apply Ascii.eqb_eq in Hd. by subst c.
    + by destruct r.
    + apply hasDot_noDot. by destruct (Name.hasDot r).
  - f_equal. apply IH. intros a ext -> Hne.
    apply (Hno (String c a) ext); [|done]. by rewrite append_cons.
Qed.

Lemma stripExtension_stripped (s : string) :
  Heuristic.extensionStripped s (Name.stripExtension s).
Proof.
  induction s as [|c r IH]; simpl.
  - right. split; [done|]. intros [|] ext; discriminate.
  - destruct (Name.isDot c && negb (Name.isEmpty r) && negb (Name.hasDot r))
      eqn:Hc.
    + apply andb_true_iff in Hc as [[Hd He]%andb_true_iff Hh].
      left. exists r. rewrite append_nil.
      unfold Name.isDot in Hd. apply Ascii.eqb_eq in Hd. subst c.
      split; [done|]. split; [by destruct r|].
      apply hasDot_noDot. by destruct (Name.hasDot r).
    + destruct IH as [(ext & Hr & Hne & Hno) | [Hr Hnone]].
      * left. exists ext. rewrite append_cons. by rewrite <- Hr.
      * right. rewrite Hr. split; [done|].
        intros [|c' a] ext.
        -- rewrite append_nil. intros [= Hc1 Hc2] Hne Hno. subst c r.
           apply hasDot_noDot in Hno. rewrite !append_nil, Hno in Hc.
           destruct ext; [done|]. discriminate Hc.
        -- rewrite append_cons. intros [= Hc1 Hc2]. by apply (Hnone a).
Qed.

Lemma extensionStripped_unique (s stem : string) :
  Heuristic.extensionStripped s stem → stem = Name.stripExtension s.
Proof.
  intros [(ext & -> & Hne & Hno) | [-> Hnone]].
  - by rewrite stripExtension_ext.
  - by rewrite stripExtension_none.
Qed.

Lemma replaceRuns_inRun (cls : ascii → bool) (rep s : string) :
  Name.replaceRuns_from cls rep true s
  = Name.replaceRuns_from cls rep false (dropRun cls s).
Proof.
  induction s as [|c r IH]; simpl; [done|].
  destruct (cls c) eqn:Hc; [done|]. simpl. by rewrite Hc.
Qed.

Lemma takeRun_dropRun (cls : ascii → bool) (s : string) :
  s = takeRun cls s +:+ dropRun cls s.
Proof.
  induction s as [|c r IH]; simpl; [done|].
  destruct (cls c); [|done]. rewrite append_cons. by f_equal.
Qed.

Lemma takeRun_all (cls : ascii → bool) (s : string) :
  Name.allChars cls (takeRun cls s) = true.
Proof.
  induction s as [|c r IH]; simpl; [done|].
  destruct (cls c) eqn:Hc; [|done]. simpl. by rewrite Hc.
Qed.

Lemma dropRun_outside (cls : ascii → bool) (s : string) :
  Heuristic.startsOutside cls (dropRun cls s).
Proof.
  induction s as [|c r IH]; simpl; [done|].
  destruct (cls c) eqn:Hc; [done|]. done.
Qed.

Lemma dropRun_length (cls : ascii → bool) (s : string) :
  (String.length (dropRun cls s) ≤ String.length s)%nat.
Proof.
  induction s as [|c r IH]; simpl; [lia|].
  destruct (cls c); simpl; lia.
Qed.

Lemma replaceRuns_replaced_fuel (cls : ascii → bool) (rep : string) (n : nat) :
  ∀ s, (String.length s ≤ n)%nat →
       Heuristic.replaced cls rep s (Name.replaceRuns cls rep s).
Proof.
  unfold Name.replaceRuns.
  induction n as [|n IH]; intros [|c r] Hlen; simpl in *;
    try apply Heuristic.replaced_end; [lia|].
  destruct (cls c) eqn:Hc.
  - rewrite replaceRuns_inRun.
    rewrite (takeRun_dropRun cls r) at 1. rewrite <- append_cons.
    apply Heuristic.replaced_run.
    + done.
    + simpl. by rewrite Hc, takeRun_all.
    + apply dropRun_outside.
    + apply IH. pose proof (dropRun_length cls r). lia.
  - apply Heuristic.replaced_keep; [done|]. apply IH. lia.
Qed.

Lemma replaceRuns_replaced (cls : ascii → bool) (rep s : string) :
  Heuristic.replaced cls rep s (Name.replaceRuns cls rep s).
Proof. by apply (replaceRuns_replaced_fuel cls rep (String.length s)). Qed.

Lemma replaceRuns_after_run (cls : ascii → bool) (rep run s : string) :
  Name.allChars cls run = true → Heuristic.startsOutside cls s →
  Name.replaceRuns_from cls rep true (run +:+ s)
  = Name.replaceRuns_from cls rep false s.
Proof.
  intros Hrun Hs. induction run as [|c run IH].
  - rewrite append_nil. destruct s as [|c r]; [done|].
    simpl in *. by rewrite Hs.
  - rewrite append_cons. simpl in *.
    apply andb_true_iff in Hrun as [-> Hrun]. by apply IH.
Qed.

Lemma replaced_unique (cls : ascii → bool) (rep s r : string) :
  Heuristic.replaced cls rep s r → r = Name.replaceRuns cls rep s.
Proof.
  unfold Name.replaceRuns.
  induction 1 as [|c s r Hc _ IH|run s r Hne Hrun Hs _ IH]; [done|..].
  - simpl. by rewrite Hc, IH.
  - destruct run as [|c run]; [done|]. rewrite append_cons.
    simpl in *. apply andb_true_iff in Hrun as [-> Hrun].
    by rewrite replaceRuns_after_run, IH.
Qed.

Lemma trimStart_split (s : string) :
  ∃ l, s = l +:+ Name.trimStart s ∧ Name.allChars JS.isSpace l = true
       ∧ Heuristic.startsOutside JS.isSpace (Name.trimStart s).
Proof.
  induction s as [|c r (l & Hr & Hl & Ho)]; simpl.
  - by exists EmptyString.
  - destruct (JS.isSpace c) eqn:Hc.
    + exists (String c l). rewrite append_cons, <- Hr. simpl. by rewrite Hc.
    + by exists EmptyString.
Qed.

Lemma trimEnd_split (s : string) :
  ∃ t, s = Name.trimEnd s +:+ t ∧ Name.allChars JS.isSpace t = true
       ∧ Heuristic.endsOutside JS.isSpace (Name.trimEnd s)
       ∧ (Heuristic.startsOutside JS.isSpace s →
          Heuristic.startsOutside JS.isSpace (Name.trimEnd s)).
Proof.
  induction s as [|c r (t & Hr & Ht & He & _)]; simpl.
  - by exists EmptyString.
  - destruct (JS.isSpace c) eqn:Hc; simpl.
    + destruct (Name.trimEnd r) as [|d r'] eqn:Hr'; simpl.
      * exists (String c t). rewrite append_nil in Hr |- *. subst r.
        simpl. by rewrite Hc.
      * exists t. rewrite append_cons, <- Hr. by rewrite Hc.
    + exists t. rewrite append_cons, <- Hr.
      split; [done|]. split; [done|]. split; [|done].
      by destruct (Name.trimEnd r).
Qed.

Lemma trim_trimmed (s : string) : Heuristic.trimmed s (Name.trim s).
Proof.
  unfold Name.trim.
  destruct (trimStart_split s) as (l & Hs & Hl & Ho).
  destruct (trimEnd_split (Name.trimStart s)) as (t & Hu & Ht & He & Hk).
  exists l, t. split; [|by auto].
  by rewrite <- Hu.
Qed.

Lemma trimStart_spaces_app (l s : string) :
  Name.allChars JS.isSpace l = true →
  Name.trimStart (l +:+ s) = Name.trimStart s.
Proof.
  induction l as [|c l IH]; [done|]. rewrite append_cons. simpl.
  intros [-> Hl]%andb_true_iff. by apply IH.
Qed.

Lemma trimEnd_spaces (t : string) :
  Name.allChars JS.isSpace t = true → Name.trimEnd t = EmptyString.
Proof.
  induction t as [|c t IH]; simpl; [done|].
  intros [-> Ht]%andb_true_iff. by rewrite IH.
Qed.

Lemma trimStart_spaces (t : string) :
  Name.allChars JS.isSpace t = true → Name.trimStart t = EmptyString.
Proof.
  induction t as [|c t IH]; simpl; [done|].
  intros [-> Ht]%andb_true_iff. by apply IH.
Qed.

Lemma trimEnd_app_spaces (r t : string) :
  Name.allChars JS.isSpace t = true → Heuristic.endsOutside JS.isSpace r →
  Name.trimEnd (r +:+ t) = r.
Proof.
  intros Ht. induction r as [|c r IH]; intros He.
  - rewrite append_nil. by apply trimEnd_spaces.
  - rewrite append_cons. cbn [Name.trimEnd].
    destruct r as [|d r].
    + rewrite append_nil, trimEnd_spaces by done. simpl in He.
      by rewrite He.
    + rewrite IH by done. simpl. by rewrite andb_false_r.
Qed.

Lemma trimmed_unique (s r : string) :
  Heuristic.trimmed s r → r = Name.trim s.
Proof.
  intros (l & t & -> & Hl & Ht & Ho & He). unfold Name.trim.
  rewrite trimStart_spaces_app by done.
  destruct r as [|c r].
  - rewrite append_nil, trimStart_spaces by done. done.
  - rewrite append_cons. simpl in Ho. cbn [Name.trimStart]. rewrite Ho.
    rewrite <- append_cons. by rewrite trimEnd_app_spaces.
Qed.

Lemma separatorsToSpaces_spacedOut (s : string) :
  Heuristic.spacedOut s (separatorsToSpaces s).
Proof.
  induction s as [|c r IH]; simpl; [constructor|].
  destruct (Name.isSeparator c) eqn:Hc; by constructor.
Qed.

Lemma spacedOut_unique (s r : string) :
  Heuristic.spacedOut s r → r = separatorsToSpaces s.
Proof.
  induction 1 as [|c s r Hc _ IH|c s r Hc _ IH]; simpl; [done|..];
    by rewrite Hc, IH.
Qed.

(** The source replaces each run of separators by one space before it
    collapses the white space; replacing every separator by a space
    gives the same text once the white space is collapsed. *)
Lemma collapse_separators (s : string) :
  (∀ inRun,
     Name.replaceRuns_from JS.isSpace " " inRun (separatorsToSpaces s)
     = Name.replaceRuns_from JS.isSpace " " inRun
         (Name.replaceRuns_from Name.isSeparator " " false s))
  ∧ Name.replaceRuns_from JS.isSpace " " true (separatorsToSpaces s)
    = Name.replaceRuns_from JS.isSpace " " true
        (Name.replaceRuns_from Name.isSeparator " " true s).
Proof.
  induction s as [|c r [IH1 IH2]]; [done|].
  cbn [separatorsToSpaces Name.replaceRuns_from].
  destruct (Name.isSeparator c) eqn:Hc.
  - change (" " +:+ ?x) with (String " " x).
    cbn [Name.replaceRuns_from].
    change (JS.isSpace " ") with true. cbv iota.
    split; [intros [|]|]; by rewrite IH2.
  - cbn [Name.replaceRuns_from].
    split; [intros inRun|]; destruct (JS.isSpace c); by rewrite ?IH1.
Qed.

Lemma base_baseName (fileName : string) :
  Heuristic.baseName fileName (Name.base fileName).
Proof.
  unfold Name.base, Name.replaceRuns.
  rewrite <- (proj1 (collapse_separators _) false).
  eexists _, _, _.
  split; [apply stripExtension_stripped|].
  split; [apply separatorsToSpaces_spacedOut|].
  split; [apply (replaceRuns_replaced JS.isSpace)|apply trim_trimmed].
Qed.

Lemma baseName_unique (fileName base : string) :
  Heuristic.baseName fileName base → base = Name.base fileName.
Proof.
  intros (stem & spaced & collapsed & Hs & Hr1 & Hr2 & Ht).
  apply extensionStripped_unique in Hs. apply spacedOut_unique in Hr1.
  apply replaced_unique in Hr2. apply trimmed_unique in Ht.
  unfold Name.base. unfold Name.replaceRuns in *.
  rewrite <- (proj1 (collapse_separators _) false). congruence.
Qed.

Lemma or_else_cases (a b : string) :
  (a ≠ EmptyString → JS.or_else a b = a)
  ∧ (a = EmptyString → JS.or_else a b = b).
Proof. split; [by destruct a|by intros ->]. Qed.

Lemma guessName_guessed (fileName : string) :
  Heuristic.guessed fileName (Name.guessName fileName).
Proof.
  unfold Name.guessName. eexists _, _, _.
  split; [apply base_baseName|].
  split; [apply replaceRuns_replaced|].
  split; [apply trim_trimmed|].
  set (stripped := Name.trim _). set (base := Name.base _).
  repeat split.
  - by destruct stripped.
  - intros -> Hb. by destruct base.
  - by intros -> ->.
Qed.

Lemma guessed_unique (fileName name : string) :
  Heuristic.guessed fileName name → name = Name.guessName fileName.
Proof.
  intros (base & digitless & stripped & Hb & Hd & Ht & H1 & H2 & H3).
  apply baseName_unique in Hb. apply replaced_unique in Hd.
  apply trimmed_unique in Ht. subst base digitless.
  unfold Name.guessName. rewrite <- Ht.
  destruct stripped as [|c r]; [|by apply H1].
  destruct (Name.base fileName) as [|c r] eqn:Hbase.
  - by apply H3.
  - by apply H2.
Qed.

(** A character that is neither a separator nor white space survives the
    replacements and the trimming. *)
Lemma someChar_app (p : ascii → bool) (a b : string) :
  someChar p (a +:+ b) = someChar p a || someChar p b.
Proof.
  induction a as [|c a IH]; [done|]. rewrite append_cons. simpl.
  by rewrite IH, orb_assoc.
Qed.

Lemma someChar_allChars (p : ascii → bool) (s : string) :
  someChar (λ c, negb (p c)) s = negb (Name.allChars p s).
Proof.
  induction s as [|c r IH]; simpl; [done|].
  rewrite IH. by destruct (p c).
Qed.

Lemma someChar_replaceRuns (p cls : ascii → bool) (rep s : string)
    (inRun : bool) :
  (∀ c, p c = true → cls c = false) →
  someChar p s = true →
  someChar p (Name.replaceRuns_from cls rep inRun s) = true.
Proof.
  intros Hp. revert inRun. induction s as [|c r IH]; intros inRun; simpl;
    [done|].
  destruct (p c) eqn:Hc; simpl.
  - intros _. rewrite (Hp c Hc). simpl. by rewrite Hc.
  - intros Hr. destruct (cls c).
    + destruct inRun; [by apply IH|].
      rewrite someChar_app, IH by done. apply orb_true_r.
    + simpl. rewrite Hc. by apply IH.
Qed.

Lemma trimStart_empty (s : string) :
  Name.trimStart s = EmptyString → Name.allChars JS.isSpace s = true.
Proof.
  induction s as [|c r IH]; simpl; [done|].
  destruct (JS.isSpace c); [done|discriminate].
Qed.

Lemma trim_empty (s : string) :
  Name.trim s = EmptyString → Name.allChars JS.isSpace s = true.
Proof.
  unfold Name.trim. intros H. apply trimStart_empty.
  destruct (trimStart_split s) as (l & _ & _ & Ho).
  destruct (Name.trimStart s) as [|c r]; [done|].
  simpl in *. rewrite Ho in H. discriminate.
Qed.

Lemma base_empty (fileName : string) :
  Name.base fileName = EmptyString
  ↔ Name.allChars isSeparatorOrSpace (Name.stripExtension fileName) = true.
Proof.
  unfold Name.base, Name.replaceRuns. split.
  - intros H%trim_empty.
    destruct (Name.allChars isSeparatorOrSpace _) eqn:Hall; [done|].
    exfalso.
    assert (someChar (λ c, negb (isSeparatorOrSpace c))
              (Name.stripExtension fileName) = true) as Hsome
      by by rewrite someChar_allChars, Hall.
    apply (someChar_replaceRuns _ Name.isSeparator " " _ false) in Hsome.
    2:{ intros c. unfold isSeparatorOrSpace.
        by destruct (Name.isSeparator c). }
    apply (someChar_replaceRuns _ JS.isSpace " " _ false) in Hsome.
    2:{ intros c. unfold isSeparatorOrSpace.
        destruct (JS.isSpace c); [by rewrite orb_true_r|done]. }
    assert (someChar (λ c, negb (JS.isSpace c))
              (Name.replaceRuns_from JS.isSpace " " false
                 (Name.replaceRuns_from Name.isSeparator " " false
                    (Name.stripExtension fileName))) = false) as Hnone
      by by rewrite someChar_allChars, H.
    clear H. revert Hsome Hnone.
    generalize (Name.replaceRuns_from JS.isSpace " " false
                 (Name.replaceRuns_from Name.isSeparator " " false
                    (Name.stripExtension fileName))).
    intros s. induction s as [|c r IH]; simpl; [done|].
    unfold isSeparatorOrSpace at 1.
    destruct (JS.isSpace c); simpl; [|done].
    rewrite orb_true_r. simpl. apply IH.
  - intros H. by apply trim_spaces, collapse_spaces_spaces,
                      replace_separators_spaces.
Qed.

(** C8 (as amended). The guessed name is what the steps of the
    description give, and nothing else: the extension is stripped, the
    separators become spaces, runs of white space are collapsed and the
    ends are trimmed (the base name); then the runs of digits are removed
    and the ends trimmed again; when that is empty the guess is the base
    name, and when the base name is empty too it is the placeholder.  The
    guess is never empty.  The base name is empty exactly when the name
    without its extension has only separators and white space, as for
    [...]; [John_Doe_2.pdf] yields [John Doe], [123] keeps [123] and
    [#42] keeps [#]. *)
Theorem guessName_fallbacks (fileName : string) :
  Heuristic.guessed fileName (Name.guessName fileName)
  ∧ (∀ name, Heuristic.guessed fileName name →
       name = Name.guessName fileName)
  ∧ Heuristic.baseName fileName (Name.base fileName)
  ∧ (∀ base, Heuristic.baseName fileName base → base = Name.base fileName)
  ∧ (let base := Name.base fileName in
     let stripped :=
       Name.trim (Name.replaceRuns JS.isDigit EmptyString base) in
     (stripped ≠ EmptyString → Name.guessName fileName = stripped)
     ∧ (stripped = EmptyString → base ≠ EmptyString →
        Name.guessName fileName = base)
     ∧ (stripped = EmptyString → base = EmptyString →
        Name.guessName fileName = placeholder))
  ∧ Name.guessName fileName ≠ EmptyString
  ∧ (∀ stem, Heuristic.extensionStripped fileName stem →
       (Name.base fileName = EmptyString
        ↔ Name.allChars isSeparatorOrSpace stem = true)
       ∧ (Name.allChars isSeparatorOrSpace stem = true →
          Name.guessName fileName = placeholder))
  ∧ (Name.allChars isSeparatorOrSpace fileName = true →
     Name.guessName fileName = placeholder)
  ∧ Name.guessName "John_Doe_2.pdf" = "John Doe"
  ∧ Name.guessName "..." = placeholder
  ∧ Name.guessName "123" = "123"
  ∧ Name.guessName "#42" = "#".
Proof.
  split; [apply guessName_guessed|].
  split; [apply guessed_unique|].
  split; [apply base_baseName|].
  split; [apply baseName_unique|].
  split.
  { intros base stripped. unfold Name.guessName. fold base. fold stripped.
    repeat split.
    - by destruct stripped.
    - intros -> Hb. by destruct base.
    - by intros -> ->. }
  split; [by apply or_else_nonempty|].
  split.
  { intros stem ->%extensionStripped_unique.
    split; [apply base_empty|].
    intros Hb%base_empty. unfold Name.guessName. by rewrite Hb. }
  split.
  { intros Hsep. assert (Name.base fileName = EmptyString) as Hb
      by by apply base_of_separators.
    unfold Name.guessName. by rewrite Hb. }
  by repeat split.
Qed.

(** ** A score beyond the doubles is lost by the export *)

Lemma written_embed (v : JSON.value) : Wide.written (Wide.embed v) = v.
Proof.
  induction v as [| | | |l IH|ms IH] using value_ind'; simpl; try done.
  - f_equal. induction IH as [|x l Hx _ IHl]; simpl; [done|].
    by rewrite Hx, IHl.
  - f_equal. induction IH as [|[k x] l Hx _ IHl]; simpl; [done|].
    simpl in Hx. by rewrite Hx, IHl.
Qed.

Lemma stringify_embed (v : JSON.value) :
  Wide.stringify (Wide.embed v) = JSON.stringify v.
Proof. unfold Wide.stringify. by rewrite written_embed. Qed.

(** On a text of the typed fragment the two parsers agree: on the value
    read, and on the text that is not JSON. *)
Lemma parseValue_embed (fuel : nat) :
  (∀ s v r, JSON.parseValue fuel s = JSON.Parsed (v, r) →
     Wide.parseValue fuel s = JSON.Parsed (Wide.embed v, r))
  ∧ (∀ s vs r, JSON.parseElements fuel s = JSON.Parsed (vs, r) →
       Wide.parseElements fuel s = JSON.Parsed (map Wide.embed vs, r))
  ∧ (∀ s ms r, JSON.parseMembers fuel s = JSON.Parsed (ms, r) →
       Wide.parseMembers fuel s
       = JSON.Parsed (map (λ '(k, x), (k, Wide.embed x)) ms, r))
  ∧ (∀ s, JSON.parseValue fuel s = JSON.Invalid →
       Wide.parseValue fuel s = JSON.Invalid)
  ∧ (∀ s, JSON.parseElements fuel s = JSON.Invalid →
       Wide.parseElements fuel s = JSON.Invalid)
  ∧ (∀ s, JSON.parseMembers fuel s = JSON.Invalid →
       Wide.parseMembers fuel s = JSON.Invalid).
Proof.
  induction fuel as [|fuel (IHv & IHe & IHm & IHv' & IHe' & IHm')];
    [by repeat split|].
  assert (∀ s v r, JSON.parseNum s = JSON.Parsed (v, r) →
            Wide.parseNum s = JSON.Parsed (Wide.embed v, r)) as Hnum
    by (intros s v r H; unfold Wide.parseNum; by rewrite H).
  assert (∀ s, JSON.parseNum s = JSON.Invalid →
            Wide.parseNum s = JSON.Invalid) as Hnum'
    by (intros s H; unfold Wide.parseNum; by rewrite H).
  repeat split; intros s;
    cbn [JSON.parseValue Wide.parseValue JSON.parseElements
         Wide.parseElements JSON.parseMembers Wide.parseMembers];
    unfold JSON.keyword, Wide.keyword; intros;
    repeat first
      [ progress simplify_eq
      | match goal with
        | H : context [match ?x with _ => _ end] |- _ => destruct x eqn:?
        end ];
    repeat match goal with
      | H : JSON.parseValue fuel _ = JSON.Parsed _ |- _ =>
          rewrite (IHv _ _ _ H); clear H
      | H : JSON.parseElements fuel _ = JSON.Parsed _ |- _ =>
          rewrite (IHe _ _ _ H); clear H
      | H : JSON.parseMembers fuel _ = JSON.Parsed _ |- _ =>
          rewrite (IHm _ _ _ H); clear H
      | H : JSON.parseValue fuel _ = JSON.Invalid |- _ =>
          rewrite (IHv' _ H); clear H
      | H : JSON.parseElements fuel _ = JSON.Invalid |- _ =>
          rewrite (IHe' _ H); clear H
      | H : JSON.parseMembers fuel _ = JSON.Invalid |- _ =>
          rewrite (IHm' _ H); clear H
      | H : JSON.parseNum _ = JSON.Parsed _ |- _ =>
          rewrite (Hnum _ _ _ H); clear H
      | H : JSON.parseNum _ = JSON.Invalid |- _ =>
          rewrite (Hnum' _ H); clear H
      | H : _ = _ |- _ => rewrite H; clear H
      end;
    done.
Qed.

Lemma parse_embed (text : string) (v : JSON.value) :
  JSON.parse text = JSON.Parsed v →
  Wide.parse text = JSON.Parsed (Wide.embed v).
Proof.
  unfold JSON.parse, Wide.parse. intros H.
  destruct (JSON.parseValue _ _) as [[v' rest]| |] eqn:Hv; try done.
  apply parseValue_embed in Hv. rewrite Hv.
  destruct (JSON.skipWs rest); by simplify_eq.
Qed.

Lemma parse_invalid_embed (text : string) :
  JSON.parse text = JSON.Invalid → Wide.parse text = JSON.Invalid.
Proof.
  unfold JSON.parse, Wide.parse. intros H.
  destruct (JSON.parseValue _ _) as [[v' rest]| |] eqn:Hv; try done.
  - apply parseValue_embed in Hv. rewrite Hv.
    by destruct (JSON.skipWs rest).
  - apply parseValue_embed in Hv. by rewrite Hv.
Qed.

(** Where the typed import has an answer, the import of [Wide] has the
    same one; and the typed export is the export of [Wide]. *)
Lemma uploadJSON_wide (text : string) (app app' : App) (before : Wide.value) :
  uploadJSON text app = Some app' →
  (JSON.parse text = JSON.Invalid ∧ state app' = state app
   ∧ Wide.uploadJSON text before = Some before)
  ∨ (∃ v, Codec.state v = Some (state app')
          ∧ Wide.uploadJSON text before = Some (Wide.embed v)).
Proof.
  unfold uploadJSON, Wide.uploadJSON.
  destruct (JSON.parse text) as [v| |] eqn:Hparse; [| |done].
  - rewrite (parse_embed _ _ Hparse).
    destruct (Codec.state v) as [next|] eqn:Hnext; [|done].
    intros [= <-]. right. by exists v.
  - intros [= <-]. left. by rewrite (parse_invalid_embed _ Hparse).
Qed.

Lemma downloadJSON_wide (app : App) :
  Wide.downloadJSON (Wide.embed (Codec.ofState (state app)))
  = downloadJSON app.
Proof. apply stringify_embed. Qed.

(** Whatever its shape, a state whose numbers are safe integers is given
    back by the import of its export. *)
Lemma wide_round_trip (v : JSON.value) (before : Wide.value) :
  safeValue v →
  Wide.uploadJSON (Wide.downloadJSON (Wide.embed v)) before
  = Some (Wide.embed v).
Proof.
  intros Hsafe. unfold Wide.uploadJSON, Wide.downloadJSON.
  by rewrite stringify_embed, (parse_embed _ v (parse_stringify v Hsafe)).
Qed.


(** ** The edit form, opened on a card *)

(** X21. Opening the edit form on a card of the board and saving it
    untouched.  The card is the normalized copy of the stored
    candidate, so the save writes the normalized stage: the state is
    left as it was, in both modes and whatever the adapter answers, when
    the stored candidate is well formed (its optional strings are there,
    its stage is one of the six [STAGES], its tags are trimmed, not
    empty and without a comma) and its id is that of no other candidate
    of the job; a candidate stored with another stage is rewritten to
    its normalized stage.  Whatever the candidate, the patch of the
    untouched form keeps its id, name, score, resume and date. *)
Theorem edit_untouched (c : Candidate.t) (j : Job.t)
    (updated : SbResult unit) (inserted : SbResult CandRow.t)
    (uid now : string) (app : App) :
  let card := normalized c in
  let vals :=
    CandidateForm.vals (CandidateForm.init (formInitial (Some card))) in
  let app' :=
    submitCandidate (Some card) vals None updated inserted uid now app in
  job (state app) = Some j →
  Candidate.id c ≠ EmptyString →
  Candidate.id c ≠ "temp" →
  (∀ j' c', j' ∈ jobs (state app) → Job.id j' = Job.id j →
            c' ∈ Job.candidates j' → Candidate.id c' = Candidate.id c →
            c' = c) →
  (filledIn c → Forall tagOK (Candidate.tags c) →
   isStage (Candidate.stage c) = true → state app' = state app)
  ∧ (filledIn c → Forall tagOK (Candidate.tags c) →
     Candidate.assign c vals = normalized c)
  ∧ (applied app updated →
     state app'
     = inJob (Job.id j)
         (fmap (λ c0, if String.eqb (Candidate.id c0) (Candidate.id c)
                      then Candidate.assign c0 vals else c0))
         (state app))
  ∧ Candidate.stage (Candidate.assign c vals)
    = normalizeStage (Candidate.stage c)
  ∧ Candidate.id (Candidate.assign c vals) = Candidate.id c
  ∧ Candidate.name (Candidate.assign c vals) = Candidate.name c
  ∧ Candidate.score (Candidate.assign c vals) = Candidate.score c
  ∧ Candidate.resume (Candidate.assign c vals) = Candidate.resume c
  ∧ Candidate.appliedAt (Candidate.assign c vals) = Candidate.appliedAt c.
Proof.
  intros card vals app' Hj Hne Htemp Huniq.
  assert (formInitial (Some card) = Some card) as Hinit.
  { unfold formInitial. change (Candidate.id card) with (Candidate.id c).
    by destruct (Candidate.id c). }
  assert (vals = CandidateForm.vals (CandidateForm.init (Some card)))
    as Hvals by (subst vals; by rewrite Hinit).
  clearbody vals. subst vals.
  set (vals := CandidateForm.vals (CandidateForm.init (Some card))) in *.
  assert (Candidate.stage (Candidate.assign c vals)
          = normalizeStage (Candidate.stage c)) as Hstage.
  { subst vals card. unfold Candidate.assign, CandidateForm.vals. simpl.
    pose proof (normalizeStage_in_STAGES (Candidate.stage c)) as Hin.
    destruct (normalizeStage (Candidate.stage c)) as [|a r] eqn:Hn; [|done].
    apply isStage_elem in Hin. discriminate Hin. }
  assert (filledIn c → Forall tagOK (Candidate.tags c) →
          Candidate.assign c vals = normalized c) as Hpatch.
  { intros ([e He] & [p Hp] & [n Hn]) Htags.
    assert (Candidate.assign (normalized c) vals = normalized c) as Hcard.
    { apply form_patch_same.
      - repeat split; simpl; eauto.
      - simpl. intros Hempty.
        pose proof (normalizeStage_in_STAGES (Candidate.stage c)) as Hin.
        rewrite Hempty in Hin. apply isStage_elem in Hin. discriminate Hin.
      - done. }
    by transitivity (Candidate.assign (normalized c) vals). }
  assert (state app'
          = state (updateCandidate (Job.id j) (Candidate.id c) vals updated
                                   app)) as Happ'.
  { subst app'. unfold submitCandidate. rewrite Hj.
    change (Candidate.id card) with (Candidate.id c).
    apply String.eqb_neq in Htemp. by rewrite Htemp. }
  split; [|split; [exact Hpatch|split; [|done]]].
  - intros Hfilled Htags Hcanon. rewrite Happ'.
    destruct (updateCandidate_state (Job.id j) (Candidate.id c) vals updated
                app) as (_ & _ & [(m & _ & _ & Hs & _)|(_ & Hs & _)]);
      [done|]. rewrite Hs.
    apply patch_same_state. intros j' c' Hj' Hid Hc' Hcid.
    rewrite (Huniq j' c' Hj' Hid Hc' Hcid), (Hpatch Hfilled Htags).
    unfold normalized. rewrite (normalizeStage_canonical _ Hcanon).
    by destruct c.
  - intros Happlied. rewrite Happ'.
    destruct (updateCandidate_state (Job.id j) (Candidate.id c) vals updated
                app) as (_ & _ & [(m & Hr & -> & _)|(_ & Hs & _)]);
      [|done].
    destruct Happlied as [Hl|[u Hu]]; congruence.
Qed.

Lemma edit_untouched_witness :
  let vals :=
    CandidateForm.vals
      (CandidateForm.init (formInitial (Some (normalized Demo.asha)))) in
  let app := Sample.remoteApp Demo.one in
  state (submitCandidate (Some (normalized Demo.asha)) vals None (SbOk ())
                         (SbError "unused") "u" Sample.day app)
  = state app.
Proof.
  intros vals app.
  refine (proj1 (edit_untouched Demo.asha Demo.ops (SbOk ())
                   (SbError "unused") "u" Sample.day app eq_refl _ _ _)
                _ _ _).
  - discriminate.
  - discriminate.
  - intros j' c' Hj' _ Hc' _.
    apply list_elem_of_singleton in Hj' as ->.
    by apply list_elem_of_singleton in Hc'.
  - repeat split; eexists; reflexivity.
  - unfold Demo.asha. cbn [Candidate.tags].
    repeat (apply Forall_cons_2 || apply Forall_nil_2);
      (split; [discriminate|split; reflexivity]).
  - reflexivity.
Defined.

(** A candidate stored with the stage [applied] is shown in the column
    of the first interview round; saving its form untouched writes the
    stage of that column. *)
Example edit_untouched_rewrites_stage :
  let card := normalized legacy in
  let vals :=
    CandidateForm.vals (CandidateForm.init (formInitial (Some card))) in
  let app' :=
    submitCandidate (Some card) vals None (SbOk ()) (SbError "unused") "u"
                    Sample.day (Sample.localApp legacyBoard) in
  Candidate.stage card = "Interview: First Round"
  ∧ (Candidate.stage <$> allCandidates (state app'))
    = ["Interview: First Round"]
  ∧ state app' ≠ legacyBoard.
Proof.
  intros card vals app'. split; [reflexivity|]. split; [reflexivity|].
  vm_compute. discriminate.
Qed.
